(** * Kuaishou downloader: resource resolution and streaming relay

    A shallow embedding of [server/routes.ts]: the redirect-following
    fetcher [fetchWithRedirects], the extraction cascade
    [extractVideoInfoFromHtml] and the [/api/download] relay handler,
    together with the properties the specification states about them.

    JavaScript strings are sequences of UTF-16 code units, modelled as
    [list N].  Regular expressions are given a backtracking semantics
    (greedy and lazy quantifiers, one capture group, the [g] flag with its
    [lastIndex] state).  Loops whose termination is not structural take a
    step budget and answer [OutOfFuel] when it is exhausted. *)

From Stdlib Require Import List NArith ZArith Bool Arith Lia String Ascii.
Import ListNotations.

Set Implicit Arguments.

(** ** Strings *)

Definition jsstring := list N.

(** An ASCII literal as a sequence of code units. *)
Definition lit (s : string) : jsstring :=
  map N_of_ascii (list_ascii_of_string s).

Definition chr (a : ascii) : N := N_of_ascii a.

Fixpoint jsstring_eqb (a b : jsstring) : bool :=
  match a, b with
  | [], [] => true
  | x :: a', y :: b' => N.eqb x y && jsstring_eqb a' b'
  | _, _ => false
  end.

Fixpoint startsWith (s p : jsstring) : bool :=
  match p, s with
  | [], _ => true
  | c :: p', d :: s' => N.eqb c d && startsWith s' p'
  | _ :: _, [] => false
  end.

(** [s.includes(p)] *)
Fixpoint includes (s p : jsstring) : bool :=
  startsWith s p ||
  match s with
  | [] => false
  | _ :: s' => includes s' p
  end.

(** WhiteSpace and LineTerminator code units: what [\s] matches and what
    [trim] strips. *)
Definition isLineTerminator (c : N) : bool :=
  N.eqb c 0x0A || N.eqb c 0x0D || N.eqb c 0x2028 || N.eqb c 0x2029.

Definition isWhiteSpace (c : N) : bool :=
  N.eqb c 0x09 || N.eqb c 0x0B || N.eqb c 0x0C || N.eqb c 0x20 ||
  N.eqb c 0xA0 || N.eqb c 0x1680 || (N.leb 0x2000 c && N.leb c 0x200A) ||
  N.eqb c 0x202F || N.eqb c 0x205F || N.eqb c 0x3000 || N.eqb c 0xFEFF.

Definition isSpace (c : N) : bool := isWhiteSpace c || isLineTerminator c.

Fixpoint trimStart (s : jsstring) : jsstring :=
  match s with
  | c :: s' => if isSpace c then trimStart s' else s
  | [] => []
  end.

Definition trimEnd (s : jsstring) : jsstring := rev (trimStart (rev s)).

Definition trim (s : jsstring) : jsstring := trimEnd (trimStart s).

(** [s.replace(/pat/g, repl)] for a pattern that is a non-empty literal
    sequence of code units: leftmost, non-overlapping occurrences.  [skip]
    counts the code units of the current occurrence still to be dropped. *)
Fixpoint replaceAll_from (pat repl : jsstring) (skip : nat) (s : jsstring)
  : jsstring :=
  match s with
  | [] => []
  | c :: s' =>
      match skip with
      | S k => replaceAll_from pat repl k s'
      | O =>
          if startsWith s pat
          then repl ++ replaceAll_from pat repl (List.length pat - 1) s'
          else c :: replaceAll_from pat repl 0 s'
      end
  end.

Definition replaceAll (pat repl s : jsstring) : jsstring :=
  replaceAll_from pat repl 0 s.

(** ** Values *)

(** A number as the decimal literal [JSON.parse] read it:
    (-1)^[num_neg] * [num_digits] * 10^[num_exp], with the digits of the
    integer and fraction parts run together. *)
Record jsnum := { num_neg : bool; num_digits : N; num_exp : Z }.

(** The literal rounds to the double 0 exactly when its digits are all
    zero or its value is at most 2^-1075, half of the smallest subnormal
    (ties go to the even neighbour, which is 0). *)
Definition num_is_zero (n : jsnum) : bool :=
  N.eqb (num_digits n) 0 ||
  (Z.ltb (num_exp n) 0 &&
   Z.leb (Z.of_N (num_digits n) * 2 ^ 1075) (10 ^ (- num_exp n))).

Unset Elimination Schemes.
Inductive jsval :=
| VUndefined
| VNull
| VBool (b : bool)
| VNum (n : jsnum)
| VStr (s : jsstring)
| VArr (l : list jsval)
| VObj (props : list (jsstring * jsval)).
Set Elimination Schemes.

(** ToBoolean *)
Definition truthy (v : jsval) : bool :=
  match v with
  | VUndefined | VNull => false
  | VBool b => b
  | VNum n => negb (num_is_zero n)
  | VStr s => negb (Nat.eqb (List.length s) 0)
  | VArr _ | VObj _ => true
  end.

(** [a || b] *)
Definition js_or (a b : jsval) : jsval := if truthy a then a else b.

Inductive jserror :=
| TypeError
| SyntaxError
| NetworkError
| Error (message : jsstring).

(** What running a piece of code yields: a value, a thrown error, or no
    answer within the step budget. *)
Inductive outcome (A : Type) :=
| Done (a : A)
| Throw (e : jserror)
| OutOfFuel.

Arguments Done {A} a.
Arguments Throw {A} e.
Arguments OutOfFuel {A}.

Definition bind {A B} (c : outcome A) (f : A -> outcome B) : outcome B :=
  match c with
  | Done a => f a
  | Throw e => Throw e
  | OutOfFuel => OutOfFuel
  end.

Notation "x <- c ;; k" := (bind c (fun x => k))
  (at level 61, c at next level, right associativity).

(** [try { c } catch (e) { h e }] *)
Definition try_catch {A} (c : outcome A) (h : jserror -> outcome A)
  : outcome A :=
  match c with
  | Throw e => h e
  | _ => c
  end.

(** Own data property of a parsed object: with a repeated key the last
    occurrence in the text wins. *)
Fixpoint lookup_prop (k : jsstring) (props : list (jsstring * jsval))
  : jsval :=
  match props with
  | [] => VUndefined
  | (k', v) :: rest =>
      match lookup_prop k rest with
      | VUndefined => if jsstring_eqb k k' then v else VUndefined
      | later => later
      end
  end.

(** [v.k] where [k] is none of the names the prototypes define ([length],
    indices, methods): only plain objects carry it; reading it off [null] or
    [undefined] throws. *)
Definition get (v : jsval) (k : jsstring) : outcome jsval :=
  match v with
  | VUndefined | VNull => Throw TypeError
  | VObj props => Done (lookup_prop k props)
  | _ => Done VUndefined
  end.

(** [v?.k] *)
Definition get_opt (v : jsval) (k : jsstring) : outcome jsval :=
  match v with
  | VUndefined | VNull => Done VUndefined
  | _ => get v k
  end.

(** A call [v.m(...)] of a string method: a [TypeError] unless [v] is a
    string (no value [JSON.parse] builds has a callable property). *)
Definition on_string {A} (v : jsval) (m : jsstring -> A) : outcome A :=
  match v with
  | VStr s => Done (m s)
  | _ => Throw TypeError
  end.

(** ** Regular expressions *)

(** The fragment of the pattern language the source uses.  [Chr p] is one
    code unit in the class [p]; [Group] is capture group 1; [Eos] is [$]
    without the [m] flag.  [r+] is [Seq r (Star true r)] and [r?] is
    [Alt r Eps]. *)
Inductive regex :=
| Eps
| Chr (p : N -> bool)
| Seq (a b : regex)
| Alt (a b : regex)
| Star (greedy : bool) (a : regex)
| Group (a : regex)
| Eos.

(** A matcher state: the index reached, the input from there on and the
    current value of capture group 1. *)
Record mstate := { pos : nat; rest : jsstring; cap : jsval }.

(** The iterations of a quantifier over [body], at most [n] more of them:
    greedy tries one more iteration before leaving, lazy tries leaving
    first.  An iteration that consumes nothing is not continued. *)
Fixpoint star_iter (greedy : bool)
  (body : mstate -> (mstate -> option mstate) -> option mstate)
  (k : mstate -> option mstate) (n : nat) (st : mstate) {struct n}
  : option mstate :=
  match n with
  | O => k st
  | S n' =>
      let again st' :=
        if Nat.ltb (pos st) (pos st') then star_iter greedy body k n' st'
        else None in
      if greedy
      then match body st again with
           | Some res => Some res
           | None => k st
           end
      else match k st with
           | Some res => Some res
           | None => body st again
           end
  end.

(** Backtracking matcher in continuation-passing style: [rmatch r st k]
    tries the ways [r] can match at [st] in priority order and answers with
    the first one the continuation [k] accepts.  Every iteration of a
    quantifier consumes input, so the input left bounds their number. *)
Fixpoint rmatch (r : regex) (st : mstate) (k : mstate -> option mstate)
  {struct r} : option mstate :=
  match r with
  | Eps => k st
  | Chr p =>
      match rest st with
      | c :: s' =>
          if p c then k {| pos := S (pos st); rest := s'; cap := cap st |}
          else None
      | [] => None
      end
  | Seq a b => rmatch a st (fun st' => rmatch b st' k)
  | Alt a b =>
      match rmatch a st k with
      | Some res => Some res
      | None => rmatch b st k
      end
  | Star greedy a =>
      star_iter greedy (rmatch a) k (List.length (rest st)) st
  | Group a =>
      rmatch a st (fun st' =>
        k {| pos := pos st'; rest := rest st';
             cap := VStr (firstn (pos st' - pos st) (rest st)) |})
  | Eos =>
      match rest st with
      | [] => k st
      | _ :: _ => None
      end
  end.

(** The result array of a successful match: [index], the end of the
    matched text and element [1]. *)
Record MatchResult := { index : nat; endIndex : nat; group1 : jsval }.

(** Leftmost match of [r] in [s], where [s] starts at index [i] of the
    subject. *)
Fixpoint search (r : regex) (i : nat) (s : jsstring) {struct s}
  : option MatchResult :=
  match rmatch r {| pos := i; rest := s; cap := VUndefined |} Some with
  | Some st' =>
      Some {| index := i; endIndex := pos st'; group1 := cap st' |}
  | None =>
      match s with
      | [] => None
      | _ :: s' => search r (S i) s'
      end
  end.

(** A RegExp object: its pattern, its [g] flag and its mutable
    [lastIndex]. *)
Record RegExp := { source : regex; global : bool; lastIndex : nat }.

(** Evaluating a regular expression literal creates a fresh object. *)
Definition RegExp_literal (r : regex) (g : bool) : RegExp :=
  {| source := r; global := g; lastIndex := 0 |}.

Definition set_lastIndex (R : RegExp) (i : nat) : RegExp :=
  {| source := source R; global := global R; lastIndex := i |}.

(** [R.exec(S)]: the result and the object afterwards.  Without the [g]
    flag the search always starts at 0 and [lastIndex] is left alone. *)
Definition RegExp_exec (R : RegExp) (S : jsstring)
  : option MatchResult * RegExp :=
  let start := if global R then lastIndex R else 0 in
  if Nat.ltb (List.length S) start
  then (None, if global R then set_lastIndex R 0 else R)
  else
    match search (source R) start (skipn start S) with
    | Some m => (Some m, if global R then set_lastIndex R (endIndex m) else R)
    | None => (None, if global R then set_lastIndex R 0 else R)
    end.

(** [S.match(/r/)] with a literal without the [g] flag. *)
Definition String_match (S : jsstring) (r : regex) : option MatchResult :=
  fst (RegExp_exec (RegExp_literal r false) S).

(** [S.replace(/r/, "")] with a literal without the [g] flag: the first
    match is cut out. *)
Definition String_remove_first (S : jsstring) (r : regex) : jsstring :=
  match String_match S r with
  | Some m => firstn (index m) S ++ skipn (endIndex m) S
  | None => S
  end.

(** [m[1]] *)
Definition at1 (m : MatchResult) : jsval := group1 m.

(** [a || b] on match results ([null] is the only falsy one). *)
Definition orElse {A} (a b : option A) : option A :=
  match a with
  | Some _ => a
  | None => b
  end.

(** [st'] is [st] further along the same input. *)
Definition consumed (st st' : mstate) : Prop :=
  pos st <= pos st' /\
  pos st' + List.length (rest st') = pos st + List.length (rest st).

(** Patterns that cannot match the empty string. *)
Fixpoint nonempty (r : regex) : bool :=
  match r with
  | Chr _ => true
  | Seq a b => nonempty a || nonempty b
  | Alt a b => nonempty a && nonempty b
  | Group a => nonempty a
  | Eps | Star _ _ | Eos => false
  end.

(** Patterns in which capture group 1 takes part in every match. *)
Fixpoint has_group (r : regex) : bool :=
  match r with
  | Group _ => true
  | Seq a b => has_group a || has_group b
  | Eps | Chr _ | Alt _ _ | Star _ _ | Eos => false
  end.

Definition is_string (v : jsval) : Prop := exists s, v = VStr s.

(** A pattern object no [exec] has touched yet. *)
Definition fresh (R : RegExp) : Prop := lastIndex R = 0.

(** *** Pattern constructors *)

Local Open Scope string_scope.

(** Canonicalisation under the [i] flag (without [u]), as far as a
    comparison with an ASCII pattern character goes: ASCII letters fold to
    upper case, and a code unit outside ASCII never folds into ASCII. *)
Definition canonicalize (c : N) : N :=
  if N.leb 0x61 c && N.leb c 0x7A then (c - 0x20)%N else c.

(** A pattern character under the [i] flag. *)
Definition ci (a : ascii) : N -> bool :=
  fun c => N.eqb (canonicalize c) (canonicalize (chr a)).

Definition one_of (s : string) : N -> bool :=
  fun c => existsb (N.eqb c) (lit s).

(** A negated class: none of the characters of [s], and not in [others]. *)
Definition none_of (s : string) (others : N -> bool) : N -> bool :=
  fun c => negb (one_of s c) && negb (others c).

Definition nothing : N -> bool := fun _ => false.
Definition anything : N -> bool := fun _ => true.

(** The double quote (34) or the single quote (39). *)
Definition isQuote (c : N) : bool := N.eqb c 34 || N.eqb c 39.
Definition isDoubleQuote (c : N) : bool := N.eqb c 34.

(** The dot without the [s] flag. *)
Definition dot : N -> bool := fun c => negb (isLineTerminator c).

Definition cat (rs : list regex) : regex := fold_right Seq Eps rs.

(** A literal run of pattern characters under the [i] flag. *)
Definition word (s : string) : regex :=
  cat (map (fun a => Chr (ci a)) (list_ascii_of_string s)).

Definition plus (r : regex) : regex := Seq r (Star true r).
Definition opt (r : regex) : regex := Alt r Eps.
Definition star (r : regex) : regex := Star true r.
Definition lazy_star (r : regex) : regex := Star false r.

Definition quote : regex := Chr isQuote.
Definition dquote : regex := Chr isDoubleQuote.

(** *** The patterns of [extractVideoInfoFromHtml]

    Every literal of the function carries the [i] flag.  Comments give the
    source text of each pattern, with Q for the class of the two quote
    characters and D for the double quote. *)

(** <title[^>]*>([^<]+)<\/title> *)
Definition re_title : regex :=
  cat [word "<title"; star (Chr (none_of ">" nothing)); word ">";
       Group (plus (Chr (none_of "<" nothing))); word "</title>"].

(** \s*[-|]\s*快手.*$ : the two ideographs are U+5FEB and U+624B *)
Definition re_title_suffix : regex :=
  cat [star (Chr isSpace); Chr (one_of "-|"); star (Chr isSpace);
       Chr (N.eqb 0x5FEB); Chr (N.eqb 0x624B); star (Chr dot); Eos].

(** property=Q NAME Q[^>]*content=Q([^Q]+)Q *)
Definition re_og_property_first (name : regex) : regex :=
  cat [word "property="; quote; name; quote;
       star (Chr (none_of ">" nothing)); word "content="; quote;
       Group (plus (Chr (none_of "" isQuote))); quote].

(** content=Q([^Q]+)Q[^>]*property=Q NAME Q *)
Definition re_og_content_first (name : regex) : regex :=
  cat [word "content="; quote; Group (plus (Chr (none_of "" isQuote)));
       quote; star (Chr (none_of ">" nothing)); word "property="; quote;
       name; quote].

Definition og_title : regex := word "og:title".
Definition og_image : regex := word "og:image".
(** og:video(?::url)? *)
Definition og_video : regex := Seq (word "og:video") (opt (word ":url")).

(** by\s+@?([^<D\n]+) *)
Definition re_author_by : regex :=
  cat [word "by"; plus (Chr isSpace); opt (word "@");
       Group (plus (Chr (none_of "<"
                           (fun c => isDoubleQuote c || N.eqb c 10))))].

(** D KEY D[:\s]*D([^D]+)D *)
Definition re_json_string_key (key : string) : regex :=
  cat [dquote; word key; dquote;
       star (Chr (fun c => N.eqb c (chr ":") || isSpace c)); dquote;
       Group (plus (Chr (none_of "" isDoubleQuote))); dquote].

(** <script[^>]*type=Q application\/(?:ld\+)?json Q[^>]*>([\s\S]*?)<\/script> *)
Definition re_json_script : regex :=
  cat [word "<script"; star (Chr (none_of ">" nothing)); word "type=";
       quote; word "application/"; opt (word "ld+"); word "json"; quote;
       star (Chr (none_of ">" nothing)); word ">";
       Group (lazy_star (Chr anything)); word "</script>"].

(** [^Q\s] *)
Definition url_char : N -> bool := none_of "" (fun c => isQuote c || isSpace c).

(** Q(https?:\/\/[^Q\s]+\.EXT[^Q\s]*?)Q *)
Definition re_quoted_url (ext : string) : regex :=
  cat [quote;
       Group (cat [word "http"; opt (word "s"); word "://";
                   plus (Chr url_char); word "."; word ext;
                   lazy_star (Chr url_char)]);
       quote].

(** Q(https?:\/\/[^Q\s]*video[^Q\s]+\.mp4[^Q\s]*?)Q *)
Definition re_quoted_video_url : regex :=
  cat [quote;
       Group (cat [word "http"; opt (word "s"); word "://";
                   star (Chr url_char); word "video"; plus (Chr url_char);
                   word ".mp4"; lazy_star (Chr url_char)]);
       quote].

(** KEY Q?\s*[:=]\s*Q([^Q]+)Q *)
Definition re_key (key : string) : regex :=
  cat [word key; opt quote; star (Chr isSpace); Chr (one_of ":=");
       star (Chr isSpace); quote; Group (plus (Chr (none_of "" isQuote)));
       quote].

(** Q(https?:\/\/[^Q\s]+(?:cover|poster|thumb)[^Q\s]*\.(?:jpg|jpeg|png|webp)[^Q\s]*?)Q *)
Definition re_quoted_image_url : regex :=
  cat [quote;
       Group (cat [word "http"; opt (word "s"); word "://";
                   plus (Chr url_char);
                   Alt (word "cover") (Alt (word "poster") (word "thumb"));
                   star (Chr url_char); word ".";
                   Alt (word "jpg")
                     (Alt (word "jpeg") (Alt (word "png") (word "webp")));
                   lazy_star (Chr url_char)]);
       quote].

Local Open Scope list_scope.

(** ** JSON.parse *)

Module JSON.

Definition isWs (c : N) : bool :=
  N.eqb c 0x20 || N.eqb c 0x09 || N.eqb c 0x0A || N.eqb c 0x0D.

Fixpoint skip_ws (s : jsstring) : jsstring :=
  match s with
  | c :: s' => if isWs c then skip_ws s' else s
  | [] => []
  end.

Definition isDigit (c : N) : bool := N.leb 0x30 c && N.leb c 0x39.

(** The longest run of digits at the head of [s], accumulated onto [acc];
    also how many digits were read. *)
Fixpoint read_digits (s : jsstring) (acc : N) (count : nat)
  : N * nat * jsstring :=
  match s with
  | c :: s' =>
      if isDigit c then read_digits s' (acc * 10 + (c - 0x30))%N (S count)
      else (acc, count, s)
  | [] => (acc, count, [])
  end.

Definition hex_value (c : N) : option N :=
  if isDigit c then Some (c - 0x30)%N
  else if N.leb 0x41 c && N.leb c 0x46 then Some (c - 0x41 + 10)%N
  else if N.leb 0x61 c && N.leb c 0x66 then Some (c - 0x61 + 10)%N
  else None.

Definition hex4 (a b c d : N) : option N :=
  match hex_value a, hex_value b, hex_value c, hex_value d with
  | Some x, Some y, Some z, Some w => Some (((x * 16 + y) * 16 + z) * 16 + w)%N
  | _, _, _, _ => None
  end.

(** One-character escapes after a backslash. *)
Definition simple_escape (e : N) : option N :=
  if N.eqb e 34 then Some 34%N                 (* quotation mark *)
  else if N.eqb e 92 then Some 92%N            (* reverse solidus *)
  else if N.eqb e 47 then Some 47%N            (* solidus *)
  else if N.eqb e (chr "b") then Some 8%N
  else if N.eqb e (chr "f") then Some 12%N
  else if N.eqb e (chr "n") then Some 10%N
  else if N.eqb e (chr "r") then Some 13%N
  else if N.eqb e (chr "t") then Some 9%N
  else None.

(** The characters of a string up to its closing quotation mark, and the
    text after it. *)
Fixpoint parse_string_body (s : jsstring) : option (jsstring * jsstring) :=
  match s with
  | [] => None
  | c :: s' =>
      if N.eqb c 34 then Some ([], s')
      else if N.eqb c 92 then
        match s' with
        | [] => None
        | e :: s'' =>
            if N.eqb e (chr "u") then
              match s'' with
              | h1 :: h2 :: h3 :: h4 :: s4 =>
                  match hex4 h1 h2 h3 h4, parse_string_body s4 with
                  | Some u, Some (body, after) => Some (u :: body, after)
                  | _, _ => None
                  end
              | _ => None
              end
            else
              match simple_escape e, parse_string_body s'' with
              | Some u, Some (body, after) => Some (u :: body, after)
              | _, _ => None
              end
        end
      else if N.ltb c 0x20 then None
      else
        match parse_string_body s' with
        | Some (body, after) => Some (c :: body, after)
        | None => None
        end
  end.

(** A number: an optional minus sign; 0 or a run of digits not starting
    with 0; an optional fraction (a dot and digits); an optional exponent
    (e or E, an optional sign, digits). *)
Definition parse_number (s : jsstring) : option (jsnum * jsstring) :=
  let '(neg, s1) :=
    match s with
    | c :: t => if N.eqb c (chr "-") then (true, t) else (false, s)
    | [] => (false, s)
    end in
  let int_part :=
    match s1 with
    | c :: t =>
        if N.eqb c 0x30 then Some (0%N, t)
        else if isDigit c then
          let '(n, _, t') := read_digits s1 0 0 in Some (n, t')
        else None
    | [] => None
    end in
  match int_part with
  | None => None
  | Some (n, s2) =>
      let frac_part :=
        match s2 with
        | c :: t =>
            if N.eqb c (chr ".") then
              let '(n', count, t') := read_digits t n 0 in
              if Nat.eqb count 0 then None else Some (n', count, t')
            else Some (n, 0, s2)
        | [] => Some (n, 0, s2)
        end in
      match frac_part with
      | None => None
      | Some (digits, scale, s3) =>
          let exp_part :=
            match s3 with
            | c :: t =>
                if N.eqb c (chr "e") || N.eqb c (chr "E") then
                  let '(minus, t1) :=
                    match t with
                    | sg :: t' =>
                        if N.eqb sg (chr "-") then (true, t')
                        else if N.eqb sg (chr "+") then (false, t')
                        else (false, t)
                    | [] => (false, t)
                    end in
                  let '(e, count, t2) := read_digits t1 0 0 in
                  if Nat.eqb count 0 then None
                  else Some ((if minus then - Z.of_N e else Z.of_N e)%Z, t2)
                else Some (0%Z, s3)
            | [] => Some (0%Z, s3)
            end in
          match exp_part with
          | None => None
          | Some (e, s4) =>
              Some ({| num_neg := neg; num_digits := digits;
                       num_exp := (e - Z.of_nat scale)%Z |}, s4)
          end
      end
  end.

(** Recursive descent over values, array elements and object members.
    Every call consumes a character either itself or in the call it makes
    next, so twice the length of the text is budget enough. *)
Fixpoint parse_value (fuel : nat) (s : jsstring) {struct fuel}
  : option (jsval * jsstring) :=
  match fuel with
  | O => None
  | S fuel' =>
      match skip_ws s with
      | [] => None
      | c :: t =>
          if N.eqb c (chr "{") then
            match skip_ws t with
            | d :: t' =>
                if N.eqb d (chr "}") then Some (VObj [], t')
                else parse_members fuel' (d :: t') []
            | [] => None
            end
          else if N.eqb c (chr "[") then
            match skip_ws t with
            | d :: t' =>
                if N.eqb d (chr "]") then Some (VArr [], t')
                else parse_elements fuel' (d :: t') []
            | [] => None
            end
          else if N.eqb c 34 then
            match parse_string_body t with
            | Some (body, after) => Some (VStr body, after)
            | None => None
            end
          else if startsWith (c :: t) (lit "true") then
            Some (VBool true, skipn 4 (c :: t))
          else if startsWith (c :: t) (lit "false") then
            Some (VBool false, skipn 5 (c :: t))
          else if startsWith (c :: t) (lit "null") then
            Some (VNull, skipn 4 (c :: t))
          else
            match parse_number (c :: t) with
            | Some (n, after) => Some (VNum n, after)
            | None => None
            end
      end
  end

with parse_elements (fuel : nat) (s : jsstring) (acc : list jsval)
  {struct fuel} : option (jsval * jsstring) :=
  match fuel with
  | O => None
  | S fuel' =>
      match parse_value fuel' s with
      | None => None
      | Some (v, after) =>
          match skip_ws after with
          | c :: t =>
              if N.eqb c (chr ",") then parse_elements fuel' t (acc ++ [v])
              else if N.eqb c (chr "]") then Some (VArr (acc ++ [v]), t)
              else None
          | [] => None
          end
      end
  end

with parse_members (fuel : nat) (s : jsstring)
  (acc : list (jsstring * jsval)) {struct fuel}
  : option (jsval * jsstring) :=
  match fuel with
  | O => None
  | S fuel' =>
      match skip_ws s with
      | c :: t =>
          if N.eqb c 34 then
            match parse_string_body t with
            | None => None
            | Some (key, after_key) =>
                match skip_ws after_key with
                | d :: t' =>
                    if N.eqb d (chr ":") then
                      match parse_value fuel' t' with
                      | None => None
                      | Some (v, after) =>
                          match skip_ws after with
                          | e :: t'' =>
                              if N.eqb e (chr ",")
                              then parse_members fuel' t'' (acc ++ [(key, v)])
                              else if N.eqb e (chr "}")
                              then Some (VObj (acc ++ [(key, v)]), t'')
                              else None
                          | [] => None
                          end
                      end
                    else None
                | [] => None
                end
            end
          else None
      | [] => None
      end
  end.

(** [JSON.parse(text)]: one value with nothing but white space around it,
    or a [SyntaxError]. *)
Definition parse (text : jsstring) : outcome jsval :=
  match parse_value (2 * List.length text + 2) text with
  | Some (v, after) =>
      match skip_ws after with
      | [] => Done v
      | _ :: _ => Throw SyntaxError
      end
  | None => Throw SyntaxError
  end.

End JSON.

(** ** The extraction cascade *)

Record VideoInfo := {
  title : jsval;
  author : jsval;
  thumbnail : jsval;
  videoUrl : jsval;
  audioUrl : jsval;
  quality : jsstring;
  fileSize : jsstring
}.

(** The four locals the cascade fills in turn. *)
Record vars := {
  v_title : jsval;
  v_author : jsval;
  v_thumbnail : jsval;
  v_videoUrl : jsval
}.

(** [JSON.parse(x)] of a match element: the argument is converted to a
    string first, and the text [undefined] is not JSON. *)
Definition JSON_parse (x : jsval) : outcome jsval :=
  match x with
  | VStr s => JSON.parse s
  | _ => Throw SyntaxError
  end.

(** The title element, cut before a trailing platform name and trimmed. *)
Definition title_from_tag (html : jsstring) (title : jsval) : outcome jsval :=
  match String_match html re_title with
  | Some titleMatch =>
      on_string (at1 titleMatch)
        (fun s => VStr (trim (String_remove_first s re_title_suffix)))
  | None => Done title
  end.

(** An Open Graph tag, in either attribute order. *)
Definition og_match (html : jsstring) (name : regex) : option MatchResult :=
  orElse (String_match html (re_og_property_first name))
         (String_match html (re_og_content_first name)).

Definition title_from_og (html : jsstring) (title : jsval) : outcome jsval :=
  match og_match html og_title with
  | Some ogTitleMatch => on_string (at1 ogTitleMatch) (fun s => VStr (trim s))
  | None => Done title
  end.

Definition thumbnail_from_og (html : jsstring) (thumbnail : jsval) : jsval :=
  match og_match html og_image with
  | Some ogImageMatch => at1 ogImageMatch
  | None => thumbnail
  end.

Definition videoUrl_from_og (html : jsstring) (videoUrl : jsval) : jsval :=
  match og_match html og_video with
  | Some ogVideoMatch => at1 ogVideoMatch
  | None => videoUrl
  end.

Definition author_match (html : jsstring) : option MatchResult :=
  orElse (String_match html re_author_by)
    (orElse (String_match html (re_json_string_key "author"))
       (orElse (String_match html (re_json_string_key "userName"))
          (String_match html (re_json_string_key "name")))).

Definition author_from_text (html : jsstring) (author : jsval)
  : outcome jsval :=
  match author_match html with
  | Some authorMatch => on_string (at1 authorMatch) (fun s => VStr (trim s))
  | None => Done author
  end.

(** The body of the inner [try] for one script block.  Every read that can
    throw (the parse, and the first property read when the block is the
    literal null) comes before the first assignment, so a throw leaves the
    locals as they were. *)
Definition apply_json_block (text : jsval) (v : vars) : outcome vars :=
  json <- JSON_parse text ;;
  contentUrl <- get json (lit "contentUrl") ;;
  let videoUrl :=
    if truthy contentUrl then js_or (v_videoUrl v) contentUrl
    else v_videoUrl v in
  thumbnailUrl <- get json (lit "thumbnailUrl") ;;
  let thumbnail :=
    if truthy thumbnailUrl then js_or (v_thumbnail v) thumbnailUrl
    else v_thumbnail v in
  name <- get json (lit "name") ;;
  let title := if truthy name then js_or (v_title v) name else v_title v in
  json_author <- get json (lit "author") ;;
  author_name <- get_opt json_author (lit "name") ;;
  let author :=
    if truthy author_name then js_or (v_author v) author_name
    else v_author v in
  Done {| v_title := title; v_author := author; v_thumbnail := thumbnail;
          v_videoUrl := videoUrl |}.

(** [while ((jsonMatch = jsonScriptPattern.exec(html)) !== null)
      { try { ... } catch (e) { } }] *)
Fixpoint scan_json_scripts (fuel : nat) (jsonScriptPattern : RegExp)
  (html : jsstring) (v : vars) : outcome vars :=
  match fuel with
  | O => OutOfFuel
  | S fuel' =>
      match RegExp_exec jsonScriptPattern html with
      | (None, _) => Done v
      | (Some jsonMatch, jsonScriptPattern') =>
          v' <- try_catch (apply_json_block (at1 jsonMatch) v)
                  (fun _ => Done v) ;;
          scan_json_scripts fuel' jsonScriptPattern' html v'
      end
  end.

(** The loop shape shared by the audio, manifest and thumbnail scans:
    [for (const pattern of patterns) {
       while ((match = pattern.exec(html)) !== null) { x = match[1]; break; }
       if (x) break; }].
    The unconditional [break] makes the inner loop run its body at most
    once. *)
Fixpoint first_capture (patterns : list RegExp) (html : jsstring)
  (x : jsval) : jsval :=
  match patterns with
  | [] => x
  | pattern :: patterns' =>
      let x' :=
        match fst (RegExp_exec pattern html) with
        | Some m => at1 m
        | None => x
        end in
      if truthy x' then x' else first_capture patterns' html x'
  end.

(** The arrays of pattern objects.  The function builds them anew on each
    call, so every scan starts from objects whose [lastIndex] is 0. *)
Definition audioUrlPatterns : list RegExp :=
  [RegExp_literal (re_quoted_url "m4a") true;
   RegExp_literal (re_quoted_url "mp3") true;
   RegExp_literal (re_quoted_url "aac") true;
   RegExp_literal (re_key "audioUrl") false;
   RegExp_literal (re_key "soundTrack") false].

Definition videoUrlPatterns : list RegExp :=
  [RegExp_literal (re_quoted_url "mp4") true;
   RegExp_literal re_quoted_video_url true;
   RegExp_literal (re_key "videoUrl") false;
   RegExp_literal (re_key "playUrl") false;
   RegExp_literal (re_key "srcNoMark") false].

Definition m3u8Patterns : list RegExp :=
  [RegExp_literal (re_quoted_url "m3u8") true;
   RegExp_literal (re_key "hlsPlayUrl") false].

Definition imgPatterns : list RegExp :=
  [RegExp_literal re_quoted_image_url true;
   RegExp_literal (re_key "coverUrl") false;
   RegExp_literal (re_key "posterUrl") false].

(** [foundUrl && foundUrl.includes(".mp4") && !foundUrl.includes("poster")
     && !foundUrl.includes("cover")] *)
Definition acceptable (foundUrl : jsval) : bool :=
  truthy foundUrl &&
  match foundUrl with
  | VStr s =>
      includes s (lit ".mp4") && negb (includes s (lit "poster"))
      && negb (includes s (lit "cover"))
  | _ => false
  end.

(** [while ((match = pattern.exec(html)) !== null) {
       const foundUrl = match[1];
       if (...) { videoUrl = foundUrl; break; } }] *)
Fixpoint video_while (fuel : nat) (pattern : RegExp) (html : jsstring)
  (videoUrl : jsval) : outcome jsval :=
  match fuel with
  | O => OutOfFuel
  | S fuel' =>
      match RegExp_exec pattern html with
      | (None, _) => Done videoUrl
      | (Some m, pattern') =>
          let foundUrl := at1 m in
          if acceptable foundUrl then Done foundUrl
          else video_while fuel' pattern' html videoUrl
      end
  end.

(** [for (const pattern of videoUrlPatterns)
      { while ...; if (videoUrl) break; }] *)
Fixpoint video_for (fuel : nat) (patterns : list RegExp) (html : jsstring)
  (videoUrl : jsval) : outcome jsval :=
  match patterns with
  | [] => Done videoUrl
  | pattern :: patterns' =>
      videoUrl' <- video_while fuel pattern html videoUrl ;;
      if truthy videoUrl' then Done videoUrl'
      else video_for fuel patterns' html videoUrl'
  end.

Definition backslash : N := 92.
Definition u002F : jsstring := lit "u002F".

(** The two chained replacements of the post-processing: every occurrence
    of the six characters backslash u 0 0 2 F becomes a slash, then every
    backslash left is deleted. *)
Definition unescape (s : jsstring) : jsstring :=
  replaceAll [backslash] [] (replaceAll (backslash :: u002F) (lit "/") s).

(** [if (x) { x = x.replace(...).replace(...); }] *)
Definition unescape_if_set (x : jsval) : outcome jsval :=
  if truthy x then on_string x (fun s => VStr (unescape s)) else Done x.

(** The cascade up to the post-processing: the four locals and
    [audioUrl]. *)
Definition cascade (fuel : nat) (html : jsstring) : outcome (vars * jsval) :=
  let title := VStr [] in
  let author := VStr [] in
  let thumbnail := VStr [] in
  let videoUrl := VStr [] in
  title <- title_from_tag html title ;;
  title <- title_from_og html title ;;
  let thumbnail := thumbnail_from_og html thumbnail in
  let videoUrl := videoUrl_from_og html videoUrl in
  author <- author_from_text html author ;;
  v <- scan_json_scripts fuel (RegExp_literal re_json_script true) html
         {| v_title := title; v_author := author; v_thumbnail := thumbnail;
            v_videoUrl := videoUrl |} ;;
  let audioUrl := first_capture audioUrlPatterns html (VStr []) in
  videoUrl <- (if negb (truthy (v_videoUrl v))
               then video_for fuel videoUrlPatterns html (v_videoUrl v)
               else Done (v_videoUrl v)) ;;
  let videoUrl :=
    if negb (truthy videoUrl) then first_capture m3u8Patterns html videoUrl
    else videoUrl in
  let thumbnail :=
    if negb (truthy (v_thumbnail v))
    then first_capture imgPatterns html (v_thumbnail v)
    else v_thumbnail v in
  Done ({| v_title := v_title v; v_author := v_author v;
           v_thumbnail := thumbnail; v_videoUrl := videoUrl |}, audioUrl).

(** Post-processing and the terminal rule. *)
Definition finish (v : vars) (audioUrl : jsval) : outcome (option VideoInfo) :=
  videoUrl <- unescape_if_set (v_videoUrl v) ;;
  thumbnail <- unescape_if_set (v_thumbnail v) ;;
  if negb (truthy videoUrl) then Done None
  else
    audioUrl <- unescape_if_set audioUrl ;;
    Done (Some {| title := js_or (v_title v) (VStr (lit "Kuaishou Video"));
                  author := js_or (v_author v) (VStr (lit "Unknown"));
                  thumbnail := thumbnail;
                  videoUrl := videoUrl;
                  audioUrl := js_or audioUrl VUndefined;
                  quality := lit "720p";
                  fileSize := [] |}).

(** The body of the outer [try]. *)
Definition extract_try (fuel : nat) (html : jsstring)
  : outcome (option VideoInfo) :=
  r <- cascade fuel html ;;
  finish (fst r) (snd r).

(** What [console.error] has printed: a message and the error value. *)
Definition console := list (jsstring * jserror).

(** [extractVideoInfoFromHtml(html, originalUrl)]: the result ([None] is
    null) and the console afterwards. *)
Definition extractVideoInfoFromHtml (fuel : nat) (html originalUrl : jsstring)
  (log : console) : outcome (option VideoInfo) * console :=
  match extract_try fuel html with
  | Throw error =>
      (Done None, log ++ [(lit "Error extracting video info:", error)])
  | result => (result, log)
  end.

(** The page holds, under one of the keys of the fallback scan, a value
    the scan rejects. *)
Definition trapped (html : jsstring) : Prop :=
  exists key m,
    In key ["videoUrl"; "playUrl"; "srcNoMark"]%string /\
    String_match html (re_key key) = Some m /\
    acceptable (at1 m) = false.

(** ** Pattern objects in the heap *)

(** The same function with its RegExp objects where the program keeps
    them: in a heap that outlives the call.  A regular expression literal
    makes a new object each time it is evaluated, and [exec] reads and
    writes the [lastIndex] of the object it is called on.  The objects in
    the heap are those [exec] is called on: the script pattern and the
    four arrays.  The literals handed to [match] and [replace] are used
    once, in place: [match] with a pattern without the [g] flag starts at
    0 and [replace] with one with it resets [lastIndex] first, so they are
    kept as in [String_match] and [unescape]. *)
Module Heap.

(** The RegExp objects alive, by address. *)
Definition heap := list RegExp.

(** A computation on the heap that may throw; the heap is kept when it
    does. *)
Definition M (A : Type) := heap -> outcome A * heap.

Definition ret {A} (x : A) : M A := fun h => (Done x, h).

Definition lift {A} (c : outcome A) : M A := fun h => (c, h).

Definition bindM {A B} (c : M A) (k : A -> M B) : M B :=
  fun h =>
    match c h with
    | (Done x, h') => k x h'
    | (Throw e, h') => (Throw e, h')
    | (OutOfFuel, h') => (OutOfFuel, h')
    end.

Notation "x <~ c ;; k" := (bindM c (fun x => k))
  (at level 61, c at next level, right associativity).

(** Evaluating [/r/flags]: a new object at a new address. *)
Definition new_RegExp (R : RegExp) : M nat :=
  fun h => (Done (List.length h), h ++ [R]).

(** Evaluating an array of regular expression literals. *)
Fixpoint new_RegExps (Rs : list RegExp) : M (list nat) :=
  match Rs with
  | [] => ret []
  | R :: Rs' =>
      a <~ new_RegExp R ;;
      l <~ new_RegExps Rs' ;;
      ret (a :: l)
  end.

Fixpoint update (a : nat) (R : RegExp) (h : heap) : heap :=
  match h, a with
  | [], _ => []
  | _ :: h', O => R :: h'
  | R0 :: h', S a' => R0 :: update a' R h'
  end.

(** [pattern.exec(S)] on the object at address [a]. *)
Definition exec (a : nat) (S : jsstring) : M (option MatchResult) :=
  fun h =>
    match nth_error h a with
    | Some R => let (m, R') := RegExp_exec R S in (Done m, update a R' h)
    | None => (Throw TypeError, h)
    end.

Fixpoint scan_json_scripts (fuel : nat) (jsonScriptPattern : nat)
  (html : jsstring) (v : vars) : M vars :=
  match fuel with
  | O => lift OutOfFuel
  | S fuel' =>
      jsonMatch <~ exec jsonScriptPattern html ;;
      match jsonMatch with
      | None => ret v
      | Some jsonMatch =>
          v' <~ lift (try_catch (apply_json_block (at1 jsonMatch) v)
                        (fun _ => Done v)) ;;
          scan_json_scripts fuel' jsonScriptPattern html v'
      end
  end.

Fixpoint first_capture (patterns : list nat) (html : jsstring) (x : jsval)
  : M jsval :=
  match patterns with
  | [] => ret x
  | pattern :: patterns' =>
      m <~ exec pattern html ;;
      let x' :=
        match m with
        | Some m => at1 m
        | None => x
        end in
      if truthy x' then ret x' else first_capture patterns' html x'
  end.

Fixpoint video_while (fuel : nat) (pattern : nat) (html : jsstring)
  (videoUrl : jsval) : M jsval :=
  match fuel with
  | O => lift OutOfFuel
  | S fuel' =>
      m <~ exec pattern html ;;
      match m with
      | None => ret videoUrl
      | Some m =>
          let foundUrl := at1 m in
          if acceptable foundUrl then ret foundUrl
          else video_while fuel' pattern html videoUrl
      end
  end.

Fixpoint video_for (fuel : nat) (patterns : list nat) (html : jsstring)
  (videoUrl : jsval) : M jsval :=
  match patterns with
  | [] => ret videoUrl
  | pattern :: patterns' =>
      videoUrl' <~ video_while fuel pattern html videoUrl ;;
      if truthy videoUrl' then ret videoUrl'
      else video_for fuel patterns' html videoUrl'
  end.

(** The cascade, each pattern object made where the source has its
    literal. *)
Definition cascade (fuel : nat) (html : jsstring) : M (vars * jsval) :=
  let title := VStr [] in
  let author := VStr [] in
  let thumbnail := VStr [] in
  let videoUrl := VStr [] in
  title <~ lift (title_from_tag html title) ;;
  title <~ lift (title_from_og html title) ;;
  let thumbnail := thumbnail_from_og html thumbnail in
  let videoUrl := videoUrl_from_og html videoUrl in
  author <~ lift (author_from_text html author) ;;
  jsonScriptPattern <~ new_RegExp (RegExp_literal re_json_script true) ;;
  v <~ scan_json_scripts fuel jsonScriptPattern html
         {| v_title := title; v_author := author; v_thumbnail := thumbnail;
            v_videoUrl := videoUrl |} ;;
  audioUrlPatterns <~ new_RegExps audioUrlPatterns ;;
  audioUrl <~ first_capture audioUrlPatterns html (VStr []) ;;
  videoUrlPatterns <~ new_RegExps videoUrlPatterns ;;
  videoUrl <~ (if negb (truthy (v_videoUrl v))
               then video_for fuel videoUrlPatterns html (v_videoUrl v)
               else ret (v_videoUrl v)) ;;
  m3u8Patterns <~ new_RegExps m3u8Patterns ;;
  videoUrl <~ (if negb (truthy videoUrl)
               then first_capture m3u8Patterns html videoUrl
               else ret videoUrl) ;;
  imgPatterns <~ new_RegExps imgPatterns ;;
  thumbnail <~ (if negb (truthy (v_thumbnail v))
                then first_capture imgPatterns html (v_thumbnail v)
                else ret (v_thumbnail v)) ;;
  ret ({| v_title := v_title v; v_author := v_author v;
          v_thumbnail := thumbnail; v_videoUrl := videoUrl |}, audioUrl).

Definition extract_try (fuel : nat) (html : jsstring)
  : M (option VideoInfo) :=
  r <~ cascade fuel html ;;
  lift (finish (fst r) (snd r)).

(** [extractVideoInfoFromHtml(html, originalUrl)] run in the heap [h]: the
    result, the console and the heap afterwards. *)
Definition extractVideoInfoFromHtml (fuel : nat) (html originalUrl : jsstring)
  (log : console) (h : heap)
  : outcome (option VideoInfo) * console * heap :=
  match extract_try fuel html h with
  | (Throw error, h') =>
      (Done None, log ++ [(lit "Error extracting video info:", error)], h')
  | (result, h') => (result, log, h')
  end.

End Heap.

(** A page quoting one video URL. *)
Definition html_one_video : jsstring :=
  lit "<a href='https://cdn.example.com/v_123.mp4'>".

(** [h'] is [h] with more objects after it: what was alive in [h] is
    alive in [h'], at the same address and in the same state. *)
Definition extends (h h' : Heap.heap) : Prop :=
  exists created, h' = h ++ created.

(** ** Requests and responses *)

(** The body of a fetched response as its reader delivers it: chunks, then
    the end of the stream or a failed read.  Only bodies that end or fail
    after finitely many reads are values of this type; a body that never
    ends, on which the relay's read loop would not stop, is not. *)
Inductive body_stream :=
| EndOfStream
| Chunk (bytes : list N) (next : body_stream)
| ReadFails.

(** A fetched response.  Header names are lower case, as the Headers
    object keeps them. *)
Record Response := {
  status : Z;
  headers : list (jsstring * jsstring);
  body : option body_stream
}.

(** [response.ok] *)
Definition ok (r : Response) : bool :=
  Z.leb 200 (status r) && Z.leb (status r) 299.

(** [response.headers.get(name)]; [None] is null. *)
Fixpoint Headers_get (hs : list (jsstring * jsstring)) (name : jsstring)
  : option jsstring :=
  match hs with
  | [] => None
  | (k, v) :: hs' => if jsstring_eqb k name then Some v else Headers_get hs' name
  end.

Record Request := {
  req_url : jsstring;
  req_headers : list (jsstring * jsstring);
  req_redirect_manual : bool
}.

Definition USER_AGENTS : list jsstring :=
  [lit "Mozilla/5.0 (iPhone; CPU iPhone OS 17_0 like Mac OS X) AppleWebKit/605.1.15 (KHTML, like Gecko) Version/17.0 Mobile/15E148 Safari/604.1";
   lit "Mozilla/5.0 (Linux; Android 13; SM-G998B) AppleWebKit/537.36 (KHTML, like Gecko) Chrome/120.0.0.0 Mobile Safari/537.36";
   lit "Mozilla/5.0 (Windows NT 10.0; Win64; x64) AppleWebKit/537.36 (KHTML, like Gecko) Chrome/120.0.0.0 Safari/537.36"].

Section Server.

(** The environment: the state of the outside world, the random source
    ([random_below n] is [Math.floor(Math.random() * n)]), the network
    ([None] is a rejected fetch) and URL resolution ([URL_href l b] is
    [new URL(l, b).href], [None] when the constructor throws). *)
Variable World : Type.
Variable random_below : nat -> World -> nat * World.
Variable fetch : Request -> World -> option Response * World.
Variable URL_href : jsstring -> jsstring -> option jsstring.

Definition getRandomUserAgent (w : World) : jsstring * World :=
  let (i, w') := random_below (List.length USER_AGENTS) w in
  (nth i USER_AGENTS (lit "undefined"), w').

Definition getHeaders (referer : jsstring) (w : World)
  : list (jsstring * jsstring) * World :=
  let (ua, w') := getRandomUserAgent w in
  ([(lit "User-Agent", ua);
    (lit "Accept",
     lit "text/html,application/xhtml+xml,application/xml;q=0.9,image/avif,image/webp,image/apng,*/*;q=0.8");
    (lit "Accept-Language", lit "en-US,en;q=0.9,zh-CN;q=0.8,zh;q=0.7");
    (lit "Accept-Encoding", lit "gzip, deflate, br");
    (lit "Referer",
     match referer with
     | [] => lit "https://www.kuaishou.com/"
     | _ :: _ => referer
     end);
    (lit "Origin", lit "https://www.kuaishou.com");
    (lit "Connection", lit "keep-alive");
    (lit "Cache-Control", lit "no-cache");
    (lit "Pragma", lit "no-cache")], w').

(** *** fetchWithRedirects *)

(** What the loop body decides on a response obtained for [currentUrl]:
    [Done (Some u)] is [currentUrl = u; continue], [Done None] is [break],
    and a Location the URL constructor rejects throws. *)
Definition next_url (response : Response) (currentUrl : jsstring)
  : outcome (option jsstring) :=
  if Z.leb 300 (status response) && Z.ltb (status response) 400 then
    match Headers_get (headers response) (lit "location") with
    | Some (c :: l) =>
        let location := c :: l in
        if startsWith location (lit "http") then Done (Some location)
        else
          match URL_href location currentUrl with
          | Some href => Done (Some href)
          | None => Throw TypeError
          end
    | _ => Done None
    end
  else Done None.

(** The [for] loop with [remaining] iterations to go: the value of
    [response] when it exits. *)
Fixpoint redirect_loop (remaining : nat) (currentUrl : jsstring)
  (response : option Response) (w : World)
  : outcome (option Response) * World :=
  match remaining with
  | O => (Done response, w)
  | S remaining' =>
      let (hs, w1) := getHeaders currentUrl w in
      match fetch {| req_url := currentUrl; req_headers := hs;
                     req_redirect_manual := true |} w1 with
      | (None, w2) => (Throw NetworkError, w2)
      | (Some r, w2) =>
          match next_url r currentUrl with
          | Done (Some u) => redirect_loop remaining' u (Some r) w2
          | Done None => (Done (Some r), w2)
          | Throw e => (Throw e, w2)
          | OutOfFuel => (OutOfFuel, w2)
          end
      end
  end.

Definition fetchWithRedirects (url : jsstring) (maxRedirects : Z) (w : World)
  : outcome Response * World :=
  match redirect_loop (Z.to_nat maxRedirects) url None w with
  | (Done (Some response), w') => (Done response, w')
  | (Done None, w') => (Throw (Error (lit "Failed to fetch URL")), w')
  | (Throw e, w') => (Throw e, w')
  | (OutOfFuel, w') => (OutOfFuel, w')
  end.

(** *** The relay: GET /api/download *)

(** The response under construction, as the handler's calls leave it. *)
Record ServerResponse := {
  statusCode : Z;
  out_headers : list (jsstring * jsstring);
  headersSent : bool;
  json_body : option jsval;
  written : list (list N);
  ended : bool
}.

Definition fresh_response : ServerResponse :=
  {| statusCode := 200; out_headers := []; headersSent := false;
     json_body := None; written := []; ended := false |}.

(** [res.status(code)] *)
Definition res_status (code : Z) (res : ServerResponse) : ServerResponse :=
  {| statusCode := code; out_headers := out_headers res;
     headersSent := headersSent res; json_body := json_body res;
     written := written res; ended := ended res |}.

(** [res.json(v)] *)
Definition res_json (v : jsval) (res : ServerResponse) : ServerResponse :=
  {| statusCode := statusCode res; out_headers := out_headers res;
     headersSent := true; json_body := Some v;
     written := written res; ended := true |}.

(** [res.setHeader(name, value)] *)
Definition res_setHeader (name value : jsstring) (res : ServerResponse)
  : ServerResponse :=
  {| statusCode := statusCode res;
     out_headers := out_headers res ++ [(name, value)];
     headersSent := headersSent res; json_body := json_body res;
     written := written res; ended := ended res |}.

(** [res.write(chunk)] *)
Definition res_write (chunk : list N) (res : ServerResponse)
  : ServerResponse :=
  {| statusCode := statusCode res; out_headers := out_headers res;
     headersSent := true; json_body := json_body res;
     written := written res ++ [chunk]; ended := ended res |}.

(** [res.end()] *)
Definition res_end (res : ServerResponse) : ServerResponse :=
  {| statusCode := statusCode res; out_headers := out_headers res;
     headersSent := true; json_body := json_body res;
     written := written res; ended := true |}.

Definition error_body (message : string) : jsval :=
  VObj [(lit "error", VStr (lit message))].

(** [pump]: forward chunks as they are read; a failed read ends the
    response, with an error payload only if nothing was sent yet. *)
Fixpoint pump (reader : body_stream) (res : ServerResponse) (log : console)
  : ServerResponse * console :=
  match reader with
  | EndOfStream => (res_end res, log)
  | Chunk value next => pump next (res_write value res) log
  | ReadFails =>
      let log' := log ++ [(lit "Stream error:", NetworkError)] in
      if negb (headersSent res)
      then (res_json (error_body "Stream error") (res_status 500 res), log')
      else (res_end res, log')
  end.

(** The handler, given [req.query.url] and [req.query.type]. *)
Definition download (url type : jsval) (res : ServerResponse) (log : console)
  (w : World) : ServerResponse * console * World :=
  match url with
  | VStr (c :: u) =>
      let url := c :: u in
      let downloadType :=
        match type with
        | VStr t => if jsstring_eqb t (lit "audio") then lit "audio" else lit "video"
        | _ => lit "video"
        end in
      let filename :=
        if jsstring_eqb downloadType (lit "audio")
        then lit "kuaishou-audio.m4a" else lit "kuaishou-video.mp4" in
      let contentType :=
        if jsstring_eqb downloadType (lit "audio")
        then lit "audio/mp4" else lit "video/mp4" in
      let (hs, w1) := getHeaders url w in
      match fetch {| req_url := url; req_headers := hs;
                     req_redirect_manual := false |} w1 with
      | (None, w2) =>
          let log' := log ++ [(lit "Download error:", NetworkError)] in
          if negb (headersSent res)
          then (res_json (error_body "Download failed") (res_status 500 res),
                log', w2)
          else (res, log', w2)
      | (Some fetchResponse, w2) =>
          if negb (ok fetchResponse)
          then (res_json (error_body "Failed to download file")
                  (res_status (status fetchResponse) res), log, w2)
          else
            let res := res_setHeader (lit "Content-Type") contentType res in
            let res :=
              res_setHeader (lit "Content-Disposition")
                (lit "attachment; filename=" ++ [34%N] ++ filename ++ [34%N])
                res in
            let res :=
              match Headers_get (headers fetchResponse) (lit "content-length") with
              | Some (d :: l) => res_setHeader (lit "Content-Length") (d :: l) res
              | _ => res
              end in
            match body fetchResponse with
            | None =>
                (res_json (error_body "Failed to read response body")
                   (res_status 500 res), log, w2)
            | Some reader =>
                let (res', log') := pump reader res log in (res', log', w2)
            end
      end
  | _ => (res_json (error_body "Missing video URL") (res_status 400 res),
          log, w)
  end.

End Server.

(** ** Hops: the redirect chain in the words of the specification *)

Section Hops.

Variable World : Type.
Variable random_below : nat -> World -> nat * World.
Variable fetch : Request -> World -> option Response * World.
Variable URL_href : jsstring -> jsstring -> option jsstring.

(** One hop: a request for [u] with rotated headers and manual redirect
    handling, and the response it obtains. *)
Definition hop (u : jsstring) (w : World) : option Response * World :=
  let (hs, w1) := getHeaders random_below u w in
  fetch {| req_url := u; req_headers := hs; req_redirect_manual := true |} w1.

(** In the words of the specification: [r], obtained for [current], is a
    redirect to [u] when its status is in the 3xx range and it has a
    Location, absolute or resolved against [current]. *)
Definition redirects_to (r : Response) (current u : jsstring) : Prop :=
  (300 <= status r < 400)%Z /\
  exists location,
    Headers_get (headers r) (lit "location") = Some location /\
    location <> [] /\
    ((startsWith location (lit "http") = true /\ u = location) \/
     (startsWith location (lit "http") = false /\
      URL_href location current = Some u)).

(** [r] is final: its status is not in the 3xx range, or it names no
    Location. *)
Definition final (r : Response) : Prop :=
  ~ (300 <= status r < 400)%Z \/
  Headers_get (headers r) (lit "location") = None \/
  Headers_get (headers r) (lit "location") = Some [].

(** [Hops k url w uk r w']: starting from [url] in world [w], the [k]-th
    hop asks for [uk] and obtains [r], leaving the world [w']; each of the
    [k - 1] hops before it obtained a redirect, which was followed. *)
Inductive Hops : nat -> jsstring -> World -> jsstring -> Response -> World
                 -> Prop :=
| Hops_first : forall url w r w',
    hop url w = (Some r, w') ->
    Hops 1 url w url r w'
| Hops_next : forall k url w r0 w0 u uk r w',
    hop url w = (Some r0, w0) ->
    redirects_to r0 url u ->
    Hops k u w0 uk r w' ->
    Hops (S k) url w uk r w'.

End Hops.

(** The chunks a body delivers before it ends or fails, and whether it
    fails. *)
Fixpoint chunks_of (reader : body_stream) : list (list N) :=
  match reader with
  | Chunk bytes next => bytes :: chunks_of next
  | EndOfStream | ReadFails => []
  end.

Fixpoint stream_fails (reader : body_stream) : bool :=
  match reader with
  | Chunk _ next => stream_fails next
  | EndOfStream => false
  | ReadFails => true
  end.

(** The headers the relay sets for a media response of the given type and
    upstream. *)
Definition media_headers (type : jsval) (upstream : Response)
  : list (jsstring * jsstring) :=
  let audio :=
    match type with
    | VStr t => jsstring_eqb t (lit "audio")
    | _ => false
    end in
  [(lit "Content-Type", if audio then lit "audio/mp4" else lit "video/mp4");
   (lit "Content-Disposition",
    lit "attachment; filename=" ++ [34%N]
    ++ (if audio then lit "kuaishou-audio.m4a" else lit "kuaishou-video.mp4")
    ++ [34%N])]
  ++ match Headers_get (headers upstream) (lit "content-length") with
     | Some (d :: l) => [(lit "Content-Length", d :: l)]
     | _ => []
     end.

(** The request the relay sends for [url], and its answer. *)
Definition relay_fetch {World : Type}
  (random_below : nat -> World -> nat * World)
  (fetch : Request -> World -> option Response * World)
  (url : jsstring) (w : World) : option Response * World :=
  let (hs, w1) := getHeaders random_below url w in
  fetch {| req_url := url; req_headers := hs;
           req_redirect_manual := false |} w1.

(** Two responses that agree on everything but their headers. *)
Definition same_but_headers (r1 r2 : ServerResponse) : Prop :=
  statusCode r1 = statusCode r2 /\ headersSent r1 = headersSent r2 /\
  json_body r1 = json_body r2 /\ written r1 = written r2 /\
  ended r1 = ended r2.

(** ** The request schema (shared/schema) *)

(** The refinement of [fetchVideoRequestSchema]: the platform's name occurs
    somewhere in the string. *)
Definition names_platform (url : jsstring) : bool :=
  includes url (lit "kuaishou.com") || includes url (lit "kwai.com").

(** [fetchVideoRequestSchema.safeParse(body)]: the parsed [url] on success.
    [isUrl] is the string check [z.string().url()] of the validation
    library. *)
Definition safeParse (isUrl : jsstring -> bool) (body : jsval)
  : option jsstring :=
  match body with
  | VObj props =>
      match lookup_prop (lit "url") props with
      | VStr url => if isUrl url && names_platform url then Some url else None
      | _ => None
      end
  | _ => None
  end.

(** ** The resolver: POST /api/fetch-video *)

Definition failure (message : jsstring) : jsval :=
  VObj [(lit "success", VBool false); (lit "error", VStr message)].

Definition VideoInfo_value (d : VideoInfo) : jsval :=
  VObj [(lit "title", title d); (lit "author", author d);
        (lit "thumbnail", thumbnail d); (lit "videoUrl", videoUrl d);
        (lit "audioUrl", audioUrl d); (lit "quality", VStr (quality d));
        (lit "fileSize", VStr (fileSize d))].

Definition success (d : VideoInfo) : jsval :=
  VObj [(lit "success", VBool true); (lit "data", VideoInfo_value d)].

Section Resolver.

Variable World : Type.
Variable random_below : nat -> World -> nat * World.
Variable fetch : Request -> World -> option Response * World.
Variable URL_href : jsstring -> jsstring -> option jsstring.

(** [isUrl] as above; [text_of r] is [await r.text()], [None] when it
    rejects; [runtime_message e] is the [message] the runtime gives the
    errors it creates itself. *)
Variable isUrl : jsstring -> bool.
Variable text_of : Response -> option jsstring.
Variable runtime_message : jserror -> jsstring.

(** [error.message] *)
Definition error_message (e : jserror) : jsstring :=
  match e with
  | Error message => message
  | _ => runtime_message e
  end.

(** The handler's [catch]: every value thrown in the model is an
    instance of Error, so the message is the error's own. *)
Definition fetch_video_catch (error : jserror) (res : ServerResponse)
  (log : console) (w : World) : ServerResponse * console * World :=
  (res_json (failure (error_message error)) (res_status 500 res),
   log ++ [(lit "Error fetching video:", error)], w).

(** The handler, given [req.body].  [fuel] is the step budget of the
    extraction; when it runs out no response has been sent.  The two
    awaits, of the fetch and of the text of the body, are taken to settle:
    a fetch or a body that never settles is not modelled. *)
Definition fetch_video (fuel : nat) (body : jsval) (res : ServerResponse)
  (log : console) (w : World)
  : outcome (ServerResponse * console * World) :=
  match safeParse isUrl body with
  | None =>
      Done (res_json (failure (lit "Please enter a valid Kuaishou URL"))
              (res_status 400 res), log, w)
  | Some url =>
      match fetchWithRedirects random_below fetch URL_href url 5 w with
      | (Done fetchResponse, w1) =>
          match text_of fetchResponse with
          | None => Done (fetch_video_catch TypeError res log w1)
          | Some html =>
              match extractVideoInfoFromHtml fuel html url log with
              | (Done None, log1) =>
                  Done (res_json
                          (failure (lit "Could not find video on this page. Please check the URL and try again."))
                          (res_status 404 res), log1, w1)
              | (Done (Some videoInfo), log1) =>
                  Done (res_json (success videoInfo) res, log1, w1)
              | (Throw e, log1) => Done (fetch_video_catch e res log1 w1)
              | (OutOfFuel, _) => OutOfFuel
              end
          end
      | (Throw e, w1) => Done (fetch_video_catch e res log w1)
      | (OutOfFuel, _) => OutOfFuel
      end
  end.

End Resolver.

(** ** The page (client): input checks, batch submission, history *)

(** What submitting the single-URL form does: show an error, or start the
    request with the trimmed URL. *)
Inductive submit_action :=
| ShowError (message : jsstring)
| Mutate (url : jsstring).

Definition handleSubmit (url : jsstring) : submit_action :=
  match trim url with
  | [] => ShowError (lit "Please enter a Kuaishou URL")
  | _ :: _ =>
      if negb (includes url (lit "kuaishou.com"))
         && negb (includes url (lit "kwai.com"))
      then ShowError (lit "Please enter a valid Kuaishou URL")
      else Mutate (trim url)
  end.

(** [s.split(sep)] for a separator of one code unit. *)
Fixpoint String_split (sep : N) (s : jsstring) : list jsstring :=
  match s with
  | [] => [[]]
  | c :: s' =>
      if N.eqb c sep then [] :: String_split sep s'
      else
        match String_split sep s' with
        | line :: lines => (c :: line) :: lines
        | [] => [[c]]
        end
  end.

(** [batchUrls.split("\n").map(u => u.trim()).filter(...)] *)
Definition batch_urls (batchUrls : jsstring) : list jsstring :=
  filter names_platform (map trim (String_split 10 batchUrls)).

(** One entry of [batchResults]: the URL and either the video or an
    error. *)
Record batch_result := {
  br_url : jsstring;
  br_video : option jsval;
  br_error : option jsval
}.

Section Batch.

Variable World : Type.

(** [api u] is [apiRequest("POST", "/api/fetch-video", { url: u })]
    followed by [response.json()]: the parsed body, or a throw. *)
Variable api : jsstring -> World -> outcome jsval * World.

(** The body of the [try] for one URL: the entry pushed. *)
Definition batch_entry (videoUrl : jsstring) (data : jsval)
  : outcome batch_result :=
  ok_flag <- get data (lit "success") ;;
  video <- (if truthy ok_flag then get data (lit "data") else Done ok_flag) ;;
  if truthy video
  then Done {| br_url := videoUrl; br_video := Some video;
               br_error := None |}
  else
    error <- get data (lit "error") ;;
    Done {| br_url := videoUrl; br_video := None;
            br_error := Some (js_or error (VStr (lit "Failed to fetch"))) |}.

(** [for (const videoUrl of urls) { try { ... } catch (err) { ... } }]:
    the final [results]. *)
Fixpoint batch_loop (urls : list jsstring) (results : list batch_result)
  (w : World) : list batch_result * World :=
  match urls with
  | [] => (results, w)
  | videoUrl :: urls' =>
      let (answer, w1) := api videoUrl w in
      let entry :=
        match bind answer (batch_entry videoUrl) with
        | Done entry => entry
        | _ => {| br_url := videoUrl; br_video := None;
                  br_error := Some (VStr (lit "Failed to fetch video")) |}
        end in
      batch_loop urls' (results ++ [entry]) w1
  end.

(** Submitting the batch form: an error message when no line names the
    platform, the results otherwise. *)
Definition handleBatchSubmit (batchUrls : jsstring) (w : World)
  : (jsstring + list batch_result) * World :=
  match batch_urls batchUrls with
  | [] => (inl (lit "Please enter at least one valid Kuaishou URL"), w)
  | urls => let (results, w') := batch_loop urls [] w in (inr results, w')
  end.

End Batch.

(** The browser's storage as the page uses it: reading may be refused
    altogether; otherwise the item under the history key, if any. *)
Inductive Storage :=
| Unavailable
| Available (item : option jsstring).

(** [x === y].  [number_eq] compares numbers as doubles.  Two objects or
    arrays are equal only when they are the same object, which values read
    from storage and values received from the server never are. *)
Definition strict_equal (number_eq : jsnum -> jsnum -> bool) (x y : jsval)
  : bool :=
  match x, y with
  | VUndefined, VUndefined => true
  | VNull, VNull => true
  | VBool a, VBool b => Bool.eqb a b
  | VNum a, VNum b => number_eq a b
  | VStr a, VStr b => jsstring_eqb a b
  | _, _ => false
  end.

(** [getHistory()] *)
Definition getHistory (st : Storage) : jsval :=
  match st with
  | Available (Some (c :: stored)) =>
      match JSON.parse (c :: stored) with
      | Done history => history
      | _ => VArr []
      end
  | _ => VArr []
  end.

Section History.

(** [JSON.stringify]; the double comparison behind [===]; and whether the
    storage takes a value ([setItem] throws when it does not). *)
Variable JSON_stringify : jsval -> jsstring.
Variable number_eq : jsnum -> jsnum -> bool.
Variable storage_accepts : jsstring -> bool.

(** [history.some(item => item.videoUrl === videoUrl)] on the elements of
    an array: reading a property of a null element throws. *)
Fixpoint some_has_videoUrl (items : list jsval) (url : jsval)
  : outcome bool :=
  match items with
  | [] => Done false
  | item :: items' =>
      itemUrl <- get item (lit "videoUrl") ;;
      if strict_equal number_eq itemUrl url then Done true
      else some_has_videoUrl items' url
  end.

Definition history_item (video : VideoInfo) (now iso : jsstring) : jsval :=
  VObj [(lit "id", VStr now); (lit "title", title video);
        (lit "author", author video); (lit "thumbnail", thumbnail video);
        (lit "videoUrl", videoUrl video); (lit "audioUrl", audioUrl video);
        (lit "downloadedAt", VStr iso)].

(** [localStorage.setItem(HISTORY_KEY, value)] *)
Definition setItem (value : jsstring) (st : Storage) : outcome Storage :=
  match st with
  | Unavailable => Throw (Error (lit "SecurityError"))
  | Available _ =>
      if storage_accepts value then Done (Available (Some value))
      else Throw (Error (lit "QuotaExceededError"))
  end.

(** The body of the [try] of [saveToHistory]; [now] is
    [Date.now().toString()] and [iso] is [new Date().toISOString()]. *)
Definition saveToHistory_try (video : VideoInfo) (now iso : jsstring)
  (st : Storage) : outcome Storage :=
  match getHistory st with
  | VArr history =>
      found <- some_has_videoUrl history (videoUrl video) ;;
      if found then Done st
      else
        let updated := firstn 20 (history_item video now iso :: history) in
        setItem (JSON_stringify (VArr updated)) st
  | _ => Throw TypeError
  end.

(** [saveToHistory(video)]: whatever is thrown is swallowed. *)
Definition saveToHistory (video : VideoInfo) (now iso : jsstring)
  (st : Storage) : Storage :=
  match saveToHistory_try video now iso st with
  | Done st' => st'
  | _ => st
  end.

End History.

(** [clearHistory()] *)
Definition clearHistory (st : Storage) : Storage :=
  match st with
  | Unavailable => Unavailable
  | Available _ => Available None
  end.

(** ** Sample pages and networks *)

(** A page whose only media reference is a manifest under the key
    hlsPlayUrl. *)
Definition html_hls : jsstring :=
  lit "<script>window.data={hlsPlayUrl:'https://cdn.example.com/stream.m3u8'}</script>".

(** A page whose og:video is a URL with cover in its path. *)
Definition html_og_cover : jsstring :=
  lit "<meta property='og:video' content='https://cdn.example.com/cover_123.mp4'>".

(** A page quoting a cover URL and a video URL. *)
Definition html_cover_then_video : jsstring :=
  lit "<img src='https://cdn.example.com/cover_123.mp4'><a href='https://cdn.example.com/v_123.mp4'>".

(** A page with a title element B, em dash, the platform name, and an
    og:title A. *)
Definition html_two_titles : jsstring :=
  lit "<title>B " ++ [0x2014; 0x20; 0x5FEB; 0x624B]%N ++
  lit "</title><meta property='og:title' content='A'><meta property='og:video' content='https://cdn.example.com/v.mp4'>".

(** A page whose video URL is written with escaped slashes. *)
Definition html_escaped : jsstring :=
  lit "videoUrl:'https:\/\/cdn.example.com\/v.mp4'".

(** A page with a script block that is not JSON followed by one that is. *)
Definition html_bad_then_good_json : jsstring :=
  lit "<script type='application/json'>{oops</script><script type='application/ld+json'>{" ++
  [34%N] ++ lit "contentUrl" ++ [34%N] ++ lit ":" ++ [34%N] ++
  lit "https://cdn.example.com/v.mp4" ++ [34%N] ++ lit "}</script>".

(** A page whose structured data gives a number as contentUrl. *)
Definition html_numeric_contentUrl : jsstring :=
  lit "<script type='application/json'>{" ++ [34%N] ++ lit "contentUrl" ++
  [34%N] ++ lit ":5}</script>".

(** A network of pages p0, p1, ...: the first [redirects] of them answer
    302 with the next page as Location, the others answer 200.  The world
    counts the requests served. *)
Definition page (k : nat) : jsstring :=
  lit "https://v.kuaishou.com/" ++ repeat (chr "p") k.

Definition page_number (u : jsstring) : nat :=
  List.length u - List.length (page 0).

Definition found (k : nat) : Response :=
  {| status := 302; headers := [(lit "location", page (S k))]; body := None |}.

Definition final_page : Response :=
  {| status := 200; headers := []; body := Some EndOfStream |}.

Definition chain_fetch (redirects : nat) (req : Request) (served : nat)
  : option Response * nat :=
  let k := page_number (req_url req) in
  (Some (if Nat.ltb k redirects then found k else final_page), S served).

Definition first_agent (n : nat) (served : nat) : nat * nat := (0, served).

Definition no_resolution (location base : jsstring) : option jsstring := None.

(** An upstream that answers 404 with a three-byte body. *)
Definition not_found_upstream : Response :=
  {| status := 404; headers := [(lit "content-length", lit "3")];
     body := Some (Chunk [1; 2; 3]%N EndOfStream) |}.

Definition fetch_404 (req : Request) (served : nat) : option Response * nat :=
  (Some not_found_upstream, S served).

(** A batch entry carries a video or an error, never both and never
    neither. *)
Definition one_of_video_and_error (r : batch_result) : Prop :=
  (br_video r = None /\ br_error r <> None) \/
  (br_video r <> None /\ br_error r = None).

(** A page with an og:image and an og:video tag. *)
Definition html_og_image_video : jsstring :=
  lit "<meta property='og:image' content='https://cdn.example.com/t.jpg'><meta property='og:video' content='https://cdn.example.com/v.mp4'>".

(** A page with a by-line and an og:video tag. *)
Definition html_by_line : jsstring :=
  lit "<p>by @alice </p><meta property='og:video' content='https://cdn.example.com/v.mp4'>".

(** A page with a title element and no media. *)
Definition html_title_only : jsstring := lit "<title>Hello</title>".

(** A page quoting an mp3 URL before an m4a URL. *)
Definition html_mp3_then_m4a : jsstring :=
  lit "<a href='https://cdn.example.com/a.mp3'><a href='https://cdn.example.com/b.m4a'><meta property='og:video' content='https://cdn.example.com/v.mp4'>".

(** The locals after a title element alone was found. *)
Definition vars_titled : vars :=
  {| v_title := VStr (lit "T"); v_author := VStr [];
     v_thumbnail := VStr []; v_videoUrl := VStr [] |}.

(** An upstream that answers 200 with a body of two chunks. *)
Definition media_upstream : Response :=
  {| status := 200; headers := [(lit "content-length", lit "3")];
     body := Some (Chunk [1; 2]%N (Chunk [3]%N EndOfStream)) |}.

Definition fetch_media (req : Request) (served : nat) : option Response * nat :=
  (Some media_upstream, S served).

(** An upstream whose body breaks after the first chunk. *)
Definition broken_upstream : Response :=
  {| status := 200; headers := [];
     body := Some (Chunk [1; 2]%N ReadFails) |}.

Definition fetch_broken (req : Request) (served : nat)
  : option Response * nat :=
  (Some broken_upstream, S served).

(** A network that serves one page at every URL, and a reading of bodies
    as text that takes each byte as a code unit. *)
Definition serve (html : jsstring) (req : Request) (served : nat)
  : option Response * nat :=
  (Some {| status := 200; headers := [];
           body := Some (Chunk html EndOfStream) |}, S served).

Definition text_of_body (r : Response) : option jsstring :=
  match body r with
  | Some reader =>
      if stream_fails reader then None else Some (List.concat (chunks_of reader))
  | None => Some []
  end.

Definition http_scheme (u : jsstring) : bool := startsWith u (lit "http").

Definition plain_message (e : jserror) : jsstring := lit "fetch failed".

Definition share_link : jsstring := lit "https://v.kuaishou.com/abc".

(** A stringification that only tells the number of entries, for runs of
    the history functions. *)
Definition count_entries (v : jsval) : jsstring :=
  match v with
  | VArr l => repeat (chr "i") (List.length l)
  | _ => lit "null"
  end.

Definition sample_video : VideoInfo :=
  {| title := VStr (lit "T"); author := VStr (lit "A");
     thumbnail := VStr [];
     videoUrl := VStr (lit "https://cdn.example.com/v.mp4");
     audioUrl := VUndefined; quality := lit "720p"; fileSize := [] |}.

(** * Properties *)

(** ** Regular expression objects *)

Lemma RegExp_exec_without_g (R : RegExp) (S : jsstring) :
  global R = false -> snd (RegExp_exec R S) = R.
Proof.
  intros Hg. unfold RegExp_exec. rewrite Hg.
  destruct (Nat.ltb (List.length S) 0); [reflexivity|].
  destruct (search (source R) 0 (skipn 0 S)); reflexivity.
Qed.

(** Without the [g] flag a rejected candidate is found again by the next
    [exec]: the loop of the fallback scan cannot leave it behind. *)
Lemma video_while_stuck (fuel : nat) (pattern : RegExp) (html : jsstring)
  (videoUrl : jsval) (m : MatchResult) :
  global pattern = false ->
  fst (RegExp_exec pattern html) = Some m ->
  acceptable (at1 m) = false ->
  video_while fuel pattern html videoUrl = OutOfFuel.
Proof.
  intros Hg Hm Hrej. induction fuel as [|fuel IH]; [reflexivity|].
  cbn [video_while].
  pose proof (RegExp_exec_without_g pattern html Hg) as Hsame.
  destruct (RegExp_exec pattern html) as [[m'|] pattern'];
    cbn [fst snd] in *; [|discriminate].
  injection Hm as ->. subst pattern'. rewrite Hrej. exact IH.
Qed.

Lemma video_while_no_match (fuel : nat) (pattern : RegExp) (html : jsstring)
  (videoUrl : jsval) :
  fst (RegExp_exec pattern html) = None ->
  video_while (S fuel) pattern html videoUrl = Done videoUrl.
Proof.
  intros Hm. cbn [video_while].
  destruct (RegExp_exec pattern html) as [[m'|] pattern'];
    cbn [fst] in Hm; [discriminate|reflexivity].
Qed.

Lemma scan_json_scripts_no_match (fuel : nat) (pattern : RegExp)
  (html : jsstring) (v : vars) :
  fst (RegExp_exec pattern html) = None ->
  scan_json_scripts (S fuel) pattern html v = Done v.
Proof.
  intros Hm. cbn [scan_json_scripts].
  destruct (RegExp_exec pattern html) as [[m'|] pattern'];
    cbn [fst] in Hm; [discriminate|reflexivity].
Qed.

(** *** Matching consumes input *)

Lemma consumed_refl (st : mstate) : consumed st st.
Proof. unfold consumed. lia. Qed.

Lemma consumed_trans (a b c : mstate) :
  consumed a b -> consumed b c -> consumed a c.
Proof. unfold consumed. lia. Qed.

Lemma star_iter_inv (greedy : bool)
  (body : mstate -> (mstate -> option mstate) -> option mstate)
  (k : mstate -> option mstate) :
  (forall st k' res, body st k' = Some res ->
                     exists st', consumed st st' /\ k' st' = Some res) ->
  forall (n : nat) (st res : mstate),
    star_iter greedy body k n st = Some res ->
    exists st', consumed st st' /\ k st' = Some res.
Proof.
  intros Hbody. induction n as [|n IHn]; intros st res H.
  - exists st. split; [apply consumed_refl|exact H].
  - cbn [star_iter] in H. cbn zeta in H.
    assert (Hagain : forall res',
               body st (fun st' => if Nat.ltb (pos st) (pos st')
                                   then star_iter greedy body k n st'
                                   else None) = Some res' ->
               exists st', consumed st st' /\ k st' = Some res').
    { intros res' Hr. apply Hbody in Hr. destruct Hr as (st1 & H1 & Hr).
      destruct (Nat.ltb (pos st) (pos st1)); [|discriminate].
      apply IHn in Hr. destruct Hr as (st2 & H2 & Hr).
      exists st2. split; [eapply consumed_trans; eassumption|exact Hr]. }
    destruct greedy.
    + match type of H with
      | match ?c with _ => _ end = _ => destruct c as [res'|] eqn:Hc
      end.
      * injection H as <-. apply Hagain. reflexivity.
      * exists st. split; [apply consumed_refl|exact H].
    + destruct (k st) as [res'|] eqn:Hk.
      * injection H as <-. exists st. split; [apply consumed_refl|exact Hk].
      * apply Hagain. exact H.
Qed.

(** A successful match hands its continuation a state further along the
    same input. *)
Lemma rmatch_inv (r : regex) :
  forall (st : mstate) (k : mstate -> option mstate) (res : mstate),
    rmatch r st k = Some res ->
    exists st', consumed st st' /\ k st' = Some res.
Proof.
  induction r as [|p|a IHa b IHb|a IHa b IHb|greedy a IHa|a IHa|];
    intros st k res H; cbn [rmatch] in H.
  - exists st. split; [apply consumed_refl|exact H].
  - destruct (rest st) as [|c s'] eqn:Hrest; [discriminate|].
    destruct (p c); [|discriminate].
    eexists. split; [|exact H].
    unfold consumed. cbn [pos rest]. rewrite Hrest. cbn [List.length]. lia.
  - apply IHa in H. destruct H as (st1 & H1 & H).
    apply IHb in H. destruct H as (st2 & H2 & H).
    exists st2. split; [eapply consumed_trans; eassumption|exact H].
  - destruct (rmatch a st k) as [res'|] eqn:Ha.
    + injection H as <-. apply IHa. exact Ha.
    + apply IHb. exact H.
  - eapply star_iter_inv; [|exact H]. exact IHa.
  - apply IHa in H. destruct H as (st1 & H1 & H).
    eexists. split; [|exact H]. exact H1.
  - destruct (rest st) eqn:Hrest; [|discriminate].
    exists st. split; [apply consumed_refl|exact H].
Qed.

Lemma rmatch_progress (r : regex) :
  nonempty r = true ->
  forall (st : mstate) (k : mstate -> option mstate) (res : mstate),
    rmatch r st k = Some res ->
    exists st', consumed st st' /\ pos st < pos st' /\ k st' = Some res.
Proof.
  induction r as [|p|a IHa b IHb|a IHa b IHb|greedy a IHa|a IHa|];
    cbn [nonempty]; intros Hne st k res H; try discriminate;
    cbn [rmatch] in H.
  - destruct (rest st) as [|c s'] eqn:Hrest; [discriminate|].
    destruct (p c); [|discriminate].
    eexists. split; [|split; [|exact H]]; [|cbn [pos]; lia].
    unfold consumed. cbn [pos rest]. rewrite Hrest. cbn [List.length]. lia.
  - destruct (nonempty a) eqn:Hna.
    + apply (IHa eq_refl) in H. destruct H as (st1 & H1 & Hlt & H).
      apply rmatch_inv in H. destruct H as (st2 & H2 & H).
      exists st2. split; [eapply consumed_trans; eassumption|].
      split; [|exact H]. unfold consumed in *. lia.
    + cbn [orb] in Hne.
      apply rmatch_inv in H. destruct H as (st1 & H1 & H).
      apply (IHb Hne) in H. destruct H as (st2 & H2 & Hlt & H).
      exists st2. split; [eapply consumed_trans; eassumption|].
      split; [|exact H]. unfold consumed in *. lia.
  - apply andb_prop in Hne. destruct Hne as [Hna Hnb].
    destruct (rmatch a st k) as [res'|] eqn:Ha.
    + injection H as <-. apply (IHa Hna). exact Ha.
    + apply (IHb Hnb). exact H.
  - apply (IHa Hne) in H. destruct H as (st1 & H1 & Hlt & H).
    exists {| pos := pos st1; rest := rest st1;
              cap := VStr (firstn (pos st1 - pos st) (rest st)) |}.
    split; [exact H1|]. split; [exact Hlt|exact H].
Qed.

(** A match of a pattern that cannot match the empty string ends after it
    starts, within the subject. *)
Lemma search_bounds (r : regex) (s : jsstring) :
  nonempty r = true ->
  forall (i : nat) (m : MatchResult),
    search r i s = Some m ->
    i <= index m /\ index m < endIndex m /\
    endIndex m <= i + List.length s.
Proof.
  intros Hne. induction s as [|c s IH]; intros i m H; cbn [search] in H.
  - destruct (rmatch r _ Some) as [st'|] eqn:Hm; [|discriminate].
    apply (rmatch_progress r Hne) in Hm.
    destruct Hm as (st1 & Hc & Hlt & [= ->]).
    injection H as <-. unfold consumed in Hc. cbn in *. lia.
  - destruct (rmatch r _ Some) as [st'|] eqn:Hm.
    + apply (rmatch_progress r Hne) in Hm.
      destruct Hm as (st1 & Hc & Hlt & [= ->]).
      injection H as <-. unfold consumed in Hc. cbn in *. lia.
    + apply IH in H. cbn [List.length]. lia.
Qed.

Lemma skipn_length_le (start : nat) (S : jsstring) :
  start <= List.length S ->
  start + List.length (skipn start S) = List.length S.
Proof. intros H. rewrite length_skipn. lia. Qed.

(** With the [g] flag, each successful [exec] of such a pattern moves
    [lastIndex] forward, and never past the end of the subject. *)
Lemma RegExp_exec_advances (R R' : RegExp) (S : jsstring) (m : MatchResult) :
  global R = true -> nonempty (source R) = true ->
  RegExp_exec R S = (Some m, R') ->
  lastIndex R < lastIndex R' /\ lastIndex R' <= List.length S /\
  global R' = true /\ source R' = source R.
Proof.
  intros Hg Hne. unfold RegExp_exec. rewrite Hg.
  destruct (Nat.ltb (List.length S) (lastIndex R)) eqn:Hlt; [discriminate|].
  apply Nat.ltb_ge in Hlt.
  destruct (search (source R) (lastIndex R) (skipn (lastIndex R) S))
    as [m'|] eqn:Hs; [|discriminate].
  intros [= -> <-]. apply (search_bounds _ _ Hne) in Hs.
  pose proof (skipn_length_le _ Hlt). cbn. repeat split; try lia. exact Hg.
Qed.

(** ** C1: a page on which the extraction does not return *)

Lemma html_hls_fallback_stuck (fuel : nat) (videoUrl : jsval) :
  truthy videoUrl = false ->
  video_for fuel videoUrlPatterns html_hls videoUrl = OutOfFuel.
Proof.
  intros Hv. destruct fuel as [|fuel]; [reflexivity|].
  unfold videoUrlPatterns. cbn [video_for].
  rewrite video_while_no_match by (vm_compute; reflexivity).
  cbn [bind]. rewrite Hv.
  rewrite video_while_no_match by (vm_compute; reflexivity).
  cbn [bind]. rewrite Hv.
  rewrite video_while_no_match by (vm_compute; reflexivity).
  cbn [bind]. rewrite Hv.
  erewrite video_while_stuck;
    [reflexivity | reflexivity | vm_compute; reflexivity
     | vm_compute; reflexivity].
Qed.

Lemma html_hls_cascade (fuel : nat) : cascade fuel html_hls = OutOfFuel.
Proof.
  unfold cascade.
  replace (title_from_tag html_hls (VStr [])) with (Done (VStr []))
    by (vm_compute; reflexivity).
  cbn [bind].
  replace (title_from_og html_hls (VStr [])) with (Done (VStr []))
    by (vm_compute; reflexivity).
  cbn [bind].
  replace (author_from_text html_hls (VStr [])) with (Done (VStr []))
    by (vm_compute; reflexivity).
  cbn [bind].
  replace (videoUrl_from_og html_hls (VStr [])) with (VStr [])
    by (vm_compute; reflexivity).
  destruct fuel as [|fuel]; [reflexivity|].
  rewrite scan_json_scripts_no_match by (vm_compute; reflexivity).
  cbn [bind v_videoUrl truthy List.length Nat.eqb negb].
  rewrite html_hls_fallback_stuck by reflexivity.
  reflexivity.
Qed.

(** C1 (the code does not meet the claim).  On the page [html_hls], whose
    only media reference is 'hlsPlayUrl' with a manifest URL, the call
    never returns: whatever the step budget, no result is produced,
    neither null nor a descriptor.  The pattern for the key playUrl has
    no [g] flag and matches inside hlsPlayUrl; its candidate has no
    '.mp4' and is rejected, and the next [exec] finds the same candidate
    again. *)
Theorem extraction_hangs_on_rejected_key_candidate :
  forall (fuel : nat) (originalUrl : jsstring) (log : console),
    extractVideoInfoFromHtml fuel html_hls originalUrl log = (OutOfFuel, log).
Proof.
  intros fuel originalUrl log.
  unfold extractVideoInfoFromHtml, extract_try.
  rewrite html_hls_cascade. reflexivity.
Qed.

(** ** What a returned result looks like *)

Lemma unescape_if_set_string (x y : jsval) :
  unescape_if_set x = Done y ->
  (truthy x = false /\ y = x) \/
  (exists s, x = VStr s /\ y = VStr (unescape s)).
Proof.
  unfold unescape_if_set. destruct (truthy x) eqn:Hx.
  - destruct x; cbn; try discriminate.
    intros [= <-]. right. eauto.
  - intros [= <-]. left. auto.
Qed.

Lemma js_or_truthy (a b : jsval) :
  truthy b = true -> truthy (js_or a b) = true.
Proof.
  intros Hb. unfold js_or. destruct (truthy a) eqn:Ha; assumption.
Qed.

(** Whenever the post-processing yields a descriptor, it is complete: a
    non-empty string for [videoUrl], truthy [title] and [author] (the
    placeholders when the cascade left them empty) and the fixed labels. *)
Lemma finish_complete (v : vars) (a : jsval) (d : VideoInfo) :
  finish v a = Done (Some d) ->
  (exists s, videoUrl d = VStr s /\ s <> []) /\
  truthy (title d) = true /\ truthy (author d) = true /\
  title d = js_or (v_title v) (VStr (lit "Kuaishou Video")) /\
  author d = js_or (v_author v) (VStr (lit "Unknown")) /\
  quality d = lit "720p" /\ fileSize d = [].
Proof.
  unfold finish.
  destruct (unescape_if_set (v_videoUrl v)) as [vu| |] eqn:Hvu;
    cbn [bind]; try discriminate.
  destruct (unescape_if_set (v_thumbnail v)) as [th| |] eqn:Hth;
    cbn [bind]; try discriminate.
  destruct (truthy vu) eqn:Htr; cbn [negb]; try discriminate.
  destruct (unescape_if_set a) as [au| |] eqn:Hau;
    cbn [bind]; try discriminate.
  intros [= <-]. cbn.
  apply unescape_if_set_string in Hvu.
  destruct Hvu as [[Hf ->]|[s [Hs ->]]]; [congruence|].
  split.
  - exists (unescape s). split; [reflexivity|].
    intros Hnil. rewrite Hnil in Htr. discriminate.
  - repeat split; solve [apply js_or_truthy; reflexivity | reflexivity].
Qed.

Lemma extract_result_complete (fuel : nat) (html originalUrl : jsstring)
  (log : console) (d : VideoInfo) :
  fst (extractVideoInfoFromHtml fuel html originalUrl log) = Done (Some d) ->
  (exists s, videoUrl d = VStr s /\ s <> []) /\
  truthy (title d) = true /\ truthy (author d) = true /\
  quality d = lit "720p".
Proof.
  unfold extractVideoInfoFromHtml, extract_try.
  destruct (cascade fuel html) as [[v a]| |]; cbn [bind fst snd];
    try discriminate.
  destruct (finish v a) as [r| |] eqn:Hfin; cbn [fst]; try discriminate.
  intros [= ->]. apply finish_complete in Hfin. tauto.
Qed.

(** ** C2: no exception leaves the extraction *)

Lemma apply_json_block_parse_error (text : jsval) (v : vars) (e : jserror) :
  JSON_parse text = Throw e -> apply_json_block text v = Throw e.
Proof.
  intros Hp. unfold apply_json_block. rewrite Hp. reflexivity.
Qed.

(** C2.  For every page and every step budget, the call never ends in a
    thrown error; an error thrown anywhere inside the outer [try] (say by
    a string method applied to a number taken from structured data) is
    logged and turned into null; and a script block whose text
    [JSON.parse] rejects changes nothing: the scan goes on with the next
    block from where the pattern stopped, with the locals as they were. *)
Theorem extraction_never_throws :
  forall (fuel : nat) (html originalUrl : jsstring) (log : console),
    (forall e,
        fst (extractVideoInfoFromHtml fuel html originalUrl log) <> Throw e) /\
    (forall e,
        extract_try fuel html = Throw e ->
        extractVideoInfoFromHtml fuel html originalUrl log =
        (Done None, log ++ [(lit "Error extracting video info:", e)])) /\
    (forall jsonScriptPattern jsonMatch pattern' v e,
        RegExp_exec jsonScriptPattern html = (Some jsonMatch, pattern') ->
        JSON_parse (at1 jsonMatch) = Throw e ->
        scan_json_scripts (S fuel) jsonScriptPattern html v =
        scan_json_scripts fuel pattern' html v).
Proof.
  intros fuel html originalUrl log. split; [|split].
  - intros e. unfold extractVideoInfoFromHtml.
    destruct (extract_try fuel html); cbn [fst]; discriminate.
  - intros e He. unfold extractVideoInfoFromHtml. rewrite He. reflexivity.
  - intros jsonScriptPattern jsonMatch pattern' v e Hexec Hparse.
    cbn [scan_json_scripts]. rewrite Hexec.
    rewrite (apply_json_block_parse_error _ v Hparse). reflexivity.
Qed.

(** A block that is not JSON is skipped and the next block is used. *)
Example bad_json_block_is_skipped :
  fst (extractVideoInfoFromHtml 3 html_bad_then_good_json [] []) =
  Done (Some {| title := VStr (lit "Kuaishou Video");
                author := VStr (lit "Unknown");
                thumbnail := VStr [];
                videoUrl := VStr (lit "https://cdn.example.com/v.mp4");
                audioUrl := VUndefined;
                quality := lit "720p";
                fileSize := [] |}).
Proof. vm_compute. reflexivity. Qed.

(** A number for contentUrl makes the post-processing throw; the outer
    handler logs the error and answers null. *)
Example numeric_contentUrl_gives_null :
  extract_try 3 html_numeric_contentUrl = Throw TypeError /\
  extractVideoInfoFromHtml 3 html_numeric_contentUrl [] [] =
  (Done None, [(lit "Error extracting video info:", TypeError)]).
Proof. split; vm_compute; reflexivity. Qed.

(** ** The stages of a finished cascade *)

Ltac bind_inv H x Hx :=
  match type of H with
  | bind ?c _ = Done _ =>
      destruct c as [x| |] eqn:Hx; cbn [bind] in H; [|discriminate H ..]
  end.

Lemma cascade_inv (fuel : nat) (html : jsstring) (v : vars) (a : jsval) :
  cascade fuel html = Done (v, a) ->
  exists t0 t1 au v1 vu,
    title_from_tag html (VStr []) = Done t0 /\
    title_from_og html t0 = Done t1 /\
    author_from_text html (VStr []) = Done au /\
    scan_json_scripts fuel (RegExp_literal re_json_script true) html
      {| v_title := t1; v_author := au;
         v_thumbnail := thumbnail_from_og html (VStr []);
         v_videoUrl := videoUrl_from_og html (VStr []) |} = Done v1 /\
    (if negb (truthy (v_videoUrl v1))
     then video_for fuel videoUrlPatterns html (v_videoUrl v1)
     else Done (v_videoUrl v1)) = Done vu /\
    v_title v = v_title v1 /\
    v_author v = v_author v1 /\
    v_thumbnail v =
      (if negb (truthy (v_thumbnail v1))
       then first_capture imgPatterns html (v_thumbnail v1)
       else v_thumbnail v1) /\
    v_videoUrl v =
      (if negb (truthy vu) then first_capture m3u8Patterns html vu else vu) /\
    a = first_capture audioUrlPatterns html (VStr []).
Proof.
  unfold cascade. intros H.
  bind_inv H t0 Ht0. bind_inv H t1 Ht1. bind_inv H au Hau.
  bind_inv H v1 Hv1. bind_inv H vu Hvu.
  injection H as <- <-.
  exists t0, t1, au, v1, vu. cbn [v_title v_author v_thumbnail v_videoUrl].
  repeat split; reflexivity || assumption.
Qed.

Lemma extract_inv (fuel : nat) (html originalUrl : jsstring) (log : console)
  (d : VideoInfo) :
  fst (extractVideoInfoFromHtml fuel html originalUrl log) = Done (Some d) ->
  exists v a, cascade fuel html = Done (v, a) /\ finish v a = Done (Some d).
Proof.
  unfold extractVideoInfoFromHtml, extract_try.
  destruct (cascade fuel html) as [[v a]| |]; cbn [bind fst snd];
    try discriminate.
  destruct (finish v a) as [r| |] eqn:Hfin; cbn [fst]; try discriminate.
  intros [= ->]. eauto.
Qed.

(** Structured data only fills gaps: a local that is already set keeps its
    value through every script block. *)
Lemma apply_json_block_fills_gaps (text : jsval) (v v' : vars) :
  apply_json_block text v = Done v' ->
  (truthy (v_title v) = true -> v_title v' = v_title v) /\
  (truthy (v_author v) = true -> v_author v' = v_author v) /\
  (truthy (v_thumbnail v) = true -> v_thumbnail v' = v_thumbnail v) /\
  (truthy (v_videoUrl v) = true -> v_videoUrl v' = v_videoUrl v).
Proof.
  unfold apply_json_block. intros H.
  bind_inv H json Hj. bind_inv H cu Hcu. bind_inv H tu Htu.
  bind_inv H nm Hnm. bind_inv H ja Hja. bind_inv H an Han.
  injection H as <-. cbn [v_title v_author v_thumbnail v_videoUrl].
  unfold js_or.
  repeat split; intros Ht; rewrite Ht;
    match goal with |- (if ?b then _ else _) = _ => destruct b end;
    reflexivity.
Qed.

Lemma scan_json_scripts_fills_gaps (fuel : nat) :
  forall (pattern : RegExp) (html : jsstring) (v v' : vars),
    scan_json_scripts fuel pattern html v = Done v' ->
    (truthy (v_title v) = true -> v_title v' = v_title v) /\
    (truthy (v_author v) = true -> v_author v' = v_author v) /\
    (truthy (v_thumbnail v) = true -> v_thumbnail v' = v_thumbnail v) /\
    (truthy (v_videoUrl v) = true -> v_videoUrl v' = v_videoUrl v).
Proof.
  induction fuel as [|fuel IH]; intros pattern html v v' H;
    [discriminate H|].
  cbn [scan_json_scripts] in H.
  destruct (RegExp_exec pattern html) as [[m|] pattern'].
  - destruct (apply_json_block (at1 m) v) as [v1| |] eqn:Hb;
      cbn [try_catch bind] in H.
    + apply apply_json_block_fills_gaps in Hb.
      apply IH in H.
      destruct Hb as (B1 & B2 & B3 & B4), H as (H1 & H2 & H3 & H4).
      repeat split; intros Ht.
      * rewrite <- (B1 Ht). apply H1. rewrite (B1 Ht). exact Ht.
      * rewrite <- (B2 Ht). apply H2. rewrite (B2 Ht). exact Ht.
      * rewrite <- (B3 Ht). apply H3. rewrite (B3 Ht). exact Ht.
      * rewrite <- (B4 Ht). apply H4. rewrite (B4 Ht). exact Ht.
    + apply IH in H. exact H.
    + discriminate H.
  - injection H as <-. repeat split; reflexivity.
Qed.

(** ** C4: og:title wins over the title element *)

(** C4.  When the page has an og:title tag (either attribute order) whose
    content is [s], the title is the trimmed [s] whatever the title
    element gave before; and every descriptor returned for the page has
    that title, provided it is not blank: structured data and the
    placeholder only fill an empty title. *)
Theorem og_title_overrides_title_tag :
  forall (html : jsstring) (ogTitleMatch : MatchResult) (s : jsstring),
    og_match html og_title = Some ogTitleMatch ->
    at1 ogTitleMatch = VStr s ->
    (forall fromTag, title_from_og html fromTag = Done (VStr (trim s))) /\
    (trim s <> [] ->
     forall fuel originalUrl log d,
       fst (extractVideoInfoFromHtml fuel html originalUrl log)
       = Done (Some d) ->
       title d = VStr (trim s)).
Proof.
  intros html m s Hm Hs.
  assert (Hog : forall fromTag,
             title_from_og html fromTag = Done (VStr (trim s))).
  { intros fromTag. unfold title_from_og. rewrite Hm, Hs. reflexivity. }
  split; [exact Hog|].
  intros Hne fuel originalUrl log d Hd.
  apply extract_inv in Hd. destruct Hd as (v & a & Hc & Hf).
  apply cascade_inv in Hc.
  destruct Hc as (t0 & t1 & au & v1 & vu & _ & Ht1 & _ & Hscan & _ & Hvt & _).
  rewrite Hog in Ht1. injection Ht1 as <-.
  assert (Htruthy : truthy (VStr (trim s)) = true).
  { cbn. destruct (trim s); [congruence|reflexivity]. }
  apply scan_json_scripts_fills_gaps in Hscan.
  destruct Hscan as (Hkeep & _). cbn [v_title] in Hkeep.
  specialize (Hkeep Htruthy).
  apply finish_complete in Hf.
  destruct Hf as (_ & _ & _ & Htitle & _).
  rewrite Htitle, Hvt, Hkeep. unfold js_or. rewrite Htruthy. reflexivity.
Qed.

(** The page of the specification's example: the title element says B,
    em dash, platform name; og:title says A; the descriptor says A. *)
Lemma og_title_overrides_title_tag_witness :
  title_from_og html_two_titles (VStr (lit "B")) = Done (VStr (lit "A")) /\
  exists d,
    fst (extractVideoInfoFromHtml 3 html_two_titles [] []) = Done (Some d) /\
    title d = VStr (lit "A").
Proof.
  assert (Hm : og_match html_two_titles og_title =
               Some {| index := 27; endIndex := 58;
                       group1 := VStr (lit "A") |})
    by (vm_compute; reflexivity).
  destruct (og_title_overrides_title_tag html_two_titles (s := lit "A")
              Hm eq_refl) as [Hog Hd].
  split; [exact (Hog _)|].
  eexists. split; [vm_compute; reflexivity|].
  refine (Hd _ 3 [] [] _ _).
  - vm_compute. discriminate.
  - vm_compute. reflexivity.
Defined.

(** ** C5: near-miss thumbnail URLs *)

Lemma video_while_result (fuel : nat) :
  forall (pattern : RegExp) (html : jsstring) (videoUrl found : jsval),
    video_while fuel pattern html videoUrl = Done found ->
    found = videoUrl \/ acceptable found = true.
Proof.
  induction fuel as [|fuel IH]; intros pattern html videoUrl found H;
    [discriminate H|].
  cbn [video_while] in H.
  destruct (RegExp_exec pattern html) as [[m|] pattern'].
  - destruct (acceptable (at1 m)) eqn:Hacc.
    + injection H as <-. right. exact Hacc.
    + eapply IH. exact H.
  - injection H as <-. left. reflexivity.
Qed.

Lemma video_for_result (fuel : nat) (html : jsstring) (patterns : list RegExp) :
  forall (videoUrl found : jsval),
    video_for fuel patterns html videoUrl = Done found ->
    found = videoUrl \/ acceptable found = true.
Proof.
  induction patterns as [|pattern patterns IH]; intros videoUrl found H.
  - injection H as <-. left. reflexivity.
  - cbn [video_for] in H. bind_inv H v1 Hv1.
    apply video_while_result in Hv1.
    destruct (truthy v1).
    + injection H as <-. exact Hv1.
    + apply IH in H. destruct H as [->|H]; [exact Hv1|right; exact H].
Qed.

Lemma acceptable_inv (x : jsval) :
  acceptable x = true ->
  exists s, x = VStr s /\ includes s (lit ".mp4") = true /\
            includes s (lit "poster") = false /\
            includes s (lit "cover") = false.
Proof.
  unfold acceptable. intros H. apply andb_prop in H. destruct H as [_ H].
  destruct x; try discriminate H.
  apply andb_prop in H. destruct H as [H Hc].
  apply andb_prop in H. destruct H as [Hm Hp].
  apply negb_true_iff in Hc. apply negb_true_iff in Hp. eauto.
Qed.

(** C5, as amended.  Whatever the fallback scan assigns to an empty
    [videoUrl] is a matched string with '.mp4' in it and neither 'poster'
    nor 'cover': a candidate with either word is never selected by this
    scan.  (The og:video tag, contentUrl of structured data and the
    manifest fallback assign without this test, and the test reads the
    candidate before backslashes are stripped.) *)
Theorem fallback_scan_rejects_poster_and_cover :
  forall (fuel : nat) (html : jsstring) (videoUrl found : jsval),
    truthy videoUrl = false ->
    video_for fuel videoUrlPatterns html videoUrl = Done found ->
    truthy found = true ->
    exists s, found = VStr s /\
              includes s (lit ".mp4") = true /\
              includes s (lit "poster") = false /\
              includes s (lit "cover") = false.
Proof.
  intros fuel html videoUrl found Hempty Hscan Hset.
  apply video_for_result in Hscan. destruct Hscan as [->|Hacc].
  - congruence.
  - apply acceptable_inv. exact Hacc.
Qed.

Lemma fallback_scan_rejects_poster_and_cover_witness :
  video_for 3 videoUrlPatterns html_cover_then_video (VStr []) =
  Done (VStr (lit "https://cdn.example.com/v_123.mp4")) /\
  exists s, VStr (lit "https://cdn.example.com/v_123.mp4") = VStr s /\
            includes s (lit ".mp4") = true /\
            includes s (lit "poster") = false /\
            includes s (lit "cover") = false.
Proof.
  split; [vm_compute; reflexivity|].
  apply (@fallback_scan_rejects_poster_and_cover 3 html_cover_then_video
           (VStr [])).
  - reflexivity.
  - vm_compute. reflexivity.
  - reflexivity.
Defined.

(** C5 as stated fails: the example URL 'https://cdn.example.com/cover_123.mp4',
    quoted as the content of an og:video tag, becomes the descriptor's
    [videoUrl]. *)
Lemma cover_url_selected_from_og_video :
  fst (extractVideoInfoFromHtml 3 html_og_cover [] []) =
  Done (Some {| title := VStr (lit "Kuaishou Video");
                author := VStr (lit "Unknown");
                thumbnail := VStr [];
                videoUrl := VStr (lit "https://cdn.example.com/cover_123.mp4");
                audioUrl := VUndefined;
                quality := lit "720p";
                fileSize := [] |}) /\
  includes (lit "https://cdn.example.com/cover_123.mp4") (lit "cover") = true.
Proof. split; vm_compute; reflexivity. Qed.

(** ** C6: unescaping *)

Lemma startsWith_nil (s : jsstring) : startsWith s [] = true.
Proof. destruct s; reflexivity. Qed.

Lemma strip_backslashes_filter (s : jsstring) :
  replaceAll [backslash] [] s = filter (fun c => negb (N.eqb backslash c)) s.
Proof.
  unfold replaceAll. induction s as [|c s IH]; [reflexivity|].
  cbn [replaceAll_from filter startsWith List.length Nat.sub app].
  rewrite startsWith_nil, andb_true_r.
  destruct (N.eqb backslash c); cbn [negb]; rewrite IH; reflexivity.
Qed.

Lemma unescape_nil : unescape [] = [].
Proof. reflexivity. Qed.

Lemma unescape_u002F (s : jsstring) :
  unescape (backslash :: u002F ++ s) = chr "/" :: unescape s.
Proof.
  unfold unescape. rewrite !strip_backslashes_filter.
  unfold replaceAll.
  change u002F with [117; 48; 48; 50; 70]%N.
  cbn [app replaceAll_from startsWith List.length Nat.sub].
  rewrite startsWith_nil, N.eqb_refl.
  reflexivity.
Qed.

Lemma unescape_other (c : N) (s : jsstring) :
  c <> backslash -> unescape (c :: s) = c :: unescape s.
Proof.
  intros Hc. unfold unescape. rewrite !strip_backslashes_filter.
  unfold replaceAll. cbn [replaceAll_from startsWith].
  destruct (N.eqb backslash c) eqn:E.
  - apply N.eqb_eq in E. congruence.
  - cbn [andb filter]. rewrite E. reflexivity.
Qed.

Lemma unescape_lone_backslash (s : jsstring) :
  startsWith s u002F = false ->
  unescape (backslash :: s) = unescape s.
Proof.
  intros Hs. unfold unescape. rewrite !strip_backslashes_filter.
  unfold replaceAll. cbn [replaceAll_from startsWith]. rewrite Hs.
  reflexivity.
Qed.

Lemma unescape_no_backslash (s : jsstring) : ~ In backslash (unescape s).
Proof.
  unfold unescape. rewrite strip_backslashes_filter.
  intros Hin. apply filter_In in Hin. destruct Hin as [_ H].
  rewrite N.eqb_refl in H. discriminate H.
Qed.

Lemma finish_unescapes (v : vars) (a : jsval) (d : VideoInfo) :
  finish v a = Done (Some d) ->
  (exists s, v_videoUrl v = VStr s /\ videoUrl d = VStr (unescape s)) /\
  ((truthy (v_thumbnail v) = false /\ thumbnail d = v_thumbnail v) \/
   (exists s, v_thumbnail v = VStr s /\ thumbnail d = VStr (unescape s))) /\
  ((truthy a = false /\ audioUrl d = VUndefined) \/
   (exists s, a = VStr s /\ audioUrl d = js_or (VStr (unescape s)) VUndefined)).
Proof.
  unfold finish.
  destruct (unescape_if_set (v_videoUrl v)) as [vu| |] eqn:Hvu;
    cbn [bind]; try discriminate.
  destruct (unescape_if_set (v_thumbnail v)) as [th| |] eqn:Hth;
    cbn [bind]; try discriminate.
  destruct (truthy vu) eqn:Htr; cbn [negb]; try discriminate.
  destruct (unescape_if_set a) as [au| |] eqn:Hau;
    cbn [bind]; try discriminate.
  intros [= <-]. cbn [videoUrl thumbnail audioUrl].
  apply unescape_if_set_string in Hvu, Hth, Hau.
  split; [|split].
  - destruct Hvu as [[Hf ->]|[s [Hs ->]]]; [congruence|eauto].
  - destruct Hth as [[Hf ->]|[s [Hs ->]]]; [left|right]; eauto.
  - destruct Hau as [[Hf ->]|[s [Hs ->]]]; [left|right; eauto].
    split; [exact Hf|]. unfold js_or. rewrite Hf. reflexivity.
Qed.

(** C6.  In every descriptor returned, [videoUrl] is the unescaped form of
    the URL the cascade resolved, and so are [thumbnail] and [audioUrl]
    when they are set.  Unescaping reads the string left to right: the
    six characters backslash u 0 0 2 F give one slash, any other backslash
    gives nothing, every other character gives itself; so no backslash is
    left.  The literal with escaped slashes of the specification's example
    comes out as the plain URL. *)
Theorem post_processing_unescapes :
  (forall fuel html originalUrl log d,
      fst (extractVideoInfoFromHtml fuel html originalUrl log)
      = Done (Some d) ->
      exists v a,
        cascade fuel html = Done (v, a) /\
        (exists s, v_videoUrl v = VStr s /\ videoUrl d = VStr (unescape s)) /\
        ((truthy (v_thumbnail v) = false /\ thumbnail d = v_thumbnail v) \/
         (exists s, v_thumbnail v = VStr s /\
                    thumbnail d = VStr (unescape s))) /\
        ((truthy a = false /\ audioUrl d = VUndefined) \/
         (exists s, a = VStr s /\
                    audioUrl d = js_or (VStr (unescape s)) VUndefined))) /\
  (unescape [] = [] /\
   (forall s, unescape (backslash :: u002F ++ s) = chr "/" :: unescape s) /\
   (forall s, startsWith s u002F = false ->
              unescape (backslash :: s) = unescape s) /\
   (forall c s, c <> backslash -> unescape (c :: s) = c :: unescape s) /\
   (forall s, ~ In backslash (unescape s))) /\
  (unescape (lit "https:\/\/cdn.example.com\/v.mp4")
   = lit "https://cdn.example.com/v.mp4" /\
   exists d,
     fst (extractVideoInfoFromHtml 3 html_escaped [] []) = Done (Some d) /\
     videoUrl d = VStr (lit "https://cdn.example.com/v.mp4")).
Proof.
  split; [|split].
  - intros fuel html originalUrl log d Hd.
    apply extract_inv in Hd. destruct Hd as (v & a & Hc & Hf).
    exists v, a. split; [exact Hc|]. apply finish_unescapes. exact Hf.
  - split; [exact unescape_nil|].
    split; [exact unescape_u002F|].
    split; [exact unescape_lone_backslash|].
    split; [exact unescape_other|exact unescape_no_backslash].
  - split; [vm_compute; reflexivity|].
    eexists. split; vm_compute; reflexivity.
Qed.

(** ** C9 and C10: what the result depends on *)

(** A larger step budget never changes an answer already reached. *)
Lemma video_while_mono (f : nat) :
  forall (f' : nat) (pattern : RegExp) (html : jsstring) (v : jsval)
         (r : outcome jsval),
    f <= f' -> video_while f pattern html v = r -> r <> OutOfFuel ->
    video_while f' pattern html v = r.
Proof.
  induction f as [|f IH]; intros f' pattern html v r Hle H Hr.
  - cbn in H. congruence.
  - destruct f' as [|f']; [lia|].
    cbn [video_while] in *.
    destruct (RegExp_exec pattern html) as [[m|] pattern']; [|exact H].
    destruct (acceptable (at1 m)); [exact H|].
    apply IH; [lia|exact H|exact Hr].
Qed.

Lemma video_for_mono (f f' : nat) (html : jsstring) (patterns : list RegExp) :
  forall (v : jsval) (r : outcome jsval),
    f <= f' -> video_for f patterns html v = r -> r <> OutOfFuel ->
    video_for f' patterns html v = r.
Proof.
  induction patterns as [|pattern patterns IH]; intros v r Hle H Hr;
    [exact H|].
  cbn [video_for] in *.
  destruct (video_while f pattern html v) as [v1| |] eqn:Hw;
    cbn [bind] in H.
  - rewrite (@video_while_mono f f' pattern html v _ Hle Hw) by discriminate.
    cbn [bind]. destruct (truthy v1); [exact H|].
    apply IH; assumption.
  - rewrite (@video_while_mono f f' pattern html v _ Hle Hw) by discriminate.
    exact H.
  - congruence.
Qed.

Lemma scan_json_scripts_mono (f : nat) :
  forall (f' : nat) (pattern : RegExp) (html : jsstring) (v : vars)
         (r : outcome vars),
    f <= f' -> scan_json_scripts f pattern html v = r -> r <> OutOfFuel ->
    scan_json_scripts f' pattern html v = r.
Proof.
  induction f as [|f IH]; intros f' pattern html v r Hle H Hr.
  - cbn in H. congruence.
  - destruct f' as [|f']; [lia|].
    cbn [scan_json_scripts] in *.
    destruct (RegExp_exec pattern html) as [[m|] pattern']; [|exact H].
    destruct (try_catch (apply_json_block (at1 m) v) (fun _ => Done v))
      as [v1| |]; cbn [bind] in *; try exact H.
    apply IH; [lia|exact H|exact Hr].
Qed.

Lemma cascade_mono (f f' : nat) (html : jsstring)
  (r : outcome (vars * jsval)) :
  f <= f' -> cascade f html = r -> r <> OutOfFuel -> cascade f' html = r.
Proof.
  intros Hle H Hr. unfold cascade in *.
  destruct (title_from_tag html (VStr [])) as [t0| |]; cbn [bind] in *;
    try exact H.
  destruct (title_from_og html t0) as [t1| |]; cbn [bind] in *; try exact H.
  destruct (author_from_text html (VStr [])) as [au| |]; cbn [bind] in *;
    try exact H.
  match type of H with
  | bind ?c _ = _ => destruct c as [v1| |] eqn:Hscan; cbn [bind] in H
  end.
  - rewrite (@scan_json_scripts_mono f f' _ _ _ _ Hle Hscan) by discriminate.
    cbn [bind]. destruct (negb (truthy (v_videoUrl v1))); [|exact H].
    match type of H with
    | bind ?c _ = _ => destruct c as [vu| |] eqn:Hfor; cbn [bind] in H
    end.
    + rewrite (@video_for_mono f f' _ _ _ _ Hle Hfor) by discriminate.
      exact H.
    + rewrite (@video_for_mono f f' _ _ _ _ Hle Hfor) by discriminate.
      exact H.
    + congruence.
  - rewrite (@scan_json_scripts_mono f f' _ _ _ _ Hle Hscan) by discriminate.
    exact H.
  - congruence.
Qed.

Lemma extract_try_mono (f f' : nat) (html : jsstring)
  (r : outcome (option VideoInfo)) :
  f <= f' -> extract_try f html = r -> r <> OutOfFuel ->
  extract_try f' html = r.
Proof.
  intros Hle H Hr. unfold extract_try in *.
  destruct (cascade f html) as [x| |] eqn:Hc; cbn [bind] in H.
  - rewrite (@cascade_mono f f' _ _ Hle Hc) by discriminate. exact H.
  - rewrite (@cascade_mono f f' _ _ Hle Hc) by discriminate. exact H.
  - congruence.
Qed.

Lemma extract_mono (f f' : nat) (html originalUrl : jsstring)
  (log log' : console) (r : option VideoInfo) :
  f <= f' ->
  fst (extractVideoInfoFromHtml f html originalUrl log) = Done r ->
  fst (extractVideoInfoFromHtml f' html originalUrl log') = Done r.
Proof.
  intros Hle. unfold extractVideoInfoFromHtml.
  destruct (extract_try f html) as [x| |] eqn:He; cbn [fst];
    try discriminate;
    rewrite (@extract_try_mono f f' _ _ Hle He) by discriminate;
    cbn [fst]; auto.
Qed.

(** C10.  The second parameter is never read: for every page, step budget
    and console, any two original URLs give the same result and the same
    console. *)
Theorem extraction_ignores_original_url :
  forall (fuel : nat) (html u1 u2 : jsstring) (log : console),
    extractVideoInfoFromHtml fuel html u1 log =
    extractVideoInfoFromHtml fuel html u2 log.
Proof. intros fuel html u1 u2 log. reflexivity. Qed.

(** ** When the extraction returns *)

Lemma JSON_parse_answers (x : jsval) : JSON_parse x <> OutOfFuel.
Proof.
  unfold JSON_parse, JSON.parse. destruct x; try discriminate.
  destruct (JSON.parse_value _ s) as [[v after]|]; [|discriminate].
  destruct (JSON.skip_ws after); discriminate.
Qed.

Lemma get_answers (v : jsval) (k : jsstring) : get v k <> OutOfFuel.
Proof. destruct v; discriminate. Qed.

Lemma get_opt_answers (v : jsval) (k : jsstring) : get_opt v k <> OutOfFuel.
Proof. destruct v; discriminate. Qed.

Lemma on_string_answers {A} (v : jsval) (m : jsstring -> A) :
  on_string v m <> OutOfFuel.
Proof. destruct v; discriminate. Qed.

Lemma bind_answers {A B} (c : outcome A) (f : A -> outcome B) :
  c <> OutOfFuel -> (forall a, f a <> OutOfFuel) -> bind c f <> OutOfFuel.
Proof. intros Hc Hf. destruct c; cbn; [apply Hf|discriminate|congruence]. Qed.

Lemma apply_json_block_answers (text : jsval) (v : vars) :
  apply_json_block text v <> OutOfFuel.
Proof.
  unfold apply_json_block.
  repeat (apply bind_answers;
          [first [apply JSON_parse_answers | apply get_answers
                 | apply get_opt_answers] | intros ?]).
  discriminate.
Qed.

(** The scan of script blocks ends: every match of its pattern moves
    [lastIndex] forward. *)
Lemma scan_json_scripts_terminates (fuel : nat) :
  forall (pattern : RegExp) (html : jsstring) (v : vars),
    global pattern = true -> nonempty (source pattern) = true ->
    List.length html - lastIndex pattern < fuel ->
    exists v', scan_json_scripts fuel pattern html v = Done v'.
Proof.
  induction fuel as [|fuel IH]; intros pattern html v Hg Hne Hfuel; [lia|].
  cbn [scan_json_scripts].
  destruct (RegExp_exec pattern html) as [[m|] pattern'] eqn:Hexec.
  - apply (RegExp_exec_advances _ _ Hg Hne) in Hexec.
    destruct Hexec as (Hadv & Hlen & Hg' & Hsrc).
    pose proof (apply_json_block_answers (at1 m) v) as Hans.
    destruct (apply_json_block (at1 m) v) as [v1| |]; cbn [try_catch bind];
      [| |congruence];
      apply IH; try assumption; try (rewrite Hsrc; assumption); lia.
  - eauto.
Qed.

Lemma video_while_global_terminates (fuel : nat) :
  forall (pattern : RegExp) (html : jsstring) (videoUrl : jsval),
    global pattern = true -> nonempty (source pattern) = true ->
    List.length html - lastIndex pattern < fuel ->
    exists found, video_while fuel pattern html videoUrl = Done found.
Proof.
  induction fuel as [|fuel IH]; intros pattern html v Hg Hne Hfuel; [lia|].
  cbn [video_while].
  destruct (RegExp_exec pattern html) as [[m|] pattern'] eqn:Hexec.
  - apply (RegExp_exec_advances _ _ Hg Hne) in Hexec.
    destruct Hexec as (Hadv & Hlen & Hg' & Hsrc).
    destruct (acceptable (at1 m)); [eauto|].
    apply IH; try assumption; try (rewrite Hsrc; assumption); lia.
  - eauto.
Qed.

(** Without the [g] flag the loop either ends at once or never. *)
Lemma video_while_key_pattern (fuel : nat) (r : regex) (html : jsstring)
  (videoUrl : jsval) :
  (exists found,
      video_while (S fuel) (RegExp_literal r false) html videoUrl
      = Done found) \/
  (exists m, String_match html r = Some m /\ acceptable (at1 m) = false).
Proof.
  cbn [video_while]. unfold String_match.
  destruct (RegExp_exec (RegExp_literal r false) html) as [[m|] pattern'];
    cbn [fst].
  - destruct (acceptable (at1 m)) eqn:Hacc; [left; eauto|right; eauto].
  - left. eauto.
Qed.

Lemma bind_OutOfFuel {A B} (c : outcome A) (f : A -> outcome B) :
  bind c f = OutOfFuel ->
  c = OutOfFuel \/ exists a, c = Done a /\ f a = OutOfFuel.
Proof. destruct c; cbn; [eauto|discriminate|auto]. Qed.

Lemma video_for_OutOfFuel (fuel : nat) (html : jsstring) (videoUrl : jsval) :
  List.length html < fuel ->
  video_for fuel videoUrlPatterns html videoUrl = OutOfFuel ->
  trapped html.
Proof.
  intros Hfuel. destruct fuel as [|fuel]; [lia|].
  unfold videoUrlPatterns. cbn [video_for].
  destruct (@video_while_global_terminates (S fuel)
              (RegExp_literal (re_quoted_url "mp4") true) html videoUrl
              eq_refl eq_refl ltac:(cbn [lastIndex RegExp_literal]; lia))
    as [v1 ->].
  cbn [bind]. destruct (truthy v1); [discriminate|].
  destruct (@video_while_global_terminates (S fuel)
              (RegExp_literal re_quoted_video_url true) html v1
              eq_refl eq_refl ltac:(cbn [lastIndex RegExp_literal]; lia))
    as [v2 ->].
  cbn [bind]. destruct (truthy v2); [discriminate|].
  destruct (video_while_key_pattern fuel (re_key "videoUrl") html v2)
    as [[v3 ->]|(m & Hm & Hrej)];
    [|intros _; exists "videoUrl"%string, m; cbn [In]; auto].
  cbn [bind]. destruct (truthy v3); [discriminate|].
  destruct (video_while_key_pattern fuel (re_key "playUrl") html v3)
    as [[v4 ->]|(m & Hm & Hrej)];
    [|intros _; exists "playUrl"%string, m; cbn [In]; auto].
  cbn [bind]. destruct (truthy v4); [discriminate|].
  destruct (video_while_key_pattern fuel (re_key "srcNoMark") html v4)
    as [[v5 ->]|(m & Hm & Hrej)];
    [|intros _; exists "srcNoMark"%string, m; cbn [In]; auto].
  cbn [bind]. destruct (truthy v5); discriminate.
Qed.

Lemma title_from_tag_answers (html : jsstring) (t : jsval) :
  title_from_tag html t <> OutOfFuel.
Proof.
  unfold title_from_tag. destruct (String_match html re_title);
    [apply on_string_answers|discriminate].
Qed.

Lemma title_from_og_answers (html : jsstring) (t : jsval) :
  title_from_og html t <> OutOfFuel.
Proof.
  unfold title_from_og. destruct (og_match html og_title);
    [apply on_string_answers|discriminate].
Qed.

Lemma author_from_text_answers (html : jsstring) (a : jsval) :
  author_from_text html a <> OutOfFuel.
Proof.
  unfold author_from_text. destruct (author_match html);
    [apply on_string_answers|discriminate].
Qed.

Lemma unescape_if_set_answers (x : jsval) : unescape_if_set x <> OutOfFuel.
Proof.
  unfold unescape_if_set. destruct (truthy x);
    [apply on_string_answers|discriminate].
Qed.

Lemma finish_answers (v : vars) (a : jsval) : finish v a <> OutOfFuel.
Proof.
  unfold finish.
  apply bind_answers; [apply unescape_if_set_answers|intros vu].
  apply bind_answers; [apply unescape_if_set_answers|intros th].
  destruct (negb (truthy vu)); [discriminate|].
  apply bind_answers; [apply unescape_if_set_answers|discriminate].
Qed.

Lemma cascade_OutOfFuel (fuel : nat) (html : jsstring) :
  List.length html < fuel -> cascade fuel html = OutOfFuel -> trapped html.
Proof.
  intros Hfuel H. unfold cascade in H.
  apply bind_OutOfFuel in H. destruct H as [H|(t0 & _ & H)];
    [exfalso; exact (title_from_tag_answers _ _ H)|].
  apply bind_OutOfFuel in H. destruct H as [H|(t1 & _ & H)];
    [exfalso; exact (title_from_og_answers _ _ H)|].
  apply bind_OutOfFuel in H. destruct H as [H|(au & _ & H)];
    [exfalso; exact (author_from_text_answers _ _ H)|].
  apply bind_OutOfFuel in H. destruct H as [H|(v1 & _ & H)].
  - exfalso.
    match type of H with
    | scan_json_scripts fuel ?p html ?v = _ =>
        destruct (@scan_json_scripts_terminates fuel p html v eq_refl eq_refl
                    ltac:(cbn [lastIndex RegExp_literal]; lia)) as [v' Hv]
    end.
    congruence.
  - apply bind_OutOfFuel in H. destruct H as [H|(vu & _ & H)];
      [|discriminate H].
    destruct (negb (truthy (v_videoUrl v1))); [|discriminate H].
    eapply video_for_OutOfFuel; eassumption.
Qed.

(** On every page that is not [trapped], a step budget above the length of
    the page is enough for the call to return. *)
Lemma extraction_returns_unless_trapped (fuel : nat)
  (html originalUrl : jsstring) (log : console) :
  List.length html < fuel ->
  (exists r, fst (extractVideoInfoFromHtml fuel html originalUrl log) = Done r)
  \/ trapped html.
Proof.
  intros Hfuel. unfold extractVideoInfoFromHtml.
  destruct (extract_try fuel html) as [r|e|] eqn:He; cbn [fst]; eauto.
  right. unfold extract_try in He. apply bind_OutOfFuel in He.
  destruct He as [He|(x & _ & He)].
  - eapply cascade_OutOfFuel; eassumption.
  - exfalso. exact (finish_answers _ _ He).
Qed.

(** ** The fetcher and the relay *)

Section ServerProperties.

Variable World : Type.
Variable random_below : nat -> World -> nat * World.
Variable fetch : Request -> World -> option Response * World.
Variable URL_href : jsstring -> jsstring -> option jsstring.

Local Abbreviation loop := (redirect_loop random_below fetch URL_href).
Local Abbreviation hops := (Hops random_below fetch URL_href).
Local Abbreviation one_hop := (hop random_below fetch).
Local Abbreviation next := (next_url URL_href).

Lemma redirect_loop_step (n : nat) (url : jsstring) (prev : option Response)
  (w : World) :
  loop (S n) url prev w =
  match one_hop url w with
  | (None, w2) => (Throw NetworkError, w2)
  | (Some r, w2) =>
      match next r url with
      | Done (Some u) => loop n u (Some r) w2
      | Done None => (Done (Some r), w2)
      | Throw e => (Throw e, w2)
      | OutOfFuel => (OutOfFuel, w2)
      end
  end.
Proof.
  cbn [redirect_loop]. unfold hop.
  destruct (getHeaders random_below url w) as [hs w1]. reflexivity.
Qed.

Lemma next_url_answers (r : Response) (url : jsstring) :
  next r url <> OutOfFuel.
Proof.
  unfold next_url.
  destruct (Z.leb 300 (status r) && Z.ltb (status r) 400); [|discriminate].
  destruct (Headers_get (headers r) (lit "location")) as [[|c l]|];
    try discriminate.
  destruct (startsWith (c :: l) (lit "http")); [discriminate|].
  destruct (URL_href (c :: l) url); discriminate.
Qed.

Lemma status_3xx_true (r : Response) :
  Z.leb 300 (status r) && Z.ltb (status r) 400 = true <->
  (300 <= status r < 400)%Z.
Proof.
  rewrite andb_true_iff, Z.leb_le, Z.ltb_lt. tauto.
Qed.

(** The loop body follows exactly the redirects of the specification. *)
Lemma next_url_follows (r : Response) (url u : jsstring) :
  next r url = Done (Some u) <-> redirects_to URL_href r url u.
Proof.
  unfold next_url, redirects_to. split.
  - destruct (Z.leb 300 (status r) && Z.ltb (status r) 400) eqn:H3;
      [|discriminate].
    apply status_3xx_true in H3.
    destruct (Headers_get (headers r) (lit "location")) as [[|c l]|];
      try discriminate.
    destruct (startsWith (c :: l) (lit "http")) eqn:Habs.
    + intros [= <-]. split; [exact H3|]. exists (c :: l).
      repeat split; try discriminate. left. auto.
    + destruct (URL_href (c :: l) url) as [href|] eqn:Href;
        [|discriminate].
      intros [= <-]. split; [exact H3|]. exists (c :: l).
      repeat split; try discriminate. right. auto.
  - intros (H3 & location & Hget & Hne & Hto).
    apply status_3xx_true in H3. rewrite H3, Hget.
    destruct location as [|c l]; [congruence|].
    destruct Hto as [[-> ->]|[-> ->]]; reflexivity.
Qed.

Lemma next_url_final (r : Response) (url : jsstring) :
  next r url = Done None <-> final r.
Proof.
  unfold next_url, final. rewrite <- status_3xx_true.
  destruct (Z.leb 300 (status r) && Z.ltb (status r) 400).
  - destruct (Headers_get (headers r) (lit "location")) as [[|c l]|].
    + split; auto.
    + split.
      * destruct (startsWith (c :: l) (lit "http")); [discriminate|].
        destruct (URL_href (c :: l) url); discriminate.
      * intros [H|[H|H]]; congruence.
    + split; auto.
  - split; [|reflexivity]. intros _. left. discriminate.
Qed.

(** Where the response returned by the loop comes from. *)
Lemma redirect_loop_sound (n : nat) :
  forall (url : jsstring) (prev : option Response) (w : World)
         (r : Response) (w' : World),
    loop n url prev w = (Done (Some r), w') ->
    (n = 0 /\ prev = Some r /\ w' = w) \/
    exists k uk,
      1 <= k <= n /\ hops k url w uk r w' /\
      (final r \/ (k = n /\ exists u', redirects_to URL_href r uk u')).
Proof.
  induction n as [|n IH]; intros url prev w r w' H.
  - cbn in H. injection H as -> ->. left. auto.
  - right. rewrite redirect_loop_step in H.
    destruct (one_hop url w) as [[r0|] w0] eqn:Hhop; [|discriminate H].
    destruct (next r0 url) as [[u|]| |] eqn:Hnext; try discriminate H.
    + apply next_url_follows in Hnext. apply IH in H.
      destruct H as [(-> & [= ->] & ->)|(k & uk & Hk & Hh & Hfin)].
      * exists 1, url. split; [lia|]. split; [constructor; exact Hhop|].
        right. split; [reflexivity|]. exists u. exact Hnext.
      * exists (S k), uk. split; [lia|].
        split; [econstructor; eassumption|].
        destruct Hfin as [Hfin|[-> Hfin]]; [left; exact Hfin|].
        right. split; [reflexivity|exact Hfin].
    + apply next_url_final in Hnext. injection H as -> ->.
      exists 1, url. split; [lia|]. split; [constructor; exact Hhop|].
      left. exact Hnext.
Qed.

Lemma redirect_loop_complete (k : nat) (url : jsstring) (w : World)
  (uk : jsstring) (r : Response) (w' : World) :
  hops k url w uk r w' ->
  forall (n : nat) (prev : option Response),
    k <= n ->
    (final r \/ (k = n /\ exists u', redirects_to URL_href r uk u')) ->
    loop n url prev w = (Done (Some r), w').
Proof.
  induction 1 as [url w r w' Hhop|k url w r0 w0 u uk r w' Hhop Hnext Hh IH];
    intros n prev Hle Hfin.
  - destruct n as [|n]; [lia|]. rewrite redirect_loop_step, Hhop.
    destruct Hfin as [Hfin|[Hn [u' Hfin]]].
    + apply (next_url_final r url) in Hfin. rewrite Hfin. reflexivity.
    + apply next_url_follows in Hfin. rewrite Hfin.
      injection Hn as <-. reflexivity.
  - destruct n as [|n]; [lia|].
    apply next_url_follows in Hnext.
    rewrite redirect_loop_step, Hhop, Hnext.
    apply IH; [lia|].
    destruct Hfin as [Hfin|[Hn Hfin]]; [left; exact Hfin|].
    right. split; [lia|exact Hfin].
Qed.

(** With a network that always answers and Locations that always resolve,
    the loop ends with a response as soon as it has one to return. *)
Lemma redirect_loop_total (n : nat) :
  (forall req w0, fst (fetch req w0) <> None) ->
  (forall l b, URL_href l b <> None) ->
  forall (url : jsstring) (prev : option Response) (w : World),
    1 <= n \/ prev <> None ->
    exists r w', loop n url prev w = (Done (Some r), w').
Proof.
  intros Hnet Hurl. induction n as [|n IH]; intros url prev w Hsome.
  - destruct Hsome as [Hn|Hp]; [lia|].
    destruct prev as [r|]; [|congruence]. exists r, w. reflexivity.
  - rewrite redirect_loop_step. unfold hop.
    destruct (getHeaders random_below url w) as [hs w1].
    pose proof (Hnet {| req_url := url; req_headers := hs;
                        req_redirect_manual := true |} w1) as Hf.
    destruct (fetch _ w1) as [[r0|] w0]; cbn [fst] in Hf; [|congruence].
    destruct (next r0 url) as [[u|]| |] eqn:Hnext.
    + apply IH. right. discriminate.
    + exists r0, w0. reflexivity.
    + exfalso. unfold next_url in Hnext.
      destruct (Z.leb 300 (status r0) && Z.ltb (status r0) 400);
        [|discriminate].
      destruct (Headers_get (headers r0) (lit "location")) as [[|c l]|];
        try discriminate.
      destruct (startsWith (c :: l) (lit "http")); [discriminate|].
      pose proof (Hurl (c :: l) url).
      destruct (URL_href (c :: l) url); [discriminate|congruence].
    + exfalso. exact (next_url_answers r0 url Hnext).
Qed.

(** The loop leaves [response] null only when it never ran, and the only
    errors it throws are the network's and the URL constructor's. *)
Lemma redirect_loop_response (n : nat) :
  forall (url : jsstring) (prev : option Response) (w : World),
    match fst (loop n url prev w) with
    | Done x => (n = 0 /\ x = prev) \/ x <> None
    | Throw e => e = NetworkError \/ e = TypeError
    | OutOfFuel => False
    end.
Proof.
  induction n as [|n IH]; intros url prev w.
  - cbn. left. auto.
  - rewrite redirect_loop_step.
    destruct (one_hop url w) as [[r0|] w0]; [|cbn; auto].
    destruct (next r0 url) as [[u|]| |] eqn:Hnext.
    + specialize (IH u (Some r0) w0).
      destruct (fst (loop n u (Some r0) w0)) as [x| |]; [|exact IH ..].
      right. destruct IH as [[_ ->]|Hx]; [discriminate|exact Hx].
    + cbn. right. discriminate.
    + cbn. unfold next_url in Hnext.
      destruct (Z.leb 300 (status r0) && Z.ltb (status r0) 400);
        [|discriminate].
      destruct (Headers_get (headers r0) (lit "location")) as [[|c l]|];
        try discriminate.
      destruct (startsWith (c :: l) (lit "http")); [discriminate|].
      destruct (URL_href (c :: l) url); [discriminate|].
      injection Hnext as <-. auto.
    + exact (next_url_answers r0 url Hnext).
Qed.


(** C8.  For every URL and every bound of at least 1, the error 'Failed to
    fetch URL' is never raised: a loop that runs to its exit has a
    response in hand, and what it can throw before is only a rejected
    fetch or a Location the URL constructor refuses. *)
Theorem no_response_error_unreachable :
  forall (url : jsstring) (maxRedirects : Z) (w : World),
    (1 <= maxRedirects)%Z ->
    (forall message,
        fst (fetchWithRedirects random_below fetch URL_href url
               maxRedirects w) <> Throw (Error message)) /\
    (forall x w',
        loop (Z.to_nat maxRedirects) url None w = (Done x, w') ->
        x <> None).
Proof.
  intros url maxRedirects w Hmax.
  pose proof (redirect_loop_response (Z.to_nat maxRedirects) url None w)
    as Hresp.
  split.
  - intros message. unfold fetchWithRedirects.
    destruct (loop (Z.to_nat maxRedirects) url None w)
      as [[[x|]| |] w1]; cbn [fst] in *; try discriminate.
    + destruct Hresp as [[Hz _]|Hx]; [lia|congruence].
    + destruct Hresp as [->| ->]; discriminate.
  - intros x w' Hloop. rewrite Hloop in Hresp. cbn [fst] in Hresp.
    destruct Hresp as [[Hz _]|Hx]; [lia|exact Hx].
Qed.

(** C7.  When the upstream fetch answers with a status outside 200..299,
    the relay sets that very status on its own response, sends a JSON
    body with an error message, and forwards nothing: no header of the
    media response is set and no chunk of the upstream body is written. *)
Theorem relay_reports_upstream_status :
  forall (url : jsstring) (type : jsval) (res : ServerResponse)
         (log : console) (w : World) (upstream : Response) (w' : World),
    url <> [] ->
    (let (hs, w1) := getHeaders random_below url w in
     fetch {| req_url := url; req_headers := hs;
              req_redirect_manual := false |} w1) = (Some upstream, w') ->
    ok upstream = false ->
    let '(res', log', w'') :=
      download random_below fetch (VStr url) type res log w in
    statusCode res' = status upstream /\
    json_body res' = Some (error_body "Failed to download file") /\
    written res' = written res /\
    out_headers res' = out_headers res /\
    ended res' = true /\
    log' = log /\ w'' = w'.
Proof.
  intros url type res log w upstream w' Hurl Hfetch Hok.
  destruct url as [|c u]; [congruence|].
  unfold download.
  destruct (getHeaders random_below (c :: u) w) as [hs w1].
  rewrite Hfetch, Hok. cbn. repeat split; reflexivity.
Qed.

End ServerProperties.


(** Three redirects and then a 200, with the default bound: the 200 is
    returned after four requests. *)
Example three_redirects_then_200 :
  fetchWithRedirects first_agent (chain_fetch 3) no_resolution (page 0) 5 0
  = (Done final_page, 4).
Proof. vm_compute. reflexivity. Qed.


Lemma no_response_error_unreachable_witness :
  (1 <= 5)%Z /\
  forall message,
    fst (fetchWithRedirects first_agent (chain_fetch 10) no_resolution
           (page 0) 5 0) <> Throw (Error message).
Proof.
  split; [lia|].
  apply (@no_response_error_unreachable nat first_agent (chain_fetch 10)
           no_resolution (page 0) 5%Z 0).
  lia.
Defined.

(** A 404 upstream with a three-byte body: the caller gets 404, a JSON
    error, and none of the three bytes. *)
Lemma relay_reports_upstream_status_witness :
  let '(res', log', w'') :=
    download first_agent fetch_404
      (VStr (lit "https://cdn.example.com/v.mp4")) VUndefined
      fresh_response [] 0 in
  statusCode res' = 404%Z /\
  json_body res' = Some (error_body "Failed to download file") /\
  written res' = [] /\
  out_headers res' = [] /\
  ended res' = true /\
  log' = [] /\ w'' = 1.
Proof.
  apply (@relay_reports_upstream_status nat first_agent fetch_404
           (lit "https://cdn.example.com/v.mp4") VUndefined fresh_response
           [] 0 not_found_upstream 1).
  - vm_compute. discriminate.
  - vm_compute. reflexivity.
  - vm_compute. reflexivity.
Defined.

(** ** Further sample runs *)

(** The suffix pattern knows the hyphen and the bar, not the em dash: a
    title element on its own keeps an em-dashed platform name. *)
Example title_suffix_stripped_after_hyphen_only :
  title_from_tag (lit "<title>B - " ++ [0x5FEB; 0x624B]%N ++ lit "</title>")
    (VStr []) = Done (VStr (lit "B")) /\
  title_from_tag
    (lit "<title>B " ++ [0x2014; 0x20; 0x5FEB; 0x624B]%N ++ lit "</title>")
    (VStr []) = Done (VStr (lit "B " ++ [0x2014; 0x20; 0x5FEB; 0x624B]%N)).
Proof. split; vm_compute; reflexivity. Qed.

(** Why the pattern objects must be fresh: the same scan with an object
    whose [lastIndex] a previous use left behind misses the URL. *)
Example stale_pattern_object_misses_match :
  video_while 3 (RegExp_literal (re_quoted_url "mp4") true)
    html_cover_then_video (VStr [])
  = Done (VStr (lit "https://cdn.example.com/v_123.mp4")) /\
  video_while 3
    (set_lastIndex (RegExp_literal (re_quoted_url "mp4") true) 60)
    html_cover_then_video (VStr [])
  = Done (VStr []).
Proof. split; vm_compute; reflexivity. Qed.

(** The manifest key is found by the pattern for playUrl first. *)
Example hlsPlayUrl_is_matched_by_playUrl :
  option_map at1 (String_match html_hls (re_key "playUrl"))
  = Some (VStr (lit "https://cdn.example.com/stream.m3u8")) /\
  acceptable (VStr (lit "https://cdn.example.com/stream.m3u8")) = false /\
  trapped html_hls.
Proof.
  split; [vm_compute; reflexivity|]. split; [vm_compute; reflexivity|].
  exists "playUrl"%string. eexists. split; [cbn; auto|].
  split; vm_compute; reflexivity.
Qed.

(** * Further properties of the code *)

(** ** Captures are strings *)

Lemma star_iter_keeps_cap (greedy : bool)
  (body : mstate -> (mstate -> option mstate) -> option mstate)
  (k : mstate -> option mstate) :
  (forall st k' res, body st k' = Some res ->
     exists st', k' st' = Some res /\ (is_string (cap st) -> is_string (cap st'))) ->
  forall (n : nat) (st res : mstate),
    star_iter greedy body k n st = Some res ->
    exists st', k st' = Some res /\ (is_string (cap st) -> is_string (cap st')).
Proof.
  intros Hbody. induction n as [|n IHn]; intros st res H.
  - exists st. auto.
  - cbn [star_iter] in H. cbn zeta in H.
    assert (Hagain : forall res',
               body st (fun st' => if Nat.ltb (pos st) (pos st')
                                   then star_iter greedy body k n st'
                                   else None) = Some res' ->
               exists st', k st' = Some res' /\
                           (is_string (cap st) -> is_string (cap st'))).
    { intros res' Hr. apply Hbody in Hr. destruct Hr as (st1 & Hr & H1).
      destruct (Nat.ltb (pos st) (pos st1)); [|discriminate].
      apply IHn in Hr. destruct Hr as (st2 & Hr & H2).
      exists st2. auto. }
    destruct greedy.
    + match type of H with
      | match ?c with _ => _ end = _ => destruct c as [res'|] eqn:Hc
      end.
      * injection H as <-. apply Hagain. reflexivity.
      * exists st. auto.
    + destruct (k st) as [res'|] eqn:Hk.
      * injection H as <-. exists st. auto.
      * apply Hagain. exact H.
Qed.

(** Once set, the capture stays a string; a pattern in which the group
    takes part in every match sets it. *)
Lemma rmatch_cap (r : regex) :
  forall (st : mstate) (k : mstate -> option mstate) (res : mstate),
    rmatch r st k = Some res ->
    exists st', k st' = Some res /\
                (has_group r = true \/ is_string (cap st) ->
                 is_string (cap st')).
Proof.
  induction r as [|p|a IHa b IHb|a IHa b IHb|greedy a IHa|a IHa|];
    intros st k res H; cbn [rmatch] in H; cbn [has_group].
  - exists st. split; [exact H|]. intros [Hf|Hs]; [discriminate|exact Hs].
  - destruct (rest st) as [|c s']; [discriminate|].
    destruct (p c); [|discriminate].
    eexists. split; [exact H|]. cbn [cap].
    intros [Hf|Hs]; [discriminate|exact Hs].
  - apply IHa in H. destruct H as (st1 & H & H1).
    apply IHb in H. destruct H as (st2 & H & H2).
    exists st2. split; [exact H|]. intros [Hg|Hs].
    + apply orb_prop in Hg. destruct Hg as [Hg|Hg]; auto.
    + auto.
  - destruct (rmatch a st k) as [res'|] eqn:Ha.
    + injection H as <-. apply IHa in Ha. destruct Ha as (st1 & Ha & H1).
      exists st1. split; [exact Ha|]. intros [Hf|Hs]; [discriminate|auto].
    + apply IHb in H. destruct H as (st1 & H & H1).
      exists st1. split; [exact H|]. intros [Hf|Hs]; [discriminate|auto].
  - apply star_iter_keeps_cap in H.
    + destruct H as (st1 & H & H1). exists st1. split; [exact H|].
      intros [Hf|Hs]; [discriminate|auto].
    + intros st0 k' res' Hb. apply IHa in Hb. destruct Hb as (st1 & Hb & H1).
      exists st1. auto.
  - apply IHa in H. destruct H as (st1 & H & H1).
    eexists. split; [exact H|]. intros _. cbn [cap]. eexists. reflexivity.
  - destruct (rest st); [|discriminate].
    exists st. split; [exact H|]. intros [Hf|Hs]; [discriminate|exact Hs].
Qed.

Lemma search_group (r : regex) (s : jsstring) :
  has_group r = true ->
  forall (i : nat) (m : MatchResult),
    search r i s = Some m -> is_string (group1 m).
Proof.
  intros Hg. induction s as [|c s IH]; intros i m H; cbn [search] in H.
  - destruct (rmatch r _ Some) as [st'|] eqn:Hm; [|discriminate].
    apply rmatch_cap in Hm. destruct Hm as (st1 & [= ->] & Hs).
    injection H as <-. cbn [group1]. auto.
  - destruct (rmatch r _ Some) as [st'|] eqn:Hm.
    + apply rmatch_cap in Hm. destruct Hm as (st1 & [= ->] & Hs).
      injection H as <-. cbn [group1]. auto.
    + eapply IH. exact H.
Qed.

Lemma exec_group (R R' : RegExp) (S : jsstring) (m : MatchResult) :
  has_group (source R) = true ->
  RegExp_exec R S = (Some m, R') -> is_string (at1 m).
Proof.
  intros Hg. unfold RegExp_exec.
  destruct (Nat.ltb (List.length S) _); [discriminate|].
  destruct (search (source R) _ _) as [m'|] eqn:Hs; [|discriminate].
  intros [= -> _]. eapply search_group; eassumption.
Qed.

Lemma String_match_group (S : jsstring) (r : regex) (m : MatchResult) :
  has_group r = true -> String_match S r = Some m -> is_string (at1 m).
Proof.
  intros Hg Hm. unfold String_match in Hm.
  destruct (RegExp_exec (RegExp_literal r false) S) as [m' R'] eqn:He.
  cbn [fst] in Hm. subst m'. eapply exec_group; [|exact He]. exact Hg.
Qed.

Lemma og_match_group (html : jsstring) (name : regex) (m : MatchResult) :
  has_group name = false ->
  og_match html name = Some m -> is_string (at1 m).
Proof.
  intros Hn. unfold og_match, orElse.
  destruct (String_match html (re_og_property_first name)) as [m1|] eqn:H1.
  - intros [= <-]. eapply String_match_group; [|exact H1].
    unfold re_og_property_first. cbn. rewrite Hn. reflexivity.
  - intros H2. eapply String_match_group; [|exact H2].
    unfold re_og_content_first. cbn. reflexivity.
Qed.

Unset Implicit Arguments.

(** The steps before the structured-data scan never throw: what their
    patterns capture is always a string. *)
Lemma title_from_tag_done (html : jsstring) (t : jsval) :
  exists t', title_from_tag html t = Done t'.
Proof.
  unfold title_from_tag.
  destruct (String_match html re_title) as [m|] eqn:Hm; [|eauto].
  destruct (String_match_group html re_title eq_refl Hm) as [s ->].
  cbn. eauto.
Qed.

Lemma title_from_og_done (html : jsstring) (t : jsval) :
  exists t', title_from_og html t = Done t'.
Proof.
  unfold title_from_og.
  destruct (og_match html og_title) as [m|] eqn:Hm; [|eauto].
  destruct (og_match_group html og_title eq_refl Hm) as [s ->].
  cbn. eauto.
Qed.

Lemma author_match_group (html : jsstring) (m : MatchResult) :
  author_match html = Some m -> is_string (at1 m).
Proof.
  unfold author_match, orElse.
  destruct (String_match html re_author_by) eqn:H1;
    [intros [= <-]; exact (String_match_group html re_author_by eq_refl H1)|].
  destruct (String_match html (re_json_string_key "author")) eqn:H2;
    [intros [= <-];
     exact (String_match_group html (re_json_string_key "author")
              eq_refl H2)|].
  destruct (String_match html (re_json_string_key "userName")) eqn:H3;
    [intros [= <-];
     exact (String_match_group html (re_json_string_key "userName")
              eq_refl H3)|].
  intros H4.
  exact (String_match_group html (re_json_string_key "name") eq_refl H4).
Qed.

Lemma author_from_text_done (html : jsstring) (a : jsval) :
  exists a', author_from_text html a = Done a'.
Proof.
  unfold author_from_text.
  destruct (author_match html) as [m|] eqn:Hm; [|eauto].
  destruct (author_match_group html m Hm) as [s ->].
  cbn. eauto.
Qed.

Lemma fst_exec_literal (r : regex) (g : bool) (S : jsstring) :
  fst (RegExp_exec (RegExp_literal r g) S) = String_match S r.
Proof.
  unfold String_match, RegExp_exec, RegExp_literal. cbn [global lastIndex source].
  destruct g; cbn [Nat.ltb Nat.leb];
    destruct (search r 0 (skipn 0 S)); reflexivity.
Qed.

(** The scan of script blocks on a page without any. *)
Lemma scan_json_scripts_no_block (fuel : nat) (html : jsstring) (v : vars) :
  String_match html re_json_script = None ->
  scan_json_scripts (S fuel) (RegExp_literal re_json_script true) html v
  = Done v.
Proof.
  intros H. apply scan_json_scripts_no_match.
  rewrite fst_exec_literal. exact H.
Qed.

(** The stages of the cascade, without the cases that cannot arise. *)
Lemma cascade_stages (fuel : nat) (html : jsstring) :
  exists t0 t1 au,
    title_from_tag html (VStr []) = Done t0 /\
    title_from_og html t0 = Done t1 /\
    author_from_text html (VStr []) = Done au /\
    cascade fuel html =
    (v <- scan_json_scripts fuel (RegExp_literal re_json_script true) html
            {| v_title := t1; v_author := au;
               v_thumbnail := thumbnail_from_og html (VStr []);
               v_videoUrl := videoUrl_from_og html (VStr []) |} ;;
     videoUrl <- (if negb (truthy (v_videoUrl v))
                  then video_for fuel videoUrlPatterns html (v_videoUrl v)
                  else Done (v_videoUrl v)) ;;
     Done ({| v_title := v_title v; v_author := v_author v;
              v_thumbnail :=
                (if negb (truthy (v_thumbnail v))
                 then first_capture imgPatterns html (v_thumbnail v)
                 else v_thumbnail v);
              v_videoUrl :=
                (if negb (truthy videoUrl)
                 then first_capture m3u8Patterns html videoUrl
                 else videoUrl) |},
           first_capture audioUrlPatterns html (VStr []))).
Proof.
  destruct (title_from_tag_done html (VStr [])) as [t0 H0].
  destruct (title_from_og_done html t0) as [t1 H1].
  destruct (author_from_text_done html (VStr [])) as [au H2].
  exists t0, t1, au. repeat split; try assumption.
  unfold cascade. rewrite H0. cbn [bind]. rewrite H1. cbn [bind].
  rewrite H2. reflexivity.
Qed.

(** ** More about the extraction cascade *)

Lemma extract_of_cascade (fuel : nat) (html originalUrl : jsstring)
  (log : console) (v : vars) (a : jsval) :
  cascade fuel html = Done (v, a) ->
  exists r,
    fst (extractVideoInfoFromHtml fuel html originalUrl log) = Done r /\
    (forall d, r = Some d -> finish v a = Done (Some d)).
Proof.
  intros Hc. unfold extractVideoInfoFromHtml, extract_try.
  rewrite Hc. cbn [bind fst snd].
  pose proof (finish_answers v a) as Hans.
  destruct (finish v a) as [r| |]; cbn [fst].
  - exists r. split; [reflexivity|]. intros d ->. reflexivity.
  - exists None. split; [reflexivity|]. discriminate.
  - congruence.
Qed.

Lemma truthy_nonempty_string (s : jsstring) :
  s <> [] -> truthy (VStr s) = true.
Proof. destruct s; [congruence|reflexivity]. Qed.

(** X1.  When the page has an og:video tag (either attribute order, with
    or without the url suffix) with content [s], the call returns within
    a step budget above the length of the page, the fallback scans being
    skipped; and a descriptor it returns has the unescaped [s] as
    [videoUrl], whatever structured data and quoted URLs the page also
    holds. *)
Theorem og_video_takes_precedence :
  forall (html : jsstring) (ogVideoMatch : MatchResult) (s : jsstring)
         (fuel : nat) (originalUrl : jsstring) (log : console),
    og_match html og_video = Some ogVideoMatch ->
    at1 ogVideoMatch = VStr s ->
    s <> [] ->
    List.length html < fuel ->
    exists r,
      fst (extractVideoInfoFromHtml fuel html originalUrl log) = Done r /\
      (forall d, r = Some d -> videoUrl d = VStr (unescape s)).
Proof.
  intros html m s fuel originalUrl log Hm Hs Hne Hfuel.
  destruct (cascade_stages fuel html) as (t0 & t1 & au & _ & _ & _ & Hc).
  match type of Hc with
  | _ = bind (scan_json_scripts fuel ?p html ?v0) _ =>
      destruct (@scan_json_scripts_terminates fuel p html v0 eq_refl eq_refl
                  ltac:(cbn [lastIndex RegExp_literal]; lia)) as [v1 Hscan]
  end.
  rewrite Hscan in Hc. cbn [bind] in Hc.
  apply scan_json_scripts_fills_gaps in Hscan.
  destruct Hscan as (_ & _ & _ & Hkeep). cbn [v_videoUrl] in Hkeep.
  unfold videoUrl_from_og in Hkeep. rewrite Hm, Hs in Hkeep.
  pose proof (truthy_nonempty_string _ Hne) as Htr.
  specialize (Hkeep Htr). rewrite Hkeep, Htr in Hc. cbn [negb bind] in Hc.
  rewrite Htr in Hc. cbn [negb] in Hc.
  destruct (extract_of_cascade fuel html originalUrl log _ _ Hc)
    as (r & Hr & Hd).
  exists r. split; [exact Hr|]. intros d ->.
  specialize (Hd d eq_refl). apply finish_unescapes in Hd.
  destruct Hd as ((s' & Hs' & Hv) & _). cbn [v_videoUrl] in Hs'.
  injection Hs' as <-. exact Hv.
Qed.

(** X2.  When the page has an og:image tag with content [s], every
    descriptor returned has the unescaped [s] as [thumbnail]: neither
    thumbnailUrl of structured data nor the image fallback replaces it. *)
Theorem og_image_takes_precedence :
  forall (html : jsstring) (ogImageMatch : MatchResult) (s : jsstring)
         (fuel : nat) (originalUrl : jsstring) (log : console)
         (d : VideoInfo),
    og_match html og_image = Some ogImageMatch ->
    at1 ogImageMatch = VStr s ->
    s <> [] ->
    fst (extractVideoInfoFromHtml fuel html originalUrl log)
    = Done (Some d) ->
    thumbnail d = VStr (unescape s).
Proof.
  intros html m s fuel originalUrl log d Hm Hs Hne Hd.
  apply extract_inv in Hd. destruct Hd as (v & a & Hc & Hf).
  apply cascade_inv in Hc.
  destruct Hc as (t0 & t1 & au & v1 & vu & _ & _ & _ & Hscan & _ & _ & _
                  & Hth & _).
  apply scan_json_scripts_fills_gaps in Hscan.
  destruct Hscan as (_ & _ & Hkeep & _). cbn [v_thumbnail] in Hkeep.
  unfold thumbnail_from_og in Hkeep. rewrite Hm, Hs in Hkeep.
  pose proof (truthy_nonempty_string _ Hne) as Htr.
  specialize (Hkeep Htr). rewrite Hkeep, Htr in Hth. cbn [negb] in Hth.
  apply finish_unescapes in Hf.
  destruct Hf as (_ & [[Hfalse _]|(s' & Hs' & Hv)] & _).
  - rewrite Hth in Hfalse. congruence.
  - rewrite Hth in Hs'. injection Hs' as <-. exact Hv.
Qed.

(** X3.  When the text has a by-line (the word by, white space, an optional
    at sign, a name) with name [s], every descriptor returned has the
    trimmed [s] as [author] unless it is blank: the JSON-like author keys
    and author.name of structured data are not consulted. *)
Theorem by_line_takes_precedence :
  forall (html : jsstring) (authorMatch : MatchResult) (s : jsstring)
         (fuel : nat) (originalUrl : jsstring) (log : console)
         (d : VideoInfo),
    String_match html re_author_by = Some authorMatch ->
    at1 authorMatch = VStr s ->
    trim s <> [] ->
    fst (extractVideoInfoFromHtml fuel html originalUrl log)
    = Done (Some d) ->
    author d = VStr (trim s).
Proof.
  intros html m s fuel originalUrl log d Hm Hs Hne Hd.
  apply extract_inv in Hd. destruct Hd as (v & a & Hc & Hf).
  apply cascade_inv in Hc.
  destruct Hc as (t0 & t1 & au & v1 & vu & _ & _ & Hau & Hscan & _ & _
                  & Hva & _).
  unfold author_from_text, author_match, orElse in Hau.
  rewrite Hm, Hs in Hau. cbn [on_string] in Hau. injection Hau as <-.
  pose proof (truthy_nonempty_string _ Hne) as Htr.
  apply scan_json_scripts_fills_gaps in Hscan.
  destruct Hscan as (_ & Hkeep & _). cbn [v_author] in Hkeep.
  specialize (Hkeep Htr).
  apply finish_complete in Hf.
  destruct Hf as (_ & _ & _ & _ & Hauthor & _).
  rewrite Hauthor, Hva, Hkeep. unfold js_or. rewrite Htr. reflexivity.
Qed.

(** X4.  Structured data only fills gaps: whatever script blocks the scan
    goes through, a local that was set before the scan (by the title
    element, the Open Graph tags or the author patterns) has the same
    value after it. *)
Theorem structured_data_never_overrides :
  forall (fuel : nat) (pattern : RegExp) (html : jsstring) (v v' : vars),
    scan_json_scripts fuel pattern html v = Done v' ->
    (truthy (v_title v) = true -> v_title v' = v_title v) /\
    (truthy (v_author v) = true -> v_author v' = v_author v) /\
    (truthy (v_thumbnail v) = true -> v_thumbnail v' = v_thumbnail v) /\
    (truthy (v_videoUrl v) = true -> v_videoUrl v' = v_videoUrl v).
Proof.
  intros fuel pattern html v v' H.
  exact (scan_json_scripts_fills_gaps fuel pattern html v H).
Qed.

Lemma fst_exec_fresh (R : RegExp) (S : jsstring) :
  lastIndex R = 0 ->
  fst (RegExp_exec R S) = String_match S (source R).
Proof.
  intros H0. unfold String_match, RegExp_exec, RegExp_literal.
  cbn [global lastIndex source]. rewrite H0.
  destruct (global R); cbn [Nat.ltb Nat.leb];
    destruct (search (source R) 0 (skipn 0 S)); reflexivity.
Qed.

Lemma audioUrlPatterns_fresh : Forall fresh audioUrlPatterns.
Proof. repeat constructor. Qed.

Lemma videoUrlPatterns_fresh : Forall fresh videoUrlPatterns.
Proof. repeat constructor. Qed.

Lemma m3u8Patterns_fresh : Forall fresh m3u8Patterns.
Proof. repeat constructor. Qed.

Lemma video_for_no_match (fuel : nat) (html : jsstring) (v : jsval)
  (patterns : list RegExp) :
  Forall fresh patterns ->
  Forall (fun p => String_match html (source p) = None) patterns ->
  truthy v = false ->
  video_for (S fuel) patterns html v = Done v.
Proof.
  intros Hfresh Hnone Hv. induction patterns as [|p ps IH]; [reflexivity|].
  inversion Hfresh as [|? ? Hp Hps]; subst.
  inversion Hnone as [|? ? Hn Hns]; subst.
  cbn [video_for].
  rewrite video_while_no_match by (rewrite fst_exec_fresh; assumption).
  cbn [bind]. rewrite Hv. apply IH; assumption.
Qed.

Lemma first_capture_no_match (html : jsstring) (x : jsval)
  (patterns : list RegExp) :
  Forall fresh patterns ->
  Forall (fun p => String_match html (source p) = None) patterns ->
  truthy x = false ->
  first_capture patterns html x = x.
Proof.
  intros Hfresh Hnone Hx. induction patterns as [|p ps IH]; [reflexivity|].
  inversion Hfresh as [|? ? Hp Hps]; subst.
  inversion Hnone as [|? ? Hn Hns]; subst.
  cbn [first_capture]. rewrite fst_exec_fresh by assumption.
  rewrite Hn, Hx. apply IH; assumption.
Qed.

Lemma first_capture_priority (html : jsstring) (x : jsval)
  (before after : list RegExp) (p : RegExp) (m : MatchResult) :
  Forall fresh (before ++ p :: after) ->
  Forall (fun q => String_match html (source q) = None) before ->
  String_match html (source p) = Some m ->
  truthy (at1 m) = true ->
  truthy x = false ->
  first_capture (before ++ p :: after) html x = at1 m.
Proof.
  intros Hfresh Hnone Hm Htr Hx.
  induction before as [|q qs IH]; cbn [app first_capture].
  - inversion Hfresh as [|? ? Hp _]; subst.
    rewrite fst_exec_fresh by assumption. rewrite Hm, Htr. reflexivity.
  - inversion Hfresh as [|? ? Hq Hqs]; subst.
    inversion Hnone as [|? ? Hn Hns]; subst.
    rewrite fst_exec_fresh by assumption. rewrite Hn, Hx.
    apply IH; assumption.
Qed.

(** X5.  A page with no video signal gives null, whatever title, author,
    thumbnail or audio it offers: no og:video tag, no JSON script block,
    and no match for any pattern of the video and manifest fallbacks. *)
Theorem no_video_signal_gives_null :
  forall (html : jsstring) (fuel : nat) (originalUrl : jsstring)
         (log : console),
    og_match html og_video = None ->
    String_match html re_json_script = None ->
    Forall (fun p => String_match html (source p) = None)
      (videoUrlPatterns ++ m3u8Patterns) ->
    1 <= fuel ->
    fst (extractVideoInfoFromHtml fuel html originalUrl log) = Done None.
Proof.
  intros html fuel originalUrl log Hog Hjson Hnone Hfuel.
  destruct fuel as [|fuel]; [lia|].
  apply Forall_app in Hnone. destruct Hnone as [Hvideo Hm3u8].
  destruct (cascade_stages (S fuel) html) as (t0 & t1 & au & _ & _ & _ & Hc).
  rewrite scan_json_scripts_no_block in Hc by assumption.
  cbn [bind v_videoUrl v_thumbnail v_title v_author] in Hc.
  unfold videoUrl_from_og in Hc. rewrite Hog in Hc.
  cbn [truthy List.length Nat.eqb negb] in Hc.
  rewrite (video_for_no_match fuel html (VStr []) videoUrlPatterns
             videoUrlPatterns_fresh Hvideo eq_refl) in Hc.
  cbn [bind truthy List.length Nat.eqb negb] in Hc.
  rewrite (first_capture_no_match html (VStr []) m3u8Patterns
             m3u8Patterns_fresh Hm3u8 eq_refl) in Hc.
  unfold extractVideoInfoFromHtml, extract_try. rewrite Hc.
  cbn [bind fst snd]. unfold finish. cbn [v_videoUrl v_thumbnail].
  change (unescape_if_set (VStr [])) with (@Done jsval (VStr [])).
  cbn [bind].
  match goal with
  | |- context [unescape_if_set ?t] =>
      pose proof (unescape_if_set_answers t) as Hans;
      destruct (unescape_if_set t) as [th| |]
  end; cbn [bind truthy List.length Nat.eqb negb fst];
    [reflexivity|reflexivity|congruence].
Qed.

(** X6.  The audio patterns win in the order of their array, not in the
    order of the page: the descriptor's [audioUrl] is the unescaped
    capture of the first pattern of the array that matches anywhere. *)
Theorem audio_patterns_win_in_array_order :
  forall (html : jsstring) (before after : list RegExp) (pattern : RegExp)
         (m : MatchResult) (s : jsstring) (fuel : nat)
         (originalUrl : jsstring) (log : console) (d : VideoInfo),
    audioUrlPatterns = before ++ pattern :: after ->
    Forall (fun p => String_match html (source p) = None) before ->
    String_match html (source pattern) = Some m ->
    at1 m = VStr s ->
    s <> [] ->
    fst (extractVideoInfoFromHtml fuel html originalUrl log)
    = Done (Some d) ->
    audioUrl d = js_or (VStr (unescape s)) VUndefined.
Proof.
  intros html before after pattern m s fuel originalUrl log d
         Hsplit Hnone Hm Hs Hne Hd.
  apply extract_inv in Hd. destruct Hd as (v & a & Hc & Hf).
  apply cascade_inv in Hc.
  destruct Hc as (t0 & t1 & au & v1 & vu & _ & _ & _ & _ & _ & _ & _ & _
                  & _ & Ha).
  pose proof audioUrlPatterns_fresh as Hfresh.
  rewrite Hsplit in Ha, Hfresh.
  pose proof (truthy_nonempty_string _ Hne) as Htr.
  rewrite (first_capture_priority html (VStr []) before after pattern m
             Hfresh Hnone Hm) in Ha
    by (rewrite ?Hs; assumption || reflexivity).
  rewrite Hs in Ha. subst a.
  apply finish_unescapes in Hf.
  destruct Hf as (_ & _ & [[Hfalse _]|(s' & [= <-] & Hau)]);
    [congruence|exact Hau].
Qed.

(** X7.  On a page without JSON script blocks, a descriptor gets the
    placeholder title when the page has neither a title element nor an
    og:title tag, and the placeholder author when none of the four author
    patterns matches. *)
Theorem placeholders_when_nothing_found :
  forall (html : jsstring) (fuel : nat) (originalUrl : jsstring)
         (log : console) (d : VideoInfo),
    String_match html re_json_script = None ->
    fst (extractVideoInfoFromHtml fuel html originalUrl log)
    = Done (Some d) ->
    (String_match html re_title = None ->
     og_match html og_title = None ->
     title d = VStr (lit "Kuaishou Video")) /\
    (author_match html = None -> author d = VStr (lit "Unknown")).
Proof.
  intros html fuel originalUrl log d Hjson Hd.
  apply extract_inv in Hd. destruct Hd as (v & a & Hc & Hf).
  apply cascade_inv in Hc.
  destruct Hc as (t0 & t1 & au & v1 & vu & Ht0 & Ht1 & Hau & Hscan & _
                  & Hvt & Hva & _).
  destruct fuel as [|fuel]; [discriminate Hscan|].
  rewrite scan_json_scripts_no_block in Hscan by assumption.
  injection Hscan as <-. cbn [v_title v_author] in Hvt, Hva.
  apply finish_complete in Hf.
  destruct Hf as (_ & _ & _ & Htitle & Hauthor & _).
  split.
  - intros Hnt Hno. unfold title_from_tag in Ht0. rewrite Hnt in Ht0.
    injection Ht0 as <-. unfold title_from_og in Ht1. rewrite Hno in Ht1.
    injection Ht1 as <-. rewrite Htitle, Hvt. reflexivity.
  - intros Hna. unfold author_from_text in Hau. rewrite Hna in Hau.
    injection Hau as <-. rewrite Hauthor, Hva. reflexivity.
Qed.

(** X8.  The call returns, within a step budget above the length of the
    page, on every page where each of the keys videoUrl, playUrl and
    srcNoMark is absent or carries a value the fallback scan accepts. *)
Theorem extraction_returns_when_keys_are_acceptable :
  forall (html : jsstring) (fuel : nat) (originalUrl : jsstring)
         (log : console),
    List.length html < fuel ->
    (forall key m,
        In key ["videoUrl"; "playUrl"; "srcNoMark"]%string ->
        String_match html (re_key key) = Some m ->
        acceptable (at1 m) = true) ->
    exists r,
      fst (extractVideoInfoFromHtml fuel html originalUrl log) = Done r.
Proof.
  intros html fuel originalUrl log Hfuel Hkeys.
  destruct (@extraction_returns_unless_trapped fuel html originalUrl log
              Hfuel)
    as [Hr|(key & m & Hin & Hm & Hrej)]; [exact Hr|].
  rewrite (Hkeys key m Hin Hm) in Hrej. discriminate.
Qed.

Lemma video_for_stuck (html : jsstring) (v : jsval)
  (before after : list RegExp) (p : RegExp) (m : MatchResult) :
  Forall fresh (before ++ p :: after) ->
  Forall (fun q => String_match html (source q) = None) before ->
  global p = false ->
  String_match html (source p) = Some m ->
  acceptable (at1 m) = false ->
  truthy v = false ->
  forall fuel, video_for fuel (before ++ p :: after) html v = OutOfFuel.
Proof.
  intros Hfresh Hnone Hg Hm Hrej Hv fuel.
  induction before as [|q qs IH]; cbn [app video_for].
  - inversion Hfresh as [|? ? Hp _]; subst.
    rewrite (@video_while_stuck fuel p html v m Hg);
      [reflexivity| |exact Hrej].
    rewrite fst_exec_fresh by assumption. exact Hm.
  - inversion Hfresh as [|? ? Hq Hqs]; subst.
    inversion Hnone as [|? ? Hn Hns]; subst.
    destruct fuel as [|fuel]; [reflexivity|].
    rewrite video_while_no_match by (rewrite fst_exec_fresh; assumption).
    cbn [bind]. rewrite Hv. apply IH; assumption.
Qed.

(** X9.  The call never returns on a page without og:video tag, JSON
    script block and quoted .mp4 URL on which the first of the keys
    videoUrl, playUrl, srcNoMark to occur carries a value the fallback
    scan rejects (no .mp4 in it, or poster or cover): the pattern of that
    key has no [g] flag, so each [exec] finds the rejected value again. *)
Theorem extraction_hangs_on_rejected_key_value :
  forall (html : jsstring) (before after : list string) (key : string)
         (m : MatchResult),
    og_match html og_video = None ->
    String_match html re_json_script = None ->
    String_match html (re_quoted_url "mp4") = None ->
    String_match html re_quoted_video_url = None ->
    ["videoUrl"; "playUrl"; "srcNoMark"]%string = before ++ key :: after ->
    Forall (fun k => String_match html (re_key k) = None) before ->
    String_match html (re_key key) = Some m ->
    acceptable (at1 m) = false ->
    forall (fuel : nat) (originalUrl : jsstring) (log : console),
      extractVideoInfoFromHtml fuel html originalUrl log = (OutOfFuel, log).
Proof.
  intros html before after key m Hog Hjson Hq1 Hq2 Hkeys Hnone Hm Hrej
         fuel originalUrl log.
  assert (Hfor : forall fuel v, truthy v = false ->
             video_for fuel videoUrlPatterns html v = OutOfFuel).
  { intros fuel' v Hv.
    set (mk := fun k => RegExp_literal (re_key k) false).
    change videoUrlPatterns with
      ([RegExp_literal (re_quoted_url "mp4") true;
        RegExp_literal re_quoted_video_url true]
       ++ map mk ["videoUrl"; "playUrl"; "srcNoMark"]%string).
    rewrite Hkeys, map_app. cbn [map]. rewrite app_assoc.
    apply video_for_stuck with (m := m); try assumption; try reflexivity.
    - rewrite <- app_assoc.
      apply Forall_app. split; [repeat constructor|].
      apply Forall_forall. intros R HR.
      change (mk key :: map mk after) with (map mk (key :: after)) in HR.
      rewrite <- map_app in HR. apply in_map_iff in HR.
      destruct HR as (k & <- & _). reflexivity.
    - apply Forall_app. split; [repeat constructor; assumption|].
      apply Forall_forall. intros R HR. apply in_map_iff in HR.
      destruct HR as (k & <- & Hk).
      rewrite Forall_forall in Hnone. exact (Hnone k Hk). }
  unfold extractVideoInfoFromHtml, extract_try.
  destruct (cascade_stages fuel html) as (t0 & t1 & au & _ & _ & _ & Hc).
  destruct fuel as [|fuel].
  - rewrite Hc. reflexivity.
  - rewrite scan_json_scripts_no_block in Hc by assumption.
    cbn [bind v_videoUrl] in Hc.
    unfold videoUrl_from_og in Hc. rewrite Hog in Hc.
    cbn [truthy List.length Nat.eqb negb] in Hc.
    rewrite Hfor in Hc by reflexivity.
    rewrite Hc. reflexivity.
Qed.

(** X10.  When the cascade resolves a [videoUrl] or a [thumbnail] that is
    set but is not a string (a number, true, an object or an array taken
    from structured data), the post-processing throws on it, the error is
    logged and the call answers null, even when the other of the two is a
    proper URL. *)
Theorem non_string_media_value_gives_null :
  forall (fuel : nat) (html originalUrl : jsstring) (log : console)
         (v : vars) (a : jsval),
    cascade fuel html = Done (v, a) ->
    (truthy (v_videoUrl v) = true /\ ~ is_string (v_videoUrl v)) \/
    (truthy (v_thumbnail v) = true /\ ~ is_string (v_thumbnail v)) ->
    extractVideoInfoFromHtml fuel html originalUrl log =
    (Done None, log ++ [(lit "Error extracting video info:", TypeError)]).
Proof.
  intros fuel html originalUrl log v a Hc Hbad.
  unfold extractVideoInfoFromHtml, extract_try. rewrite Hc.
  cbn [bind fst snd].
  assert (Hthrow : forall x, truthy x = true -> ~ is_string x ->
             unescape_if_set x = Throw TypeError).
  { intros x Hx Hns. unfold unescape_if_set. rewrite Hx.
    destruct x; try reflexivity. exfalso. apply Hns. eexists. reflexivity. }
  assert (Hfin : finish v a = Throw TypeError).
  { unfold finish. destruct Hbad as [[Hx Hns]|[Hx Hns]].
    - rewrite (Hthrow _ Hx Hns). reflexivity.
    - rewrite (Hthrow (v_thumbnail v) Hx Hns).
      destruct (unescape_if_set (v_videoUrl v)) as [vu|e|] eqn:Hvu.
      + reflexivity.
      + unfold unescape_if_set in Hvu.
        destruct (truthy (v_videoUrl v)); [|discriminate].
        destruct (v_videoUrl v); cbn in Hvu; try discriminate;
          injection Hvu as <-; reflexivity.
      + exfalso. exact (unescape_if_set_answers _ Hvu). }
  rewrite Hfin. reflexivity.
Qed.

(** ** More about the relay *)

Section RelayProperties.

Variable World : Type.
Variable random_below : nat -> World -> nat * World.
Variable fetch : Request -> World -> option Response * World.

Local Abbreviation relay_fetch := (relay_fetch random_below fetch).

Lemma pump_written (reader : body_stream) :
  forall (res : ServerResponse) (log : console),
    written (fst (pump reader res log)) = written res ++ chunks_of reader /\
    out_headers (fst (pump reader res log)) = out_headers res /\
    ended (fst (pump reader res log)) = true /\
    headersSent (fst (pump reader res log)) = true.
Proof.
  induction reader as [|bytes next IH|]; intros res log; cbn [pump chunks_of].
  - cbn. rewrite app_nil_r. auto.
  - destruct (IH (res_write bytes res) log) as (Hw & Hh & He & Hs).
    rewrite Hw, Hh, He, Hs. cbn [written res_write out_headers].
    rewrite <- app_assoc. auto.
  - destruct (negb (headersSent res)); cbn; rewrite app_nil_r; auto.
Qed.

Lemma pump_status (reader : body_stream) :
  forall (res : ServerResponse) (log : console),
    (stream_fails reader = false \/ headersSent res = true \/
     chunks_of reader <> []) ->
    statusCode (fst (pump reader res log)) = statusCode res /\
    json_body (fst (pump reader res log)) = json_body res.
Proof.
  induction reader as [|bytes next IH|]; intros res log H;
    cbn [pump chunks_of stream_fails] in *.
  - cbn. auto.
  - destruct (IH (res_write bytes res) log) as (Hst & Hj);
      [right; left; reflexivity|].
    rewrite Hst, Hj. cbn. auto.
  - destruct H as [H|[H|H]]; [discriminate| |congruence].
    rewrite H. cbn. auto.
Qed.

Lemma pump_first_read_fails (reader : body_stream) (res : ServerResponse)
  (log : console) :
  stream_fails reader = true -> chunks_of reader = [] ->
  headersSent res = false ->
  pump reader res log =
  (res_json (error_body "Stream error") (res_status 500 res),
   log ++ [(lit "Stream error:", NetworkError)]).
Proof.
  destruct reader; cbn [stream_fails chunks_of pump]; try discriminate.
  intros _ _ ->. reflexivity.
Qed.

Lemma pump_log (reader : body_stream) :
  forall (res : ServerResponse) (log : console),
    snd (pump reader res log) =
    if stream_fails reader
    then log ++ [(lit "Stream error:", NetworkError)] else log.
Proof.
  induction reader as [|bytes next IH|]; intros res log;
    cbn [pump stream_fails].
  - reflexivity.
  - apply IH.
  - destruct (negb (headersSent res)); reflexivity.
Qed.

Lemma download_ok (url : jsstring) (type : jsval) (res : ServerResponse)
  (log : console) (w : World) (upstream : Response) (w' : World)
  (reader : body_stream) :
  url <> [] ->
  relay_fetch url w = (Some upstream, w') ->
  ok upstream = true ->
  body upstream = Some reader ->
  download random_below fetch (VStr url) type res log w =
  (let (res', log') :=
     pump reader
       {| statusCode := statusCode res;
          out_headers := out_headers res ++ media_headers type upstream;
          headersSent := headersSent res; json_body := json_body res;
          written := written res; ended := ended res |} log in
   (res', log', w')).
Proof.
  intros Hurl Hfetch Hok Hbody. destruct url as [|c u]; [congruence|].
  unfold download, relay_fetch in *.
  destruct (getHeaders random_below (c :: u) w) as [hs w1].
  rewrite Hfetch, Hok, Hbody. cbn [negb].
  unfold media_headers.
  assert (Haudio : forall t,
             jsstring_eqb
               (if jsstring_eqb t (lit "audio") then lit "audio"
                else lit "video") (lit "audio")
             = jsstring_eqb t (lit "audio")).
  { intros t. destruct (jsstring_eqb t (lit "audio")); reflexivity. }
  destruct type as [| |b|n|t|l|props];
    try rewrite Haudio;
    destruct (Headers_get (headers upstream) (lit "content-length"))
      as [[|d l']|];
    unfold res_setHeader; cbn [statusCode out_headers headersSent json_body
                                 written ended];
    rewrite <- ?app_assoc; reflexivity.
Qed.

(** X11.  When the upstream answers with a 2xx status and its body ends
    without a failed read, the relay forwards every chunk in order and
    nothing else, ends the response, leaves the status as it was (200),
    sends no JSON, and sets Content-Type and the attachment file name by
    the type and Content-Length exactly when the upstream gave a
    non-empty one. *)
Theorem relay_forwards_every_chunk :
  forall (url : jsstring) (type : jsval) (log : console) (w : World)
         (upstream : Response) (w' : World) (reader : body_stream),
    url <> [] ->
    relay_fetch url w = (Some upstream, w') ->
    ok upstream = true ->
    body upstream = Some reader ->
    stream_fails reader = false ->
    let '(res', log', w'') :=
      download random_below fetch (VStr url) type fresh_response log w in
    written res' = chunks_of reader /\
    statusCode res' = 200%Z /\
    json_body res' = None /\
    out_headers res' = media_headers type upstream /\
    ended res' = true /\
    log' = log /\ w'' = w'.
Proof.
  intros url type log w upstream w' reader Hurl Hfetch Hok Hbody Hfails.
  rewrite (download_ok url type fresh_response log w upstream w' reader)
    by assumption.
  match goal with
  | |- context [pump reader ?r log] =>
      pose proof (pump_written reader r log) as (Hw & Hh & He & _);
      pose proof (pump_status reader r log (or_introl Hfails)) as (Hst & Hj);
      pose proof (pump_log reader r log) as Hlog;
      destruct (pump reader r log) as [res' log']
  end.
  cbn [fst snd] in *. rewrite Hfails in Hlog.
  repeat split; assumption.
Qed.

(** X12.  When a read of the upstream body fails, the chunks read before
    are already forwarded and stay so.  If there was at least one, the
    response is simply ended: status 200, no JSON.  If the very first read
    fails, the relay answers 500 with a JSON error, and that response
    still carries the media headers set before the read. *)
Theorem relay_on_failed_read :
  forall (url : jsstring) (type : jsval) (log : console) (w : World)
         (upstream : Response) (w' : World) (reader : body_stream),
    url <> [] ->
    relay_fetch url w = (Some upstream, w') ->
    ok upstream = true ->
    body upstream = Some reader ->
    stream_fails reader = true ->
    let '(res', log', w'') :=
      download random_below fetch (VStr url) type fresh_response log w in
    written res' = chunks_of reader /\
    ended res' = true /\
    out_headers res' = media_headers type upstream /\
    log' = log ++ [(lit "Stream error:", NetworkError)] /\
    (chunks_of reader <> [] ->
     statusCode res' = 200%Z /\ json_body res' = None) /\
    (chunks_of reader = [] ->
     statusCode res' = 500%Z /\
     json_body res' = Some (error_body "Stream error")).
Proof.
  intros url type log w upstream w' reader Hurl Hfetch Hok Hbody Hfails.
  rewrite (download_ok url type fresh_response log w upstream w' reader)
    by assumption.
  match goal with
  | |- context [pump reader ?r log] =>
      pose proof (pump_written reader r log) as (Hw & Hh & He & _);
      pose proof (pump_status reader r log) as Hst;
      pose proof (pump_first_read_fails reader r log Hfails) as Hfirst;
      pose proof (pump_log reader r log) as Hlog;
      destruct (pump reader r log) as [res' log']
  end.
  cbn [fst snd] in *. rewrite Hfails in Hlog.
  repeat split; try assumption.
  - apply Hst. auto.
  - apply Hst. auto.
  - specialize (Hfirst H eq_refl). injection Hfirst as -> _. reflexivity.
  - specialize (Hfirst H eq_refl). injection Hfirst as -> _. reflexivity.
Qed.

Lemma same_but_headers_refl (r : ServerResponse) : same_but_headers r r.
Proof. unfold same_but_headers. auto. Qed.

Lemma same_setHeader_l (n v : jsstring) (r1 r2 : ServerResponse) :
  same_but_headers r1 r2 -> same_but_headers (res_setHeader n v r1) r2.
Proof. unfold same_but_headers. cbn. auto. Qed.

Lemma same_setHeader_r (n v : jsstring) (r1 r2 : ServerResponse) :
  same_but_headers r1 r2 -> same_but_headers r1 (res_setHeader n v r2).
Proof. unfold same_but_headers. cbn. auto. Qed.

Lemma same_json_status (b : jsval) (code : Z) (r1 r2 : ServerResponse) :
  same_but_headers r1 r2 ->
  same_but_headers (res_json b (res_status code r1))
    (res_json b (res_status code r2)).
Proof. unfold same_but_headers. cbn. intuition congruence. Qed.

Lemma pump_same (reader : body_stream) :
  forall (r1 r2 : ServerResponse) (log : console),
    same_but_headers r1 r2 ->
    same_but_headers (fst (pump reader r1 log)) (fst (pump reader r2 log)) /\
    snd (pump reader r1 log) = snd (pump reader r2 log).
Proof.
  induction reader as [|bytes next IH|]; intros r1 r2 log Hs; cbn [pump].
  - split; [|reflexivity]. unfold same_but_headers in *. cbn.
    intuition congruence.
  - apply IH. unfold same_but_headers in *. cbn. intuition congruence.
  - destruct Hs as (H1 & H2 & H3 & H4 & H5). rewrite H2.
    destruct (negb (headersSent r2)); (split; [|reflexivity]);
      unfold same_but_headers; cbn; intuition congruence.
Qed.

Lemma download_same (url type1 type2 : jsval) (res : ServerResponse)
  (log : console) (w : World) :
  same_but_headers
    (fst (fst (download random_below fetch url type1 res log w)))
    (fst (fst (download random_below fetch url type2 res log w))) /\
  snd (fst (download random_below fetch url type1 res log w)) =
  snd (fst (download random_below fetch url type2 res log w)) /\
  snd (download random_below fetch url type1 res log w) =
  snd (download random_below fetch url type2 res log w).
Proof.
  unfold download.
  destruct url as [| |b|n|[|c u]|l|props];
    try (cbn [fst snd]; split; [apply same_but_headers_refl|auto]).
  destruct (getHeaders random_below (c :: u) w) as [hs w1].
  destruct (fetch _ w1) as [[upstream|] w2].
  - destruct (ok upstream); cbn [negb].
    + destruct (body upstream) as [reader|].
      * match goal with
        | |- context [pump reader ?a log] =>
            match goal with
            | |- context [pump reader ?b log] =>
                lazymatch a with
                | b => fail
                | _ => pose proof (pump_same reader a b log) as Hp
                end
            end
        end.
        destruct Hp as [Hp1 Hp2].
        { destruct (Headers_get (headers upstream) (lit "content-length"))
            as [[|d l']|];
            repeat first [apply same_setHeader_l | apply same_setHeader_r];
            apply same_but_headers_refl. }
        repeat match goal with
        | |- context [pump reader ?a log] =>
            destruct (pump reader a log) as [? ?]
        end.
        cbn [fst snd] in *. auto.
      * cbn [fst snd]. split; [|auto]. apply same_json_status.
        destruct (Headers_get (headers upstream) (lit "content-length"))
          as [[|d l']|];
          repeat first [apply same_setHeader_l | apply same_setHeader_r];
          apply same_but_headers_refl.
    + cbn [fst snd]. split; [apply same_but_headers_refl|auto].
  - destruct (negb (headersSent res)); cbn [fst snd];
      (split; [apply same_but_headers_refl|auto]).
Qed.

(** X13.  The type only relabels: for the same URL and world, asking for
    audio or for video (or with any other type value) relays the same
    bytes with the same status, JSON body, log and effect on the world;
    only the headers can differ. *)
Theorem relay_type_only_relabels :
  forall (url type1 type2 : jsval) (res : ServerResponse) (log : console)
         (w : World),
    let '(res1, log1, w1) :=
      download random_below fetch url type1 res log w in
    let '(res2, log2, w2) :=
      download random_below fetch url type2 res log w in
    written res1 = written res2 /\
    statusCode res1 = statusCode res2 /\
    json_body res1 = json_body res2 /\
    ended res1 = ended res2 /\
    log1 = log2 /\ w1 = w2.
Proof.
  intros url type1 type2 res log w.
  pose proof (download_same url type1 type2 res log w) as (Hs & Hl & Hw).
  destruct (download random_below fetch url type1 res log w)
    as [[res1 log1] w1].
  destruct (download random_below fetch url type2 res log w)
    as [[res2 log2] w2].
  cbn [fst snd] in *. destruct Hs as (H1 & H2 & H3 & H4 & H5).
  repeat split; assumption.
Qed.

(** X14.  The relay never mixes a stream with a JSON error.  When the
    handler has run to its end, the response is of one of two kinds:
    status 200 with no JSON body, or a JSON error, which ends the
    response, with a status other than 200 and not a single chunk
    written.  A request whose url parameter is missing, empty or not a
    string is answered 400, the response ended, without touching the
    network or the console.  Nothing is said of an upstream body that
    never ends: the handler then stays in its read loop, and the response
    is not claimed to be ended. *)
Theorem relay_answers_stream_or_error :
  forall (url type : jsval) (log : console) (w : World),
    let '(res', log', w') :=
      download random_below fetch url type fresh_response log w in
    ((json_body res' = None /\ statusCode res' = 200%Z) \/
     (exists b, json_body res' = Some b /\ written res' = [] /\
                statusCode res' <> 200%Z /\ ended res' = true)) /\
    ((forall c u, url <> VStr (c :: u)) ->
     statusCode res' = 400%Z /\ ended res' = true /\ w' = w /\ log' = log).
Proof.
  intros url type log w.
  assert (Hbad : forall c u, VStr (c :: u) <> VStr (c :: u) -> False)
    by (intros c u H; apply H; reflexivity).
  destruct url as [| |b|n|[|c u]|l|props];
    try (cbn; split;
         [right; eexists; repeat split; discriminate|];
         intros _; auto).
  destruct (relay_fetch (c :: u) w) as [[upstream|] w'] eqn:Hfetch.
  - destruct (ok upstream) eqn:Hok.
    + destruct (body upstream) as [reader|] eqn:Hbody.
      * rewrite (download_ok (c :: u) type fresh_response log w upstream w'
                   reader) by (assumption || discriminate).
        match goal with
        | |- context [pump reader ?r log] =>
            pose proof (pump_written reader r log) as (Hw & Hh & He & _);
            pose proof (pump_status reader r log) as Hst;
            pose proof (pump_first_read_fails reader r log) as Hfirst;
            destruct (pump reader r log) as [res' log']
        end.
        cbn [fst snd] in *.
        split; [|intros H; exfalso; eapply Hbad, H].
        destruct (stream_fails reader) eqn:Hf.
        -- destruct (chunks_of reader) as [|ch chs] eqn:Hch.
           ++ specialize (Hfirst eq_refl eq_refl eq_refl).
              injection Hfirst as -> _. right. eexists.
              split; [reflexivity|]. split; [reflexivity|].
              split; [discriminate|reflexivity].
           ++ left. destruct Hst as [Hst Hj]; [right; right; discriminate|].
              rewrite Hst, Hj. split; reflexivity.
        -- left. destruct Hst as [Hst Hj]; [left; reflexivity|].
           rewrite Hst, Hj. split; reflexivity.
      * unfold download, relay_fetch in *.
        destruct (getHeaders random_below (c :: u) w) as [hs w1].
        rewrite Hfetch, Hok, Hbody. cbn [negb].
        split; [|intros H; exfalso; eapply Hbad, H].
        right. eexists. split; [reflexivity|].
        split; [|split; [cbn; discriminate|reflexivity]].
        destruct (Headers_get (headers upstream) (lit "content-length"))
          as [[|d l']|]; reflexivity.
    + unfold download, relay_fetch in *.
      destruct (getHeaders random_below (c :: u) w) as [hs w1].
      rewrite Hfetch, Hok. cbn [negb].
      split; [|intros H; exfalso; eapply Hbad, H].
      right. eexists. split; [reflexivity|]. split; [reflexivity|].
      split; [|reflexivity].
      cbn [statusCode res_json res_status].
      unfold ok in Hok. intros H200. rewrite H200 in Hok. discriminate.
  - unfold download, relay_fetch in *.
    destruct (getHeaders random_below (c :: u) w) as [hs w1].
    rewrite Hfetch. cbn.
    split; [|intros H; exfalso; eapply Hbad, H].
    right. eexists. repeat split; discriminate.
Qed.

End RelayProperties.

(** ** More about the fetcher *)

Section FetcherProperties.

Variable World : Type.
Variable random_below : nat -> World -> nat * World.
Variable fetch : Request -> World -> option Response * World.
Variable URL_href : jsstring -> jsstring -> option jsstring.

Local Abbreviation loop := (redirect_loop random_below fetch URL_href).
Local Abbreviation hops := (Hops random_below fetch URL_href).
Local Abbreviation one_hop := (hop random_below fetch).
Local Abbreviation next := (next_url URL_href).
Local Abbreviation loop_step :=
  (@redirect_loop_step World random_below fetch URL_href).

(** X15.  Every header set the rotator builds has the same nine names in
    the same order and a non-empty Referer (the given URL, or the
    platform's root when none is given); and when the random draw is in
    range, its User-Agent is one of the three pooled strings. *)
Theorem rotated_headers_are_well_formed :
  forall (referer : jsstring) (w : World),
    fst (random_below (List.length USER_AGENTS) w)
    < List.length USER_AGENTS ->
    let (hs, w') := getHeaders random_below referer w in
    map fst hs =
      [lit "User-Agent"; lit "Accept"; lit "Accept-Language";
       lit "Accept-Encoding"; lit "Referer"; lit "Origin"; lit "Connection";
       lit "Cache-Control"; lit "Pragma"] /\
    (exists ua, Headers_get hs (lit "User-Agent") = Some ua /\
                In ua USER_AGENTS) /\
    (exists r, Headers_get hs (lit "Referer") = Some r /\ r <> [] /\
               (referer <> [] -> r = referer)) /\
    w' = snd (random_below (List.length USER_AGENTS) w).
Proof.
  intros referer w Hrange. unfold getHeaders, getRandomUserAgent.
  destruct (random_below (List.length USER_AGENTS) w) as [i w1].
  cbn [fst snd] in *.
  split; [reflexivity|]. split; [|split; [|reflexivity]].
  - eexists. split; [reflexivity|]. apply nth_In. exact Hrange.
  - destruct referer as [|c r].
    + eexists. split; [reflexivity|]. split; [discriminate|congruence].
    + eexists. split; [reflexivity|]. split; [discriminate|reflexivity].
Qed.

Lemma next_url_throws (r : Response) (url : jsstring) (e : jserror) :
  next r url = Throw e -> e = TypeError.
Proof.
  unfold next_url.
  destruct (Z.leb 300 (status r) && Z.ltb (status r) 400); [|discriminate].
  destruct (Headers_get (headers r) (lit "location")) as [[|c l]|];
    try discriminate.
  destruct (startsWith (c :: l) (lit "http")); [discriminate|].
  destruct (URL_href (c :: l) url); [discriminate|].
  intros [= <-]. reflexivity.
Qed.

Lemma redirect_loop_network_error (n : nat) :
  forall (url : jsstring) (prev : option Response) (w w' : World),
    loop n url prev w = (Throw NetworkError, w') ->
    (1 <= n /\ one_hop url w = (None, w')) \/
    exists k uk r w0 u,
      1 <= k < n /\ hops k url w uk r w0 /\
      redirects_to URL_href r uk u /\ one_hop u w0 = (None, w').
Proof.
  induction n as [|n IH]; intros url prev w w' H.
  - cbn in H. discriminate.
  - rewrite loop_step in H.
    destruct (one_hop url w) as [[r0|] w0] eqn:Hhop.
    + destruct (next r0 url) as [[u|]|e|] eqn:Hnext.
      * apply next_url_follows in Hnext. apply IH in H.
        destruct H as [[Hn Hu]|(k & uk & r & w1 & u' & Hk & Hh & Hr & Hu)].
        -- right. exists 1, url, r0, w0, u.
           split; [lia|]. split; [constructor; exact Hhop|]. auto.
        -- right. exists (S k), uk, r, w1, u'.
           split; [lia|]. split; [econstructor; eassumption|]. auto.
      * discriminate.
      * injection H as -> _. apply next_url_throws in Hnext. discriminate.
      * discriminate.
    + injection H as <-. left. split; [lia|reflexivity].
Qed.

Lemma redirect_loop_rejected (k : nat) (url : jsstring) (w : World)
  (uk : jsstring) (r : Response) (w0 : World) :
  hops k url w uk r w0 ->
  forall (n : nat) (prev : option Response) (u : jsstring) (w' : World),
    k < n ->
    redirects_to URL_href r uk u ->
    one_hop u w0 = (None, w') ->
    loop n url prev w = (Throw NetworkError, w').
Proof.
  induction 1 as [url w r w0 Hhop|k url w r0 w0 u0 uk r w1 Hhop Hnext Hh IH];
    intros n prev u w' Hlt Hr Hu.
  - destruct n as [|[|n]]; try lia.
    apply next_url_follows in Hr.
    rewrite loop_step, Hhop, Hr, loop_step, Hu. reflexivity.
  - destruct n as [|n]; [lia|].
    apply next_url_follows in Hnext.
    rewrite loop_step, Hhop, Hnext.
    eapply IH; try eassumption. lia.
Qed.

(** X16.  The call throws the network's error exactly when a fetch is
    rejected within the bound: the first one, or the one for the Location
    of the last of [k] followed redirects, with [k] below the bound.  No
    retry is made and nothing obtained before is returned. *)
Theorem rejected_fetch_is_propagated :
  forall (url : jsstring) (maxRedirects : Z) (w w' : World),
    fetchWithRedirects random_below fetch URL_href url maxRedirects w
    = (Throw NetworkError, w') <->
    (1 <= Z.to_nat maxRedirects /\ one_hop url w = (None, w')) \/
    exists k uk r w0 u,
      1 <= k < Z.to_nat maxRedirects /\ hops k url w uk r w0 /\
      redirects_to URL_href r uk u /\ one_hop u w0 = (None, w').
Proof.
  intros url maxRedirects w w'. unfold fetchWithRedirects. split.
  - destruct (loop (Z.to_nat maxRedirects) url None w)
      as [[[x|]|e|] w1] eqn:Hloop; try discriminate.
    intros [= -> ->]. eapply redirect_loop_network_error. exact Hloop.
  - intros [[Hn Hu]|(k & uk & r & w0 & u & Hk & Hh & Hr & Hu)].
    + destruct (Z.to_nat maxRedirects) as [|n]; [lia|].
      rewrite loop_step, Hu. reflexivity.
    + rewrite (redirect_loop_rejected k url w uk r w0 Hh
                 (Z.to_nat maxRedirects) None u w' (proj2 Hk) Hr Hu).
      reflexivity.
Qed.

(** With a bound of 0 or less the loop body never runs: no request is
    made and the guard after the loop throws. *)
Lemma nonpositive_bound_throws (url : jsstring) (maxRedirects : Z)
  (w : World) :
  (maxRedirects <= 0)%Z ->
  fetchWithRedirects random_below fetch URL_href url maxRedirects w
  = (Throw (Error (lit "Failed to fetch URL")), w).
Proof.
  intros Hbound. unfold fetchWithRedirects.
  replace (Z.to_nat maxRedirects) with 0 by lia. reflexivity.
Qed.

End FetcherProperties.

(** ** The resolver *)

Lemma extract_does_not_throw (fuel : nat) (html originalUrl : jsstring)
  (log : console) (e : jserror) (log' : console) :
  extractVideoInfoFromHtml fuel html originalUrl log <> (Throw e, log').
Proof.
  unfold extractVideoInfoFromHtml.
  destruct (extract_try fuel html); discriminate.
Qed.

Section ResolverProperties.

Variable World : Type.
Variable random_below : nat -> World -> nat * World.
Variable fetch : Request -> World -> option Response * World.
Variable URL_href : jsstring -> jsstring -> option jsstring.
Variable isUrl : jsstring -> bool.
Variable text_of : Response -> option jsstring.
Variable runtime_message : jserror -> jsstring.

Local Abbreviation resolve :=
  (fetch_video random_below fetch URL_href isUrl text_of runtime_message).
Local Abbreviation fetchPage :=
  (fetchWithRedirects random_below fetch URL_href).

Lemma fetchPage_throws (url : jsstring) (w w' : World) (e : jserror) :
  fetchPage url 5 w = (Throw e, w') -> e = NetworkError \/ e = TypeError.
Proof.
  unfold fetchWithRedirects.
  pose proof (@redirect_loop_response World random_below fetch URL_href
                (Z.to_nat 5) url None w) as Hresp.
  destruct (redirect_loop random_below fetch URL_href (Z.to_nat 5) url None w)
    as [[[x|]|e'|] w1]; cbn [fst] in Hresp; try discriminate.
  - destruct Hresp as [[Hz _]|Hx]; [discriminate Hz|congruence].
  - intros [= <- _]. exact Hresp.
Qed.

(** X17.  Whenever the resolver answers, it answers with exactly one JSON
    body and one of four statuses:
    400 with the validation message when the body fails the schema, the
    network not having been touched;
    404 when the extraction gives null;
    200 with success and a descriptor whose [videoUrl] is a non-empty
    string and whose title and author are set;
    500 with the message of a rejected fetch or of a refused URL or body,
    the error having been logged.  The error of the fetcher's own guard
    never shows, the default bound being 5. *)
Theorem resolver_answers :
  forall (fuel : nat) (body : jsval) (log : console) (w : World)
         (res' : ServerResponse) (log' : console) (w' : World),
    resolve fuel body fresh_response log w = Done (res', log', w') ->
    ended res' = true /\ written res' = [] /\
    ((statusCode res' = 400%Z /\
      json_body res'
      = Some (failure (lit "Please enter a valid Kuaishou URL")) /\
      safeParse isUrl body = None /\ w' = w /\ log' = log) \/
     (statusCode res' = 404%Z /\
      json_body res'
      = Some (failure (lit "Could not find video on this page. Please check the URL and try again."))) \/
     (statusCode res' = 200%Z /\
      exists d,
        json_body res' = Some (success d) /\
        (exists s, videoUrl d = VStr s /\ s <> []) /\
        truthy (title d) = true /\ truthy (author d) = true) \/
     (statusCode res' = 500%Z /\
      exists e,
        (e = NetworkError \/ e = TypeError) /\
        json_body res' = Some (failure (runtime_message e)) /\
        exists log0, log' = log0 ++ [(lit "Error fetching video:", e)])).
Proof.
  intros fuel body log w res' log' w'. unfold fetch_video.
  destruct (safeParse isUrl body) as [url|] eqn:Hparse.
  - destruct (fetchPage url 5 w) as [[r|e|] w1] eqn:Hfetch.
    + destruct (text_of r) as [html|].
      * destruct (extractVideoInfoFromHtml fuel html url log)
          as [[[d|]|e|] log1] eqn:Hext.
        -- intros [= <- <- <-]. split; [reflexivity|]. split; [reflexivity|].
           right. right. left. split; [reflexivity|]. exists d.
           split; [reflexivity|].
           assert (Hd : fst (extractVideoInfoFromHtml fuel html url log)
                        = Done (Some d)) by (rewrite Hext; reflexivity).
           apply extract_result_complete in Hd. tauto.
        -- intros [= <- <- <-]. split; [reflexivity|]. split; [reflexivity|].
           right. left. split; reflexivity.
        -- exfalso. exact (extract_does_not_throw _ _ _ _ _ _ Hext).
        -- discriminate.
      * intros [= <- <- <-]. split; [reflexivity|]. split; [reflexivity|].
        right. right. right. split; [reflexivity|]. exists TypeError.
        split; [auto|]. split; [reflexivity|]. eexists. reflexivity.
    + intros [= <- <- <-]. split; [reflexivity|]. split; [reflexivity|].
      right. right. right. split; [reflexivity|]. exists e.
      pose proof (fetchPage_throws url w w1 e Hfetch) as He.
      split; [exact He|]. split; [|eexists; reflexivity].
      destruct He as [-> | ->]; reflexivity.
    + discriminate.
  - intros [= <- <- <-]. split; [reflexivity|]. split; [reflexivity|].
    left. repeat split; reflexivity.
Qed.

(** X18.  Once the request body has passed the schema and the page has
    been fetched and read, the resolver leaves the request unanswered
    exactly when the extraction on that page does not return.  With a
    step budget above the length of the page, that happens only on a page
    that holds a rejected value under one of the keys videoUrl, playUrl,
    srcNoMark; on any other page the resolver answers, with 200 or 404.
    The fetch and the read of the body are taken to have settled: a
    request whose fetch or body never settles is not covered. *)
Theorem resolver_hangs_only_on_trapped_page :
  forall (fuel : nat) (body : jsval) (log : console) (w : World)
         (url : jsstring) (r : Response) (w1 : World) (html : jsstring),
    safeParse isUrl body = Some url ->
    fetchPage url 5 w = (Done r, w1) ->
    text_of r = Some html ->
    (resolve fuel body fresh_response log w = OutOfFuel <->
     fst (extractVideoInfoFromHtml fuel html url log) = OutOfFuel) /\
    (resolve fuel body fresh_response log w = OutOfFuel ->
     List.length html < fuel -> trapped html) /\
    (List.length html < fuel -> ~ trapped html ->
     exists res' log',
       resolve fuel body fresh_response log w = Done (res', log', w1) /\
       (statusCode res' = 200%Z \/ statusCode res' = 404%Z)).
Proof.
  intros fuel body log w url r w1 html Hparse Hfetch Htext.
  unfold fetch_video. rewrite Hparse, Hfetch, Htext.
  pose proof (@extraction_returns_unless_trapped fuel html url log) as Hret.
  pose proof (extract_does_not_throw fuel html url log) as Hthrow.
  destruct (extractVideoInfoFromHtml fuel html url log)
    as [[[d|]|e|] log1]; cbn [fst] in *.
  - split; [split; discriminate|]. split; [discriminate|].
    intros _ _. do 2 eexists. split; [reflexivity|]. left. reflexivity.
  - split; [split; discriminate|]. split; [discriminate|].
    intros _ _. do 2 eexists. split; [reflexivity|]. right. reflexivity.
  - exfalso. exact (Hthrow e log1 eq_refl).
  - split; [split; reflexivity|]. split.
    + intros _ Hfuel.
      destruct (Hret Hfuel) as [[x Hx]|Ht]; [discriminate Hx|exact Ht].
    + intros Hfuel Hnot.
      destruct (Hret Hfuel) as [[x Hx]|Ht]; [discriminate Hx|].
      contradiction.
Qed.

End ResolverProperties.

(** ** Strings: trimming and searching *)

Lemma trimStart_split (s : jsstring) :
  exists ws, s = ws ++ trimStart s /\ Forall (fun c => isSpace c = true) ws.
Proof.
  induction s as [|c s IH]; [exists []; auto|].
  cbn [trimStart]. destruct (isSpace c) eqn:Hc.
  - destruct IH as (ws & Hs & Hws). exists (c :: ws).
    split; [cbn; congruence|constructor; assumption].
  - exists []. auto.
Qed.

Lemma trimStart_head (s : jsstring) (c : N) (t : jsstring) :
  trimStart s = c :: t -> isSpace c = false.
Proof.
  induction s as [|d s IH]; [discriminate|].
  cbn [trimStart]. destruct (isSpace d) eqn:Hd; [exact IH|].
  intros [= <- _]. exact Hd.
Qed.

Lemma trimStart_fixed (s : jsstring) :
  (forall c t, s = c :: t -> isSpace c = false) -> trimStart s = s.
Proof.
  destruct s as [|c s]; [reflexivity|]. intros H.
  cbn [trimStart]. rewrite (H c s eq_refl). reflexivity.
Qed.

Lemma trimStart_idem (s : jsstring) : trimStart (trimStart s) = trimStart s.
Proof.
  apply trimStart_fixed. intros c t H. eapply trimStart_head. exact H.
Qed.

Lemma trimEnd_split (s : jsstring) :
  exists ws, s = trimEnd s ++ ws /\ Forall (fun c => isSpace c = true) ws.
Proof.
  unfold trimEnd. destruct (trimStart_split (rev s)) as (ws & Hs & Hws).
  exists (rev ws). split.
  - rewrite <- rev_app_distr, <- Hs, rev_involutive. reflexivity.
  - apply Forall_rev. exact Hws.
Qed.

Lemma trimEnd_idem (s : jsstring) : trimEnd (trimEnd s) = trimEnd s.
Proof.
  unfold trimEnd. rewrite rev_involutive, trimStart_idem. reflexivity.
Qed.

Lemma trimEnd_keeps_head (s : jsstring) (c : N) (t : jsstring) :
  trimEnd s = c :: t -> exists t', s = c :: t'.
Proof.
  intros H. destruct (trimEnd_split s) as (ws & Hs & _).
  rewrite H in Hs. cbn in Hs. eauto.
Qed.

(** [trim] gives a string that [trim] leaves alone. *)
Lemma trim_idem (s : jsstring) : trim (trim s) = trim s.
Proof.
  unfold trim.
  assert (H : trimStart (trimEnd (trimStart s)) = trimEnd (trimStart s)).
  { apply trimStart_fixed. intros c t Hc.
    apply trimEnd_keeps_head in Hc. destruct Hc as [t' Hc].
    eapply trimStart_head. exact Hc. }
  rewrite H. apply trimEnd_idem.
Qed.

Lemma trim_split (s : jsstring) :
  exists before after, s = before ++ trim s ++ after.
Proof.
  unfold trim. destruct (trimStart_split s) as (ws & Hs & _).
  destruct (trimEnd_split (trimStart s)) as (ws' & Hs' & _).
  exists ws, ws'. rewrite <- Hs', <- Hs. reflexivity.
Qed.

Lemma trim_In (s : jsstring) (c : N) : In c (trim s) -> In c s.
Proof.
  intros H. destruct (trim_split s) as (a & b & Hs). rewrite Hs.
  apply in_or_app. right. apply in_or_app. left. exact H.
Qed.

Lemma startsWith_iff (p s : jsstring) :
  startsWith s p = true <-> exists b, s = p ++ b.
Proof.
  revert s. induction p as [|c p IH]; intros s.
  - split; [intros _; exists s; reflexivity|intros _].
    destruct s; reflexivity.
  - destruct s as [|d s]; cbn [startsWith].
    + split; [discriminate|]. intros [b H]. discriminate.
    + rewrite andb_true_iff, N.eqb_eq, IH. split.
      * intros [-> [b ->]]. exists b. reflexivity.
      * intros [b [= -> ->]]. eauto.
Qed.

Lemma includes_iff (s p : jsstring) :
  includes s p = true <-> exists a b, s = a ++ p ++ b.
Proof.
  induction s as [|d s IH]; cbn [includes].
  - rewrite orb_false_r, startsWith_iff. split.
    + intros [b H]. exists [], b. exact H.
    + intros (a & b & H). destruct a as [|x a]; [eauto|discriminate].
  - rewrite orb_true_iff, startsWith_iff, IH. split.
    + intros [[b H]|(a & b & H)].
      * exists [], b. exact H.
      * exists (d :: a), b. cbn. congruence.
    + intros (a & b & H). destruct a as [|x a].
      * left. eauto.
      * right. injection H as _ H. eauto.
Qed.

Lemma includes_rev (s p : jsstring) :
  includes (rev s) (rev p) = includes s p.
Proof.
  apply eq_true_iff_eq. rewrite !includes_iff. split.
  - intros (a & b & H). exists (rev b), (rev a).
    rewrite <- (rev_involutive s), H, !rev_app_distr, rev_involutive.
    rewrite app_assoc. reflexivity.
  - intros (a & b & ->). exists (rev b), (rev a).
    rewrite !rev_app_distr, app_assoc. reflexivity.
Qed.

Lemma includes_trimStart (s p : jsstring) (c : N) (p' : jsstring) :
  p = c :: p' -> isSpace c = false ->
  includes (trimStart s) p = includes s p.
Proof.
  intros -> Hc. induction s as [|d s IH]; [reflexivity|].
  cbn [trimStart]. destruct (isSpace d) eqn:Hd; [|reflexivity].
  rewrite IH. cbn [includes startsWith].
  destruct (N.eqb c d) eqn:E; [|reflexivity].
  apply N.eqb_eq in E. congruence.
Qed.

Lemma includes_trimEnd (s p : jsstring) (c : N) (p' : jsstring) :
  rev p = c :: p' -> isSpace c = false ->
  includes (trimEnd s) p = includes s p.
Proof.
  intros Hp Hc. unfold trimEnd.
  rewrite <- (rev_involutive p) at 1. rewrite includes_rev.
  rewrite (includes_trimStart (rev s) (rev p) c p' Hp Hc).
  apply includes_rev.
Qed.

(** Trimming does not change whether the platform is named. *)
Lemma names_platform_trim (s : jsstring) :
  names_platform (trim s) = names_platform s.
Proof.
  unfold names_platform, trim.
  rewrite (includes_trimEnd (trimStart s) (lit "kuaishou.com")
             (chr "m") (rev (lit "kuaishou.co")) eq_refl eq_refl).
  rewrite (includes_trimEnd (trimStart s) (lit "kwai.com")
             (chr "m") (rev (lit "kwai.co")) eq_refl eq_refl).
  rewrite (includes_trimStart s (lit "kuaishou.com")
             (chr "k") (lit "uaishou.com") eq_refl eq_refl).
  rewrite (includes_trimStart s (lit "kwai.com")
             (chr "k") (lit "wai.com") eq_refl eq_refl).
  reflexivity.
Qed.

Lemma String_split_no_sep (sep : N) (s : jsstring) :
  Forall (fun line => ~ In sep line) (String_split sep s).
Proof.
  induction s as [|c s IH]; cbn [String_split].
  - constructor; [intros []|constructor].
  - destruct (N.eqb c sep) eqn:E.
    + constructor; [intros []|exact IH].
    + destruct (String_split sep s) as [|line lines].
      * constructor; [|constructor]. intros [H|[]].
        subst. rewrite N.eqb_refl in E. discriminate.
      * inversion IH as [|? ? Hl Hls]; subst.
        constructor; [|exact Hls]. intros [H|H]; [|exact (Hl H)].
        subst. rewrite N.eqb_refl in E. discriminate.
Qed.

(** ** The page: what is submitted *)

(** X19.  Every URL the batch form submits names the platform, has no
    white space at either end and no line feed inside; and there are at
    most as many of them as lines in the box. *)
Theorem batch_urls_are_clean :
  forall (batchUrls : jsstring),
    Forall (fun u => names_platform u = true /\ trim u = u /\ ~ In 10%N u)
      (batch_urls batchUrls) /\
    List.length (batch_urls batchUrls)
    <= List.length (String_split 10 batchUrls).
Proof.
  intros batchUrls. unfold batch_urls. split.
  - apply Forall_forall. intros u Hu. apply filter_In in Hu.
    destruct Hu as [Hu Hp]. apply in_map_iff in Hu.
    destruct Hu as (line & <- & Hline).
    split; [exact Hp|]. split; [apply trim_idem|].
    intros Hin. apply trim_In in Hin.
    pose proof (String_split_no_sep 10 batchUrls) as Hsep.
    rewrite Forall_forall in Hsep. exact (Hsep line Hline Hin).
  - etransitivity; [apply filter_length_le|]. rewrite length_map.
    reflexivity.
Qed.

(** X20.  What the single-URL form submits is the trimmed input, is not
    empty and names the platform; so the only check of the request schema
    it can still fail is the URL syntax. *)
Theorem submitted_url_passes_platform_check :
  forall (url u : jsstring),
    handleSubmit url = Mutate u ->
    u = trim url /\ u <> [] /\ names_platform u = true /\
    forall isUrl,
      safeParse isUrl (VObj [(lit "url", VStr u)])
      = if isUrl u then Some u else None.
Proof.
  intros url u. unfold handleSubmit.
  destruct (trim url) as [|c t] eqn:Ht; [discriminate|].
  destruct (negb (includes url (lit "kuaishou.com"))
            && negb (includes url (lit "kwai.com"))) eqn:Hp;
    [discriminate|].
  intros [= <-].
  assert (Hn : names_platform (c :: t) = true).
  { rewrite <- Ht, names_platform_trim. unfold names_platform.
    rewrite <- negb_orb in Hp. apply negb_false_iff in Hp. exact Hp. }
  split; [reflexivity|]. split; [discriminate|]. split; [exact Hn|].
  intros isUrl. unfold safeParse.
  change (lookup_prop (lit "url") [(lit "url", VStr (c :: t))])
    with (VStr (c :: t)).
  cbv beta iota. rewrite Hn, andb_true_r. reflexivity.
Qed.

Section BatchProperties.

Variable World : Type.
Variable api : jsstring -> World -> outcome jsval * World.

Lemma batch_entry_shape (videoUrl : jsstring) (data : jsval)
  (entry : batch_result) :
  batch_entry videoUrl data = Done entry ->
  br_url entry = videoUrl /\ one_of_video_and_error entry.
Proof.
  unfold batch_entry, one_of_video_and_error. intros H.
  bind_inv H flag Hflag. bind_inv H video Hvideo.
  destruct (truthy video).
  - injection H as <-. cbn. split; [reflexivity|]. right.
    split; discriminate || reflexivity.
  - bind_inv H err Herr. injection H as <-. cbn.
    split; [reflexivity|]. left. split; reflexivity || discriminate.
Qed.

Lemma batch_loop_results (urls : list jsstring) :
  forall (results : list batch_result) (w : World),
    Forall one_of_video_and_error results ->
    map br_url (fst (batch_loop api urls results w))
    = map br_url results ++ urls /\
    Forall one_of_video_and_error (fst (batch_loop api urls results w)).
Proof.
  induction urls as [|u urls IH]; intros results w Hres; cbn [batch_loop].
  - rewrite app_nil_r. auto.
  - destruct (api u w) as [answer w1].
    match goal with
    | |- context [batch_loop api urls (results ++ [?e]) w1] =>
        assert (He : br_url e = u /\ one_of_video_and_error e)
    end.
    { destruct (bind answer (batch_entry u)) as [entry| |] eqn:Hb.
      - destruct answer as [data| |]; cbn [bind] in Hb; try discriminate.
        exact (batch_entry_shape u data entry Hb).
      - cbn. split; [reflexivity|]. left. split; reflexivity || discriminate.
      - cbn. split; [reflexivity|]. left. split; reflexivity || discriminate. }
    destruct He as [Hu He].
    match goal with
    | |- context [batch_loop api urls (results ++ [?e]) w1] =>
        destruct (IH (results ++ [e]) w1) as [Hmap Hall]
    end.
    { apply Forall_app. split; [exact Hres|]. constructor; [exact He|].
      constructor. }
    split; [|exact Hall].
    rewrite Hmap, map_app. cbn [map]. rewrite Hu, <- app_assoc.
    reflexivity.
Qed.


End BatchProperties.

(** ** The page: download history *)

Section HistoryProperties.

Variable JSON_stringify : jsval -> jsstring.
Variable number_eq : jsnum -> jsnum -> bool.
Variable storage_accepts : jsstring -> bool.

Local Abbreviation save :=
  (saveToHistory JSON_stringify number_eq storage_accepts).

(** X22.  Saving either leaves the storage exactly as it was, or replaces
    the stored history by the new entry followed by the first 19 of the
    old entries in their order: at most 20 entries.  It replaces only when
    the stored history is an array none of whose entries has the video's
    [videoUrl]. *)
Theorem history_is_capped_and_deduplicated :
  forall (video : VideoInfo) (now iso : jsstring) (st : Storage),
    save video now iso st = st \/
    exists history,
      getHistory st = VArr history /\
      some_has_videoUrl number_eq history (videoUrl video) = Done false /\
      save video now iso st =
      Available (Some (JSON_stringify
                         (VArr (history_item video now iso
                                :: firstn 19 history)))) /\
      List.length (history_item video now iso :: firstn 19 history) <= 20.
Proof.
  intros video now iso st. unfold saveToHistory, saveToHistory_try.
  destruct (getHistory st) as [| |b|n|s|history|props] eqn:Hh; auto.
  destruct (some_has_videoUrl number_eq history (videoUrl video))
    as [[|]| |] eqn:Hsome; cbn [bind]; auto.
  unfold setItem. destruct st as [|item]; auto.
  change (firstn 20 (history_item video now iso :: history))
    with (history_item video now iso :: firstn 19 history).
  destruct (storage_accepts _); auto.
  right. exists history.
  split; [reflexivity|]. split; [exact Hsome|]. split; [reflexivity|].
  cbn [List.length]. pose proof (firstn_le_length 19 history). lia.
Qed.

(** X23.  Clearing resets the history: after it the history reads as
    empty, and the next save, when the storage takes it, stores the one
    new entry alone. *)
Theorem clear_then_save_keeps_one_entry :
  forall (video : VideoInfo) (now iso : jsstring) (item : option jsstring),
    storage_accepts (JSON_stringify (VArr [history_item video now iso]))
    = true ->
    getHistory (clearHistory (Available item)) = VArr [] /\
    save video now iso (clearHistory (Available item)) =
    Available (Some (JSON_stringify (VArr [history_item video now iso]))).
Proof.
  intros video now iso item Hacc. split; [reflexivity|].
  unfold saveToHistory, saveToHistory_try. cbn. rewrite Hacc. reflexivity.
Qed.

(** X24.  A stored value that is JSON but not an array is never repaired:
    whatever video is saved, the storage stays as it is. *)
Theorem non_array_history_blocks_saving :
  forall (stored : jsstring) (v : jsval) (video : VideoInfo)
         (now iso : jsstring),
    stored <> [] ->
    JSON.parse stored = Done v ->
    (forall l, v <> VArr l) ->
    save video now iso (Available (Some stored)) = Available (Some stored).
Proof.
  intros stored v video now iso Hne Hparse Hnot.
  unfold saveToHistory, saveToHistory_try, getHistory.
  destruct stored as [|c s]; [congruence|]. rewrite Hparse.
  destruct v; try reflexivity. exfalso. exact (Hnot l eq_refl).
Qed.

End HistoryProperties.

(** ** Runs of the further properties *)

Lemma og_video_takes_precedence_witness :
  exists r,
    fst (extractVideoInfoFromHtml 100 html_og_cover [] []) = Done r /\
    (forall d, r = Some d ->
               videoUrl d
               = VStr (unescape (lit "https://cdn.example.com/cover_123.mp4"))).
Proof.
  eapply (og_video_takes_precedence html_og_cover _
            (lit "https://cdn.example.com/cover_123.mp4") 100 [] []).
  - vm_compute. reflexivity.
  - reflexivity.
  - discriminate.
  - vm_compute. lia.
Defined.

Lemma og_image_takes_precedence_witness :
  exists d,
    fst (extractVideoInfoFromHtml 100 html_og_image_video [] [])
    = Done (Some d) /\
    thumbnail d = VStr (unescape (lit "https://cdn.example.com/t.jpg")).
Proof.
  eexists. split; [vm_compute; reflexivity|].
  eapply (og_image_takes_precedence html_og_image_video _
            (lit "https://cdn.example.com/t.jpg") 100 [] []).
  - vm_compute. reflexivity.
  - reflexivity.
  - discriminate.
  - vm_compute. reflexivity.
Defined.

Lemma by_line_takes_precedence_witness :
  exists d,
    fst (extractVideoInfoFromHtml 100 html_by_line [] []) = Done (Some d) /\
    author d = VStr (trim (lit "alice ")).
Proof.
  eexists. split; [vm_compute; reflexivity|].
  eapply (by_line_takes_precedence html_by_line _ (lit "alice ") 100 [] []).
  - vm_compute. reflexivity.
  - reflexivity.
  - vm_compute. discriminate.
  - vm_compute. reflexivity.
Defined.

Lemma structured_data_never_overrides_witness :
  exists v',
    scan_json_scripts 100 (RegExp_literal re_json_script true)
      html_bad_then_good_json vars_titled = Done v' /\
    v_videoUrl v' = VStr (lit "https://cdn.example.com/v.mp4") /\
    (truthy (v_title vars_titled) = true -> v_title v' = v_title vars_titled).
Proof.
  eexists. split; [vm_compute; reflexivity|]. split; [reflexivity|].
  eapply (structured_data_never_overrides 100
            (RegExp_literal re_json_script true) html_bad_then_good_json
            vars_titled).
  vm_compute. reflexivity.
Defined.

Lemma no_video_signal_gives_null_witness :
  fst (extractVideoInfoFromHtml 1 html_title_only [] []) = Done None.
Proof.
  apply (no_video_signal_gives_null html_title_only 1 [] []).
  - vm_compute. reflexivity.
  - vm_compute. reflexivity.
  - repeat constructor; vm_compute; reflexivity.
  - lia.
Defined.

Lemma audio_patterns_win_in_array_order_witness :
  exists d,
    fst (extractVideoInfoFromHtml 200 html_mp3_then_m4a [] [])
    = Done (Some d) /\
    audioUrl d
    = js_or (VStr (unescape (lit "https://cdn.example.com/b.m4a")))
        VUndefined.
Proof.
  eexists. split; [vm_compute; reflexivity|].
  eapply (audio_patterns_win_in_array_order html_mp3_then_m4a [] _
            (RegExp_literal (re_quoted_url "m4a") true) _
            (lit "https://cdn.example.com/b.m4a") 200 [] []).
  - reflexivity.
  - constructor.
  - vm_compute. reflexivity.
  - reflexivity.
  - discriminate.
  - vm_compute. reflexivity.
Defined.

Lemma placeholders_when_nothing_found_witness :
  exists d,
    fst (extractVideoInfoFromHtml 100 html_og_cover [] []) = Done (Some d) /\
    title d = VStr (lit "Kuaishou Video") /\ author d = VStr (lit "Unknown").
Proof.
  eexists. split; [vm_compute; reflexivity|].
  edestruct (placeholders_when_nothing_found html_og_cover 100 [] [])
    as [Ht Ha].
  - vm_compute. reflexivity.
  - vm_compute. reflexivity.
  - split.
    + apply Ht; vm_compute; reflexivity.
    + apply Ha; vm_compute; reflexivity.
Defined.

Lemma extraction_returns_when_keys_are_acceptable_witness :
  exists r, fst (extractVideoInfoFromHtml 100 html_escaped [] []) = Done r.
Proof.
  apply (extraction_returns_when_keys_are_acceptable html_escaped 100 [] []).
  - vm_compute. lia.
  - intros key m [<-|[<-|[<-|[]]]] Hm; vm_compute in Hm;
      try discriminate Hm.
    injection Hm as <-. vm_compute. reflexivity.
Defined.

Lemma extraction_hangs_on_rejected_key_value_witness :
  extractVideoInfoFromHtml 1000 html_hls [] [] = (OutOfFuel, []).
Proof.
  refine (extraction_hangs_on_rejected_key_value html_hls ["videoUrl"]
            ["srcNoMark"] "playUrl" _ _ _ _ _ _ _ _ _ 1000 [] []).
  - vm_compute. reflexivity.
  - vm_compute. reflexivity.
  - vm_compute. reflexivity.
  - vm_compute. reflexivity.
  - reflexivity.
  - repeat constructor; vm_compute; reflexivity.
  - vm_compute. reflexivity.
  - vm_compute. reflexivity.
Defined.

Lemma non_string_media_value_gives_null_witness :
  extractVideoInfoFromHtml 100 html_numeric_contentUrl [] [] =
  (Done None, [(lit "Error extracting video info:", TypeError)]).
Proof.
  eapply (non_string_media_value_gives_null 100 html_numeric_contentUrl
            [] []).
  - vm_compute. reflexivity.
  - left. split; [reflexivity|]. intros [s Hs]. discriminate Hs.
Defined.

Lemma relay_forwards_every_chunk_witness :
  let '(res', log', w'') :=
    download first_agent fetch_media
      (VStr (lit "https://cdn.example.com/v.mp4")) (VStr (lit "audio"))
      fresh_response [] 0 in
  written res' = [[1; 2]; [3]]%N /\
  statusCode res' = 200%Z /\
  json_body res' = None /\
  out_headers res' = media_headers (VStr (lit "audio")) media_upstream /\
  ended res' = true /\
  log' = [] /\ w'' = 1.
Proof.
  apply (relay_forwards_every_chunk nat first_agent fetch_media
           (lit "https://cdn.example.com/v.mp4") (VStr (lit "audio")) [] 0
           media_upstream 1 (Chunk [1; 2]%N (Chunk [3]%N EndOfStream))).
  - discriminate.
  - vm_compute. reflexivity.
  - vm_compute. reflexivity.
  - reflexivity.
  - reflexivity.
Defined.

Lemma relay_on_failed_read_witness :
  let '(res', log', w'') :=
    download first_agent fetch_broken
      (VStr (lit "https://cdn.example.com/v.mp4")) VUndefined
      fresh_response [] 0 in
  written res' = [[1; 2]]%N /\
  ended res' = true /\
  out_headers res' = media_headers VUndefined broken_upstream /\
  log' = [] ++ [(lit "Stream error:", NetworkError)] /\
  ([[1; 2]]%N <> [] -> statusCode res' = 200%Z /\ json_body res' = None) /\
  ([[1; 2]]%N = [] ->
   statusCode res' = 500%Z /\
   json_body res' = Some (error_body "Stream error")).
Proof.
  apply (relay_on_failed_read nat first_agent fetch_broken
           (lit "https://cdn.example.com/v.mp4") VUndefined [] 0
           broken_upstream 1 (Chunk [1; 2]%N ReadFails)).
  - discriminate.
  - vm_compute. reflexivity.
  - vm_compute. reflexivity.
  - reflexivity.
  - reflexivity.
Defined.

Lemma rotated_headers_are_well_formed_witness :
  let (hs, w') := getHeaders first_agent share_link 0 in
  map fst hs =
    [lit "User-Agent"; lit "Accept"; lit "Accept-Language";
     lit "Accept-Encoding"; lit "Referer"; lit "Origin"; lit "Connection";
     lit "Cache-Control"; lit "Pragma"] /\
  (exists ua, Headers_get hs (lit "User-Agent") = Some ua /\
              In ua USER_AGENTS) /\
  (exists r, Headers_get hs (lit "Referer") = Some r /\ r <> [] /\
             (share_link <> [] -> r = share_link)) /\
  w' = snd (first_agent (List.length USER_AGENTS) 0).
Proof.
  apply (rotated_headers_are_well_formed nat first_agent share_link 0).
  vm_compute. lia.
Defined.

Lemma resolver_answers_witness :
  exists res' log' w',
    fetch_video first_agent (serve html_og_cover) no_resolution http_scheme
      text_of_body plain_message 100
      (VObj [(lit "url", VStr share_link)]) fresh_response [] 0
    = Done (res', log', w') /\
    ended res' = true /\ written res' = [] /\ statusCode res' = 200%Z.
Proof.
  eassert (H : fetch_video first_agent (serve html_og_cover) no_resolution
                 http_scheme text_of_body plain_message 100
                 (VObj [(lit "url", VStr share_link)]) fresh_response [] 0
               = Done (_, _, _)) by (vm_compute; reflexivity).
  destruct (resolver_answers nat first_agent (serve html_og_cover)
              no_resolution http_scheme text_of_body plain_message
              100 _ [] 0 _ _ _ H) as (He & Hw & _).
  do 3 eexists. split; [exact H|]. split; [exact He|].
  split; [exact Hw|reflexivity].
Defined.

Lemma resolver_hangs_only_on_trapped_page_witness :
  (fetch_video first_agent (serve html_hls) no_resolution http_scheme
     text_of_body plain_message 100 (VObj [(lit "url", VStr share_link)])
     fresh_response [] 0 = OutOfFuel <->
   fst (extractVideoInfoFromHtml 100 html_hls share_link []) = OutOfFuel) /\
  (fetch_video first_agent (serve html_hls) no_resolution http_scheme
     text_of_body plain_message 100 (VObj [(lit "url", VStr share_link)])
     fresh_response [] 0 = OutOfFuel ->
   List.length html_hls < 100 -> trapped html_hls) /\
  (List.length html_hls < 100 -> ~ trapped html_hls ->
   exists res' log',
     fetch_video first_agent (serve html_hls) no_resolution http_scheme
       text_of_body plain_message 100 (VObj [(lit "url", VStr share_link)])
       fresh_response [] 0 = Done (res', log', 1) /\
     (statusCode res' = 200%Z \/ statusCode res' = 404%Z)).
Proof.
  eapply (resolver_hangs_only_on_trapped_page nat first_agent
            (serve html_hls) no_resolution http_scheme text_of_body
            plain_message 100 (VObj [(lit "url", VStr share_link)]) [] 0
            share_link _ 1 html_hls).
  - vm_compute. reflexivity.
  - vm_compute. reflexivity.
  - vm_compute. reflexivity.
Defined.

Lemma submitted_url_passes_platform_check_witness :
  lit "https://v.kuaishou.com/abc" = trim (lit " https://v.kuaishou.com/abc ")
  /\ lit "https://v.kuaishou.com/abc" <> [] /\
  names_platform (lit "https://v.kuaishou.com/abc") = true /\
  forall isUrl,
    safeParse isUrl (VObj [(lit "url", VStr (lit "https://v.kuaishou.com/abc"))])
    = if isUrl (lit "https://v.kuaishou.com/abc")
      then Some (lit "https://v.kuaishou.com/abc") else None.
Proof.
  apply (submitted_url_passes_platform_check
           (lit " https://v.kuaishou.com/abc ")
           (lit "https://v.kuaishou.com/abc")).
  vm_compute. reflexivity.
Defined.

Lemma clear_then_save_keeps_one_entry_witness :
  getHistory (clearHistory (Available (Some (lit "[1,2]")))) = VArr [] /\
  saveToHistory count_entries (fun x y => true) (fun value => true)
    sample_video (lit "1") (lit "2026") 
    (clearHistory (Available (Some (lit "[1,2]"))))
  = Available (Some (count_entries
                       (VArr [history_item sample_video (lit "1")
                                (lit "2026")]))).
Proof.
  apply (clear_then_save_keeps_one_entry count_entries (fun x y => true)
           (fun value => true) sample_video (lit "1") (lit "2026")
           (Some (lit "[1,2]"))).
  reflexivity.
Defined.

Lemma non_array_history_blocks_saving_witness :
  saveToHistory count_entries (fun x y => true) (fun value => true)
    sample_video (lit "1") (lit "2026") (Available (Some (lit "{}")))
  = Available (Some (lit "{}")).
Proof.
  apply (non_array_history_blocks_saving count_entries (fun x y => true)
           (fun value => true) (lit "{}") (VObj []) sample_video (lit "1")
           (lit "2026")).
  - discriminate.
  - vm_compute. reflexivity.
  - intros l. discriminate.
Defined.

(** ** C9: determinism, with the pattern objects in the heap *)

Lemma update_middle (t1 t2 : list RegExp) (R R' : RegExp) :
  Heap.update (List.length t1) R' (t1 ++ R :: t2) = t1 ++ R' :: t2.
Proof.
  induction t1 as [|x t1 IH]; [reflexivity|].
  cbn [List.length app Heap.update]. rewrite IH. reflexivity.
Qed.

Lemma nth_error_middle (t1 t2 : list RegExp) (R : RegExp) :
  nth_error (t1 ++ R :: t2) (List.length t1) = Some R.
Proof.
  induction t1 as [|x t1 IH]; [reflexivity|exact IH].
Qed.

(** [exec] on an object touches that object only. *)
Lemma exec_run (t1 t2 : list RegExp) (R : RegExp) (S : jsstring) :
  Heap.exec (List.length t1) S (t1 ++ R :: t2)
  = (Done (fst (RegExp_exec R S)), t1 ++ snd (RegExp_exec R S) :: t2).
Proof.
  unfold Heap.exec. rewrite nth_error_middle.
  destruct (RegExp_exec R S) as [m R']. rewrite update_middle. reflexivity.
Qed.

Lemma new_RegExps_run (Rs : list RegExp) :
  forall h : Heap.heap,
    Heap.new_RegExps Rs h
    = (Done (seq (List.length h) (List.length Rs)), h ++ Rs).
Proof.
  induction Rs as [|R Rs IH]; intros h; cbn [Heap.new_RegExps].
  - unfold Heap.ret. rewrite app_nil_r. reflexivity.
  - unfold Heap.bindM, Heap.new_RegExp. rewrite IH. unfold Heap.ret.
    rewrite length_app, Nat.add_1_r, <- app_assoc. reflexivity.
Qed.

Lemma scan_json_scripts_run (html : jsstring) (t1 t2 : list RegExp)
  (fuel : nat) :
  forall (R : RegExp) (v : vars),
  exists R',
    Heap.scan_json_scripts fuel (List.length t1) html v (t1 ++ R :: t2)
    = (scan_json_scripts fuel R html v, t1 ++ R' :: t2).
Proof.
  induction fuel as [|fuel IH]; intros R v.
  - exists R. reflexivity.
  - cbn [Heap.scan_json_scripts scan_json_scripts]. unfold Heap.bindM at 1.
    rewrite exec_run. destruct (RegExp_exec R html) as [[m|] R'];
      cbn [fst snd].
    + unfold Heap.bindM, Heap.lift.
      destruct (try_catch (apply_json_block (at1 m) v) (fun _ => Done v))
        as [v'| |]; cbn [bind].
      * apply IH.
      * exists R'. reflexivity.
      * exists R'. reflexivity.
    + exists R'. reflexivity.
Qed.

Lemma video_while_run (html : jsstring) (t1 t2 : list RegExp) (fuel : nat) :
  forall (R : RegExp) (videoUrl : jsval),
  exists R',
    Heap.video_while fuel (List.length t1) html videoUrl (t1 ++ R :: t2)
    = (video_while fuel R html videoUrl, t1 ++ R' :: t2).
Proof.
  induction fuel as [|fuel IH]; intros R videoUrl.
  - exists R. reflexivity.
  - cbn [Heap.video_while video_while]. unfold Heap.bindM at 1.
    rewrite exec_run. destruct (RegExp_exec R html) as [[m|] R'];
      cbn [fst snd].
    + cbv zeta. destruct (acceptable (at1 m)).
      * exists R'. reflexivity.
      * apply IH.
    + exists R'. reflexivity.
Qed.

Lemma app_cons_assoc (t1 t2 : list RegExp) (R : RegExp) :
  t1 ++ R :: t2 = (t1 ++ [R]) ++ t2.
Proof. rewrite <- app_assoc. reflexivity. Qed.

Lemma length_snoc (t1 : list RegExp) (R : RegExp) :
  List.length (t1 ++ [R]) = S (List.length t1).
Proof. rewrite length_app, Nat.add_1_r. reflexivity. Qed.

Lemma video_for_run (html : jsstring) (fuel : nat) (Rs : list RegExp) :
  forall (t1 t2 : list RegExp) (videoUrl : jsval),
  exists Rs',
    Heap.video_for fuel (seq (List.length t1) (List.length Rs)) html videoUrl
      (t1 ++ Rs ++ t2)
    = (video_for fuel Rs html videoUrl, t1 ++ Rs' ++ t2).
Proof.
  induction Rs as [|R Rs IH]; intros t1 t2 videoUrl.
  - exists []. reflexivity.
  - cbn [List.length seq Heap.video_for video_for app].
    unfold Heap.bindM at 1.
    destruct (video_while_run html t1 (Rs ++ t2) fuel R videoUrl)
      as [R' HR]. rewrite HR.
    destruct (video_while fuel R html videoUrl) as [videoUrl'| |];
      cbn [bind].
    + destruct (truthy videoUrl').
      * exists (R' :: Rs). reflexivity.
      * destruct (IH (t1 ++ [R']) t2 videoUrl') as [Rs' HRs].
        rewrite length_snoc, <- app_cons_assoc in HRs.
        exists (R' :: Rs'). rewrite HRs, <- app_cons_assoc. reflexivity.
    + exists (R' :: Rs). reflexivity.
    + exists (R' :: Rs). reflexivity.
Qed.

Lemma first_capture_run (html : jsstring) (Rs : list RegExp) :
  forall (t1 t2 : list RegExp) (x : jsval),
  exists Rs',
    Heap.first_capture (seq (List.length t1) (List.length Rs)) html x
      (t1 ++ Rs ++ t2)
    = (Done (first_capture Rs html x), t1 ++ Rs' ++ t2).
Proof.
  induction Rs as [|R Rs IH]; intros t1 t2 x.
  - exists []. reflexivity.
  - cbn [List.length seq Heap.first_capture first_capture app].
    unfold Heap.bindM at 1. rewrite exec_run. cbv zeta.
    destruct (truthy
                match fst (RegExp_exec R html) with
                | Some m => at1 m
                | None => x
                end).
    + exists (snd (RegExp_exec R html) :: Rs). reflexivity.
    + destruct (IH (t1 ++ [snd (RegExp_exec R html)]) t2
                  match fst (RegExp_exec R html) with
                  | Some m => at1 m
                  | None => x
                  end) as [Rs' HRs].
      rewrite length_snoc, <- app_cons_assoc in HRs.
      exists (snd (RegExp_exec R html) :: Rs').
      rewrite HRs, <- app_cons_assoc. reflexivity.
Qed.

Lemma first_capture_run_end (html : jsstring) (Rs t1 : list RegExp)
  (x : jsval) :
  exists Rs',
    Heap.first_capture (seq (List.length t1) (List.length Rs)) html x
      (t1 ++ Rs)
    = (Done (first_capture Rs html x), t1 ++ Rs').
Proof.
  destruct (first_capture_run html Rs t1 [] x) as [Rs' H].
  rewrite !app_nil_r in H. exists Rs'. exact H.
Qed.

Lemma video_for_run_end (html : jsstring) (fuel : nat) (Rs t1 : list RegExp)
  (videoUrl : jsval) :
  exists Rs',
    Heap.video_for fuel (seq (List.length t1) (List.length Rs)) html videoUrl
      (t1 ++ Rs)
    = (video_for fuel Rs html videoUrl, t1 ++ Rs').
Proof.
  destruct (video_for_run html fuel Rs t1 [] videoUrl) as [Rs' H].
  rewrite !app_nil_r in H. exists Rs'. exact H.
Qed.

Lemma extends_refl (h : Heap.heap) : extends h h.
Proof. exists []. rewrite app_nil_r. reflexivity. Qed.

Lemma extends_app (h h' more : Heap.heap) :
  extends h h' -> extends h (h' ++ more).
Proof.
  intros [created ->]. exists (created ++ more). rewrite app_assoc.
  reflexivity.
Qed.

Ltac heap_stops :=
  eexists; split; [reflexivity|];
  repeat apply extends_app; apply extends_refl.

(** The cascade in the heap answers as the cascade on fresh objects does,
    whatever the heap holds, and only adds to it. *)
Lemma cascade_run (fuel : nat) (html : jsstring) (h : Heap.heap) :
  exists h',
    Heap.cascade fuel html h = (cascade fuel html, h') /\ extends h h'.
Proof.
  unfold Heap.cascade, cascade. cbv zeta.
  unfold Heap.bindM at 1, Heap.lift at 1.
  destruct (title_from_tag html (VStr [])) as [title0| |]; cbn [bind];
    try heap_stops.
  unfold Heap.bindM at 1, Heap.lift at 1.
  destruct (title_from_og html title0) as [title| |]; cbn [bind];
    try heap_stops.
  unfold Heap.bindM at 1, Heap.lift at 1.
  destruct (author_from_text html (VStr [])) as [author| |]; cbn [bind];
    try heap_stops.
  unfold Heap.bindM at 1, Heap.new_RegExp at 1. cbv beta iota.
  unfold Heap.bindM at 1.
  match goal with
  | |- context [Heap.scan_json_scripts fuel _ html ?v (h ++ [?J])] =>
      destruct (scan_json_scripts_run html h [] fuel J v) as [J' HJ];
      rewrite HJ; clear HJ;
      destruct (scan_json_scripts fuel J html v) as [v1| |]; cbn [bind];
      try heap_stops
  end.
  unfold Heap.bindM at 1. rewrite new_RegExps_run. cbv beta iota.
  unfold Heap.bindM at 1.
  destruct (first_capture_run_end html audioUrlPatterns (h ++ [J']) (VStr []))
    as [A' HA]. rewrite HA. clear HA. cbv beta iota.
  unfold Heap.bindM at 1. rewrite new_RegExps_run. cbv beta iota.
  unfold Heap.bindM at 1.
  assert (Hvideo :
            exists V',
              (if negb (truthy (v_videoUrl v1))
               then Heap.video_for fuel
                      (seq (List.length ((h ++ [J']) ++ A'))
                         (List.length videoUrlPatterns))
                      html (v_videoUrl v1)
               else Heap.ret (v_videoUrl v1))
                (((h ++ [J']) ++ A') ++ videoUrlPatterns)
              = ((if negb (truthy (v_videoUrl v1))
                  then video_for fuel videoUrlPatterns html (v_videoUrl v1)
                  else Done (v_videoUrl v1)),
                 ((h ++ [J']) ++ A') ++ V')).
  { destruct (negb (truthy (v_videoUrl v1))).
    - apply video_for_run_end.
    - exists videoUrlPatterns. reflexivity. }
  destruct Hvideo as [V' HV]. rewrite HV. clear HV.
  destruct (if negb (truthy (v_videoUrl v1))
            then video_for fuel videoUrlPatterns html (v_videoUrl v1)
            else Done (v_videoUrl v1)) as [videoUrl| |]; cbn [bind];
    try heap_stops.
  unfold Heap.bindM at 1. rewrite new_RegExps_run. cbv beta iota.
  unfold Heap.bindM at 1.
  assert (Hm3u8 :
            exists M',
              (if negb (truthy videoUrl)
               then Heap.first_capture
                      (seq (List.length (((h ++ [J']) ++ A') ++ V'))
                         (List.length m3u8Patterns))
                      html videoUrl
               else Heap.ret videoUrl)
                ((((h ++ [J']) ++ A') ++ V') ++ m3u8Patterns)
              = (Done (if negb (truthy videoUrl)
                       then first_capture m3u8Patterns html videoUrl
                       else videoUrl),
                 (((h ++ [J']) ++ A') ++ V') ++ M')).
  { destruct (negb (truthy videoUrl)).
    - apply first_capture_run_end.
    - exists m3u8Patterns. reflexivity. }
  destruct Hm3u8 as [M' HM]. rewrite HM. clear HM. cbv beta iota.
  unfold Heap.bindM at 1. rewrite new_RegExps_run. cbv beta iota.
  unfold Heap.bindM at 1.
  assert (Himg :
            exists I',
              (if negb (truthy (v_thumbnail v1))
               then Heap.first_capture
                      (seq (List.length ((((h ++ [J']) ++ A') ++ V') ++ M'))
                         (List.length imgPatterns))
                      html (v_thumbnail v1)
               else Heap.ret (v_thumbnail v1))
                (((((h ++ [J']) ++ A') ++ V') ++ M') ++ imgPatterns)
              = (Done (if negb (truthy (v_thumbnail v1))
                       then first_capture imgPatterns html (v_thumbnail v1)
                       else v_thumbnail v1),
                 ((((h ++ [J']) ++ A') ++ V') ++ M') ++ I')).
  { destruct (negb (truthy (v_thumbnail v1))).
    - apply first_capture_run_end.
    - exists imgPatterns. reflexivity. }
  destruct Himg as [I' HI]. rewrite HI. clear HI. cbv beta iota.
  unfold Heap.ret. heap_stops.
Qed.

Lemma extract_run (fuel : nat) (html originalUrl : jsstring) (log : console)
  (h : Heap.heap) :
  exists h',
    Heap.extractVideoInfoFromHtml fuel html originalUrl log h
    = (extractVideoInfoFromHtml fuel html originalUrl log, h') /\
    extends h h'.
Proof.
  unfold Heap.extractVideoInfoFromHtml, extractVideoInfoFromHtml,
    Heap.extract_try, extract_try, Heap.bindM.
  destruct (cascade_run fuel html h) as (h' & Hc & Hext). rewrite Hc.
  destruct (cascade fuel html) as [r| |]; cbn [bind].
  - unfold Heap.lift. exists h'. split; [|exact Hext].
    destruct (finish (fst r) (snd r)); reflexivity.
  - exists h'. split; [reflexivity|exact Hext].
  - exists h'. split; [reflexivity|exact Hext].
Qed.

(** C9.  Extraction is deterministic although its pattern objects carry
    state.  With the RegExp objects kept in a heap that outlives the
    call:
    (1) in whatever heap a call runs, it gives the result and the console
    lines of the call on fresh pattern objects, and every object alive
    before the call is left as it was: the call only adds the objects its
    own literals create, each with [lastIndex] 0;
    (2) two calls in a row on the same page, the second in the heap the
    first one left, give the same outcome;
    (3) any two calls on the same page that return, in any two heaps, with
    any consoles and step budgets, return equal results: both null, or
    descriptors equal field by field. *)
Theorem extraction_is_deterministic :
  (forall fuel html originalUrl log (h : Heap.heap),
      exists h',
        Heap.extractVideoInfoFromHtml fuel html originalUrl log h
        = (extractVideoInfoFromHtml fuel html originalUrl log, h') /\
        extends h h') /\
  Forall fresh
    (RegExp_literal re_json_script true :: audioUrlPatterns
     ++ videoUrlPatterns ++ m3u8Patterns ++ imgPatterns) /\
  (forall fuel html originalUrl log (h : Heap.heap),
      let '(r1, log1, h1) :=
        Heap.extractVideoInfoFromHtml fuel html originalUrl log h in
      let '(r2, log2, h2) :=
        Heap.extractVideoInfoFromHtml fuel html originalUrl log1 h1 in
      r2 = r1) /\
  (forall fuel1 fuel2 html originalUrl log1 log2 (h1 h2 : Heap.heap) r1 r2,
      fst (fst (Heap.extractVideoInfoFromHtml fuel1 html originalUrl log1 h1))
      = Done r1 ->
      fst (fst (Heap.extractVideoInfoFromHtml fuel2 html originalUrl log2 h2))
      = Done r2 ->
      r1 = r2).
Proof.
  split; [exact extract_run|]. split; [repeat constructor|]. split.
  - intros fuel html originalUrl log h.
    destruct (extract_run fuel html originalUrl log h) as (h1 & H1 & _).
    rewrite H1.
    destruct (extractVideoInfoFromHtml fuel html originalUrl log)
      as [r1 log1] eqn:Hpure.
    destruct (extract_run fuel html originalUrl log1 h1) as (h2 & H2 & _).
    rewrite H2.
    destruct (extractVideoInfoFromHtml fuel html originalUrl log1)
      as [r2 log2] eqn:Hpure2.
    unfold extractVideoInfoFromHtml in Hpure, Hpure2.
    destruct (extract_try fuel html); congruence.
  - intros fuel1 fuel2 html originalUrl log1 log2 h1 h2 r1 r2 Hr1 Hr2.
    destruct (extract_run fuel1 html originalUrl log1 h1) as (h1' & H1 & _).
    destruct (extract_run fuel2 html originalUrl log2 h2) as (h2' & H2 & _).
    rewrite H1 in Hr1. rewrite H2 in Hr2. cbn [fst] in Hr1, Hr2.
    destruct (Nat.le_ge_cases fuel1 fuel2) as [Hle|Hle].
    + apply (@extract_mono fuel1 fuel2 html originalUrl log1 log2 r1 Hle)
        in Hr1.
      congruence.
    + apply (@extract_mono fuel2 fuel1 html originalUrl log2 log1 r2 Hle)
        in Hr2.
      congruence.
Qed.

(** Two calls on a page with one video URL, the second with another step
    budget and in the heap the first one left. *)
Lemma extraction_is_deterministic_witness :
  exists d,
    fst (fst (Heap.extractVideoInfoFromHtml 100 html_one_video [] [] []))
    = Done (Some d) /\
    fst (fst (Heap.extractVideoInfoFromHtml 200 html_one_video [] []
                (snd (Heap.extractVideoInfoFromHtml 100 html_one_video
                        [] [] []))))
    = Done (Some d) /\
    videoUrl d = VStr (lit "https://cdn.example.com/v_123.mp4").
Proof.
  eassert (H1 : fst (fst (Heap.extractVideoInfoFromHtml 100 html_one_video
                            [] [] []))
                = Done (Some _)) by (vm_compute; reflexivity).
  eexists. split; [exact H1|]. split; [|reflexivity].
  destruct (fst (fst (Heap.extractVideoInfoFromHtml 200 html_one_video
                        [] []
                        (snd (Heap.extractVideoInfoFromHtml 100
                                html_one_video [] [] [])))))
    as [r2| |] eqn:H2.
  - rewrite <- (proj2 (proj2 (proj2 extraction_is_deterministic))
                  _ _ _ _ _ _ _ _ _ _ H1 H2).
    reflexivity.
  - vm_compute in H2. discriminate H2.
  - vm_compute in H2. discriminate H2.
Defined.

(** What per-call creation buys: the same scan run twice on the same
    objects finds the URL the first time and misses it the second, the
    first pattern's [lastIndex] having been left behind the match. *)
Example shared_pattern_objects_change_the_answer :
  let '(patterns, h0) := Heap.new_RegExps videoUrlPatterns [] in
  match patterns with
  | Done patterns =>
      let '(r1, h1) :=
        Heap.video_for 100 patterns html_one_video (VStr []) h0 in
      let '(r2, h2) :=
        Heap.video_for 100 patterns html_one_video (VStr []) h1 in
      r1 = Done (VStr (lit "https://cdn.example.com/v_123.mp4")) /\
      r2 = Done (VStr []) /\
      option_map lastIndex (nth_error h1 0) = Some 43
  | _ => False
  end.
Proof. vm_compute. repeat split; reflexivity. Qed.
